(** * A radix tree (go-radix): shallow embedding of radix.go and its properties

    The development has four parts.

    - Part I: the Go primitives that radix.go relies on ([sort.Search],
      [strings.HasPrefix], byte comparison) and a functional model of the
      tree.  The Go tree is a strict out-tree that the [Tree] owns
      exclusively, so a node is modelled by the value of its fields and of
      the nodes below it; a mutation made through a pointer to a child is
      modelled by rebuilding the parent around the mutated child.  A Go
      panic is the result [None].
    - Part II: a store model ([Module Heap]) in which nodes live at
      addresses and are mutated in place.  It is needed for the walker,
      whose visitor may call [Delete] while the walker still holds pointers
      into the tree.
    - Part III: the notions that the statements are written in.
    - Part IV: lemmas and theorems. *)

From Equations Require Import Equations.
From Stdlib Require Import ZArith Lia Strings.Byte.
From stdpp Require Import base option list gmap sorting.

Set Default Proof Using "Type".
Set Warnings "-register-all".

(** * Part I: the functional model *)

(** ** Go primitives *)

(** A Go [string] is an immutable sequence of bytes. *)
Abbreviation key := (list byte).

#[global] Instance byte_eq_decision : EqDecision byte := Byte.byte_eq_dec.

(** Comparison of two [byte] values (unsigned 8-bit integers). *)
Definition byte_ltb (a b : byte) : bool := (Byte.to_N a <? Byte.to_N b)%N.
Definition byte_leb (a b : byte) : bool := (Byte.to_N a <=? Byte.to_N b)%N.

(** [strings.HasPrefix(s, prefix)]:
    [len(s) >= len(prefix) && s[:len(prefix)] == prefix]. *)
Definition HasPrefix (s p : key) : bool :=
  bool_decide (length p ≤ length s) && bool_decide (take (length p) s = p).

(** [longestPrefix(a, b)], radix.go:137: the length of the shared prefix. *)
Fixpoint longestPrefix (a b : key) : nat :=
  match a, b with
  | x :: a', y :: b' => if decide (x = y) then S (longestPrefix a' b') else 0
  | _, _ => 0
  end.

(** [sort.Search(n, f)] of the Go standard library: binary search for the
    smallest index in [0, n) at which [f] holds.
<<
    i, j := 0, n
    for i < j {
        h := int(uint(i+j) >> 1)
        if !f(h) { i = h + 1 } else { j = h }
    }
    return i
>> *)
Equations? Search_loop (f : nat → bool) (i j : nat) : nat by wf (j - i) lt :=
  Search_loop f i j with decide (i < j) := {
    | left _ with f ((i + j) / 2) := {
        | false := Search_loop f ((i + j) / 2 + 1) j
        | true := Search_loop f i ((i + j) / 2) }
    | right _ := i }.
Proof.
  all: pose proof (Nat.div_mod_eq (i + j) 2);
    pose proof (Nat.mod_upper_bound (i + j) 2); lia.
Qed.

Definition Search (n : nat) (f : nat → bool) : nat := Search_loop f 0 n.

(** Keys of a Go [map[string]T] are modelled by a [gmap]; its keys must be
    countable. *)
Lemma byte_of_to_N (b : byte) : default Byte.x00 (Byte.of_N (Byte.to_N b)) = b.
Proof. by rewrite Byte.of_to_N. Qed.

#[global] Instance byte_countable : Countable byte :=
  inj_countable' Byte.to_N (λ n, default Byte.x00 (Byte.of_N n)) byte_of_to_N.

Definition inspect {A : Type} (a : A) : {b : A | a = b} := exist _ a eq_refl.

(** ** The node and edge model (radix.go:13-104) *)

Section Model.

Variable T : Type.
(** The zero value of the Go type [T]: what a named result holds when the
    function returns without assigning it. *)
Variable zero : T.

(** [leafNode]: a stored key with its value. *)
Record leafNode : Type := mkLeaf { lkey : key; val : T }.

(** [edge]: a label and the child it leads to. *)
Record edge_ (N : Type) : Type := mkEdge { label : byte; enode : N }.
#[global] Arguments mkEdge {N} _ _.
#[global] Arguments label {N} _.
#[global] Arguments enode {N} _.

(** [node]: an optional leaf, the prefix the node consumes, and the edges
    to its children, kept in label order. *)
Inductive node : Type :=
  mkNode { leaf : option leafNode; prefix : key; edges : list (edge_ node) }.

Abbreviation edge := (edge_ node).

(** [Tree]: the root and the number of stored keys.  [size] is a Go [int];
    it counts leaf nodes that are allocated in memory, so it stays far below
    the largest [int] and is modelled by an unbounded integer. *)
Record Tree : Type := mkTree { root : node; size : Z }.

Definition set_leaf (n : node) (l : option leafNode) : node :=
  mkNode l (prefix n) (edges n).
Definition set_prefix (n : node) (p : key) : node :=
  mkNode (leaf n) p (edges n).
Definition set_edges (n : node) (es : list edge) : node :=
  mkNode (leaf n) (prefix n) es.

Fixpoint node_size (n : node) : nat :=
  S (list_sum (map (λ e, node_size (enode e)) (edges n))).

(** [n.isLeaf()] *)
Definition isLeaf (n : node) : bool := bool_decide (is_Some (leaf n)).

(** The binary search that [addEdge], [updateEdge], [getEdge] and [delEdge]
    all start with:
    [sort.Search(len(n.edges), func(i) { return n.edges[i].label >= label })].
    The search only calls the closure inside [0, len(n.edges)). *)
Definition searchLabel (n : node) (l : byte) : nat :=
  Search (length (edges n))
    (λ i, match edges n !! i with
          | Some e => byte_leb l (label e)
          | None => true
          end).

(** [n.addEdge(e)]: insert [e] at the position found by the search. *)
Definition addEdge (n : node) (e : edge) : node :=
  let idx := searchLabel n (label e) in
  set_edges n (take idx (edges n) ++ e :: drop idx (edges n)).

(** [n.updateEdge(label, node)]: [None] is the panic
    ["replacing missing edge"]. *)
Definition updateEdge (n : node) (l : byte) (c : node) : option node :=
  let idx := searchLabel n l in
  match edges n !! idx with
  | Some e =>
      if decide (label e = l)
      then Some (set_edges n (<[idx := mkEdge l c]> (edges n)))
      else None
  | None => None
  end.

(** [n.getEdge(label)]: [None] is the nil pointer. *)
Definition getEdge (n : node) (l : byte) : option node :=
  let idx := searchLabel n l in
  match edges n !! idx with
  | Some e => if decide (label e = l) then Some (enode e) else None
  | None => None
  end.

(** [n.delEdge(label)] *)
Definition delEdge (n : node) (l : byte) : node :=
  let idx := searchLabel n l in
  match edges n !! idx with
  | Some e =>
      if decide (label e = l)
      then set_edges n (take idx (edges n) ++ drop (S idx) (edges n))
      else n
  | None => n
  end.

(** The node [n] after the child it reaches under [l] has been mutated in
    place into [c].  The Go code holds a pointer to the child, so nothing is
    written into [n] there; the model has to store the new value of the
    child in the slot the pointer came from. *)
Definition putChild (n : node) (l : byte) (c : node) : node :=
  set_edges n (<[searchLabel n l := mkEdge l c]> (edges n)).

(** A child is smaller than its parent: the measure of every descent. *)
Lemma child_size (n : node) (e : edge) :
  e ∈ edges n → node_size (enode e) < node_size n.
Proof.
  destruct n as [lf p es]; simpl. intros Hin.
  induction Hin as [e es|e e' es _ IH]; simpl; lia.
Qed.

Lemma getEdge_size (n : node) (l : byte) (c : node) :
  getEdge n l = Some c → node_size c < node_size n.
Proof.
  unfold getEdge. destruct (edges n !! _) as [e|] eqn:He; [|done].
  destruct (decide _); [|done]. intros [= <-].
  by eapply child_size, list_elem_of_lookup_2.
Qed.

(** ** Tree construction and lookup *)

(** [New()] *)
Definition New : Tree := mkTree (mkNode None [] []) 0.

(** [t.Len()] *)
Definition Len (t : Tree) : Z := size t.

(** [t.Get(s)], radix.go:355.  [Get_loop current search] is the [for] loop
    entered with these values of [current] and [search]. *)
Equations Get_loop (current : node) (search : key) : T * bool
  by wf (node_size current) lt :=
  Get_loop current [] with leaf current := {
    | Some l := (val l, true)
    | None := (zero, false) };
  Get_loop current (c :: s) with inspect (getEdge current c) := {
    | exist _ None _ := (zero, false)
    | exist _ (Some child) _ :=
        if HasPrefix (c :: s) (prefix child)
        then Get_loop child (drop (length (prefix child)) (c :: s))
        else (zero, false) }.
Next Obligation. intros. by eapply getEdge_size. Qed.

Definition Get (t : Tree) (s : key) : T * bool := Get_loop (root t) s.

(** ** Insert (radix.go:153) *)

(** [Insert_loop path value size current search] is the [for] loop entered
    with these values; it returns the node [current] as the loop leaves it,
    the new [t.size], and the two results.  [None] is a panic.  In the
    iteration that looks for an edge the variable is called [parent], as in
    the source after [parent = current]. *)
Equations Insert_loop (path : key) (value : T) (size : Z) (current : node)
    (search : key) : option (node * Z * T * bool)
  by wf (node_size current) lt :=
  Insert_loop path value size current [] with leaf current := {
    | Some l :=
        (* old := current.leaf.val; current.leaf.val = value *)
        Some (set_leaf current (Some (mkLeaf (lkey l) value)),
              size, val l, true)
    | None :=
        Some (set_leaf current (Some (mkLeaf path value)),
              (size + 1)%Z, zero, false) };
  Insert_loop path value size parent (c :: s)
    with inspect (getEdge parent c) := {
    | exist _ None _ :=
        (* No edge, create one *)
        let e := mkEdge c (mkNode (Some (mkLeaf path value)) (c :: s) []) in
        Some (addEdge parent e, (size + 1)%Z, zero, false)
    | exist _ (Some current) _ :=
        let search := c :: s in
        let commonPrefix := longestPrefix search (prefix current) in
        if decide (commonPrefix = length (prefix current)) then
          '(current', size', existing, updated) ←
            Insert_loop path value size current (drop commonPrefix search);
          Some (putChild parent c current', size', existing, updated)
        else
          (* Split the node *)
          let child := mkNode None (take commonPrefix search) [] in
          b ← prefix current !! commonPrefix;
          (* the edge points to [current], whose prefix is cut right after *)
          let child := addEdge child
            (mkEdge b (set_prefix current (drop commonPrefix (prefix current)))) in
          let lf := mkLeaf path value in
          let child :=
            match drop commonPrefix search with
            | [] => set_leaf child (Some lf)
            | c' :: s' => addEdge child (mkEdge c' (mkNode (Some lf) (c' :: s') []))
            end in
          parent' ← updateEdge parent c child;
          Some (parent', (size + 1)%Z, zero, false) }.
Next Obligation. intros. by eapply getEdge_size. Qed.

Definition Insert (t : Tree) (path : key) (value : T)
  : option (Tree * T * bool) :=
  '(root', size', existing, updated) ←
    Insert_loop path value (size t) (root t) path;
  Some (mkTree root' size', existing, updated).

(** ** Delete (radix.go:243) *)

(** [n.mergeChild()], radix.go:345.  [None] is the index panic of
    [n.edges[0]]. *)
Definition mergeChild (n : node) : option node :=
  e ← edges n !! 0;
  let child := enode e in
  Some (mkNode (leaf child) (prefix n ++ prefix child) (edges child)).

(** What the descent of [Delete] below a node reports to the iteration that
    holds that node's parent. *)
Inductive descent : Type :=
  | NotFound                     (* one of the [break]s *)
  | Here                         (* key exhausted at a leaf: [goto DELETE] *)
  | Below (n : node) (v : T).    (* the block at DELETE ran further down;
                                    [n] is this node afterwards *)

(** The block at label DELETE for a [current] reached through the edge
    [label] of [parent] (so [parent != nil] and [current != t.root]).
    Returns [parent] as the block leaves it. *)
Definition delete_block (parent_is_root : bool) (parent : node) (l : byte)
    (current : node) : option node :=
  (* current.leaf = nil *)
  let current := set_leaf current None in
  parent ←
    (if decide (length (edges current) = 0) then
       (* parent.delEdge(label); the two merges below leave [current] alone *)
       Some (delEdge parent l)
     else
       current ← (if decide (length (edges current) = 1)
                  then mergeChild current else Some current);
       (* parent's edge still points to the mutated [current] *)
       Some (putChild parent l current));
  if negb parent_is_root && bool_decide (length (edges parent) = 1)
     && negb (isLeaf parent)
  then mergeChild parent
  else Some parent.

(** [Delete_loop is_root current search] is the [for] loop entered with these
    values, [is_root] telling whether [current == t.root].  When the loop
    jumps to DELETE one level down, the block is run here, where the parent
    is at hand. *)
Equations Delete_loop (is_root : bool) (current : node) (search : key)
  : option descent by wf (node_size current) lt :=
  Delete_loop is_root current [] :=
    if isLeaf current then Some Here else Some NotFound;
  Delete_loop is_root parent (l :: s) with inspect (getEdge parent l) := {
    | exist _ None _ := Some NotFound
    | exist _ (Some current) _ :=
        if HasPrefix (l :: s) (prefix current) then
          r ← Delete_loop false current
                 (drop (length (prefix current)) (l :: s));
          match r with
          | NotFound => Some NotFound
          | Here =>
              lf ← leaf current;
              parent' ← delete_block is_root parent l current;
              Some (Below parent' (val lf))
          | Below current' v => Some (Below (putChild parent l current') v)
          end
        else Some NotFound }.
Next Obligation. intros. by eapply getEdge_size. Qed.

Definition Delete (t : Tree) (s : key) : option (Tree * T * bool) :=
  r ← Delete_loop true (root t) s;
  match r with
  | NotFound => Some (t, zero, false)
  | Here =>
      (* DELETE with [parent == nil] and [current == t.root] *)
      lf ← leaf (root t);
      Some (mkTree (set_leaf (root t) None) (size t - 1)%Z, val lf, true)
  | Below root' v => Some (mkTree root' (size t - 1)%Z, v, true)
  end.

(** ** Walking (radix.go:452, 521, 554) *)

(** [recursiveWalk(current, fn)] for a visitor that does not touch the tree:
    [fn] is a function of the visited key, the value and the visitor's own
    state.  The tree then stays as it is during the walk, [len(current.edges)]
    is the same number in every iteration, the index [i] advances by one each
    time and the test [len(current.edges) == 0] inside the loop is false.
    ([Heap.recursiveWalk] has the loop in full, for visitors that do mutate
    the tree.) *)
Fixpoint recursiveWalk {S : Type} (current : node)
    (fn : key → T → S → bool * S) (st : S) {struct current} : bool * S :=
  let children :=
    fix children (es : list edge) (st : S) {struct es} : bool * S :=
      match es with
      | [] => (false, st)
      | e :: es' =>
          let '(stop, st) := recursiveWalk (enode e) fn st in
          if stop then (true, st) else children es' st
      end in
  match leaf current with
  | Some l =>
      let '(stop, st) := fn (lkey l) (val l) st in
      if stop then (true, st) else children (edges current) st
  | None => children (edges current) st
  end.

(** [t.Walk(fn)] *)
Definition Walk {S : Type} (t : Tree) (fn : key → T → S → bool * S) (st : S)
  : S := (recursiveWalk (root t) fn st).2.

(** [t.ToMap()]: the visitor stores every pair in the map [out]. *)
Definition ToMap (t : Tree) : gmap key T :=
  Walk t (λ k v out, (false, <[k := v]> out)) ∅.

(** ** DeletePrefix (radix.go:301) *)

(** What a call of [deletePrefix] on a node reports to the call that holds
    that node's parent. *)
Inductive cut : Type :=
  | NoMatch                      (* [return 0] *)
  | Exhausted                    (* [len(prefix) == 0] at this node *)
  | Under (n : node) (k : Z).    (* the subtree was cut further down; [n] is
                                    this node afterwards, [k] the count *)

(** The counting walk of the key-exhaustion branch. *)
Definition subTreeSize (current : node) : Z :=
  (recursiveWalk current (λ _ _ (k : Z), (false, (k + 1)%Z)) 0%Z).2.

(** The key-exhaustion branch for a [current] reached through the edge [l]
    of [parent] ([parent != nil]).  Returns [parent] as the branch leaves
    it. *)
Definition cut_block (parent_is_root : bool) (parent : node) (l : byte)
    (current : node) : option node :=
  (* current.leaf = nil; current.edges = nil *)
  let current := set_edges (set_leaf current None) [] in
  let parent := putChild parent l current in
  if negb parent_is_root && bool_decide (length (edges parent) = 1)
     && negb (isLeaf parent)
  then mergeChild parent
  else Some parent.

(** [t.deletePrefix(parent, current, prefix)] *)
Equations deletePrefix (is_root : bool) (current : node) (prefix_ : key)
  : option cut by wf (node_size current) lt :=
  deletePrefix is_root current [] := Some Exhausted;
  deletePrefix is_root current (l :: p) with inspect (getEdge current l) := {
    | exist _ None _ := Some NoMatch
    | exist _ (Some child) _ :=
        if negb (HasPrefix (prefix child) (l :: p))
           && negb (HasPrefix (l :: p) (prefix child))
        then Some NoMatch
        else
          let rest :=
            if decide (length (l :: p) < length (prefix child))
            then drop (length (l :: p)) (l :: p)
            else drop (length (prefix child)) (l :: p) in
          r ← deletePrefix false child rest;
          match r with
          | NoMatch => Some NoMatch
          | Exhausted =>
              current' ← cut_block is_root current l child;
              Some (Under current' (subTreeSize child))
          | Under child' k => Some (Under (putChild current l child') k)
          end }.
Next Obligation. intros. by eapply getEdge_size. Qed.

(** [t.DeletePrefix(s)]: the new tree and the returned count. *)
Definition DeletePrefix (t : Tree) (s : key) : option (Tree * Z) :=
  r ← deletePrefix true (root t) s;
  match r with
  | NoMatch => Some (t, 0%Z)
  | Exhausted =>
      (* key exhaustion with [parent == nil] and [current == t.root] *)
      let k := subTreeSize (root t) in
      Some (mkTree (set_edges (set_leaf (root t) None) []) (size t - k)%Z, k)
  | Under root' k => Some (mkTree root' (size t - k)%Z, k)
  end.

(** ** LongestPrefix, Minimum, Maximum (radix.go:385, 420, 436) *)

(** [if current.isLeaf() { last = current.leaf }] *)
Definition seen (last : option leafNode) (current : node) : option leafNode :=
  match leaf current with
  | Some l => Some l
  | None => last
  end.

Equations LongestPrefix_loop (last : option leafNode) (current : node)
    (search : key) : option leafNode by wf (node_size current) lt :=
  LongestPrefix_loop last current [] := seen last current;
  LongestPrefix_loop last current (c :: s)
    with inspect (getEdge current c) := {
    | exist _ None _ := seen last current
    | exist _ (Some child) _ :=
        if HasPrefix (c :: s) (prefix child)
        then LongestPrefix_loop (seen last current) child
               (drop (length (prefix child)) (c :: s))
        else seen last current }.
Next Obligation. intros. by eapply getEdge_size. Qed.

Definition LongestPrefix (t : Tree) (s : key) : key * T * bool :=
  match LongestPrefix_loop None (root t) s with
  | Some last => (lkey last, val last, true)
  | None => ([], zero, false)
  end.

Equations Minimum_loop (current : node) : key * T * bool
  by wf (node_size current) lt :=
  Minimum_loop current with leaf current := {
    | Some l := (lkey l, val l, true)
    | None with inspect (edges current !! 0) := {
        | exist _ (Some e) _ := Minimum_loop (enode e)
        | exist _ None _ := ([], zero, false) } }.
Next Obligation. intros. by eapply child_size, list_elem_of_lookup_2. Qed.

Definition Minimum (t : Tree) : key * T * bool := Minimum_loop (root t).

Equations Maximum_loop (current : node) : key * T * bool
  by wf (node_size current) lt :=
  Maximum_loop current
    with inspect (edges current !! (length (edges current) - 1)) := {
    | exist _ (Some e) _ := Maximum_loop (enode e)
    | exist _ None _ with leaf current := {
        | Some l := (lkey l, val l, true)
        | None := ([], zero, false) } }.
Next Obligation. intros. by eapply child_size, list_elem_of_lookup_2. Qed.

Definition Maximum (t : Tree) : key * T * bool := Maximum_loop (root t).

End Model.

Arguments mkLeaf {T} _ _.
Arguments lkey {T} _.
Arguments val {T} _.
Arguments mkNode {T} _ _ _.
Arguments leaf {T} _.
Arguments prefix {T} _.
Arguments edges {T} _.
Arguments mkTree {T} _ _.
Arguments root {T} _.
Arguments size {T} _.
Arguments set_leaf {T} _ _.
Arguments set_prefix {T} _ _.
Arguments set_edges {T} _ _.
Arguments node_size {T} _.
Arguments isLeaf {T} _.
Arguments searchLabel {T} _ _.
Arguments addEdge {T} _ _.
Arguments updateEdge {T} _ _ _.
Arguments getEdge {T} _ _.
Arguments delEdge {T} _ _.
Arguments putChild {T} _ _ _.
Arguments New {T}.
Arguments Len {T} _.
Arguments Get_loop {T} zero _ _.
Arguments Get {T} zero _ _.
Arguments Insert_loop {T} zero _ _ _ _ _.
Arguments Insert {T} zero _ _ _.
Arguments mergeChild {T} _.
Arguments NotFound {T}.
Arguments Here {T}.
Arguments Below {T} _ _.
Arguments delete_block {T} _ _ _ _.
Arguments Delete_loop {T} _ _ _.
Arguments Delete {T} zero _ _.
Arguments recursiveWalk {T S} _ _ _.
Arguments Walk {T S} _ _ _.
Arguments ToMap {T} _.
Arguments NoMatch {T}.
Arguments Exhausted {T}.
Arguments Under {T} _ _.
Arguments subTreeSize {T} _.
Arguments cut_block {T} _ _ _ _.
Arguments deletePrefix {T} _ _ _.
Arguments DeletePrefix {T} _ _.
Arguments seen {T} _ _.
Arguments LongestPrefix_loop {T} _ _ _.
Arguments LongestPrefix {T} zero _ _.
Arguments Minimum_loop {T} zero _.
Arguments Minimum {T} zero _.
Arguments Maximum_loop {T} zero _.
Arguments Maximum {T} zero _.

(** ** WalkPrefix, WalkPath and NewFromMap (radix.go:457, 490, 122) *)

Section Walks.
Context {T : Type} (zero : T).

(** [t.WalkPrefix(prefix, fn)], for a visitor that does not touch the tree.
    [WalkPrefix_loop current search] is the [for] loop entered with these
    values of [current] and [search]; the result is the state of the
    visitor when the call returns. *)
Equations WalkPrefix_loop {S : Type} (current : node T) (search : key)
    (fn : key → T → S → bool * S) (st : S) : S
  by wf (node_size current) lt :=
  WalkPrefix_loop current [] fn st := (recursiveWalk current fn st).2;
  WalkPrefix_loop current (c :: s) fn st
    with inspect (getEdge current c) := {
    | exist _ None _ := st
    | exist _ (Some child) _ :=
        if HasPrefix (c :: s) (prefix child)
        then WalkPrefix_loop child (drop (length (prefix child)) (c :: s))
               fn st
        else if HasPrefix (prefix child) (c :: s)
        then (recursiveWalk child fn st).2
        else st }.
Next Obligation. intros. by eapply getEdge_size. Qed.

Definition WalkPrefix {S : Type} (t : Tree T) (prefix_ : key)
    (fn : key → T → S → bool * S) (st : S) : S :=
  WalkPrefix_loop (root t) prefix_ fn st.

(** [current.leaf != nil && fn(current.leaf.key, current.leaf.val)] *)
Definition visit_leaf {S : Type} (current : node T)
    (fn : key → T → S → bool * S) (st : S) : bool * S :=
  match leaf current with
  | Some l => fn (lkey l) (val l) st
  | None => (false, st)
  end.

(** [t.WalkPath(path, fn)], for a visitor that does not touch the tree.  In
    every iteration the leaf of [current] is visited first; the loop is left
    when the visitor asks to stop, when [search] is empty, when the edge is
    missing, and when the prefix of the child does not match. *)
Equations WalkPath_loop {S : Type} (current : node T) (search : key)
    (fn : key → T → S → bool * S) (st : S) : S
  by wf (node_size current) lt :=
  WalkPath_loop current [] fn st := (visit_leaf current fn st).2;
  WalkPath_loop current (c :: s) fn st
    with inspect (getEdge current c) := {
    | exist _ None _ := (visit_leaf current fn st).2
    | exist _ (Some child) _ :=
        if (visit_leaf current fn st).1 then (visit_leaf current fn st).2
        else if HasPrefix (c :: s) (prefix child)
        then WalkPath_loop child (drop (length (prefix child)) (c :: s))
               fn (visit_leaf current fn st).2
        else (visit_leaf current fn st).2 }.
Next Obligation. intros. by eapply getEdge_size. Qed.

Definition WalkPath {S : Type} (t : Tree T) (path : key)
    (fn : key → T → S → bool * S) (st : S) : S :=
  WalkPath_loop (root t) path fn st.

(** [NewFromMap(m)], radix.go:122.  [for k, v := range m] yields every pair
    of the map once, in an order that Go leaves unspecified: [order] is the
    order of one run, a list of the pairs of [m].  [NewFromMap(nil)], which
    is [New()], is the empty list. *)
Fixpoint range_Insert (order : list (key * T)) (t : Tree T)
    : option (Tree T) :=
  match order with
  | [] => Some t
  | (k, v) :: order' => r ← Insert zero t k v; range_Insert order' r.1.1
  end.

Definition NewFromMap (order : list (key * T)) : option (Tree T) :=
  range_Insert order (mkTree (mkNode None [] []) 0).

(** The methods of [edges] that [sort.Sort] calls (radix.go:88-100); an
    index out of range panics. *)
Definition edges_Len (e : list (edge_ (node T))) : nat := length e.

Definition edges_Less (e : list (edge_ (node T))) (i j : nat) : option bool :=
  ei ← e !! i; ej ← e !! j; Some (byte_ltb (label ei) (label ej)).

(** [e[i], e[j] = e[j], e[i]]: both operands are read, then [e[i]] and
    [e[j]] are assigned in this order. *)
Definition edges_Swap (e : list (edge_ (node T))) (i j : nat)
    : option (list (edge_ (node T))) :=
  ei ← e !! i; ej ← e !! j; Some (<[j := ei]> (<[i := ej]> e)).

End Walks.

(** ** The tree of the benchmarks (bench_test.go) *)

Section Bench.
Local Open Scope byte_scope.

(** [suffixes], bench_test.go:8 *)
Definition suffixes : list key :=
  [ ["a"]; ["a"; "b"]; ["a"; "b"; "c"]; ["a"; "b"; "x"];
    ["a"; "b"; "y"; "a"]; ["a"; "b"; "y"; "b"]; ["a"; "b"; "y"];
    ["a"; "b"; "z"]; ["a"; "b"; "c"; "d"];
    ["a"; "b"; "c"; "d"; "e"; "f"]; ["a"; "b"; "c"; "d"; "e"];
    ["x"]; ["x"; "y"; "z"]; ["x"; "y"] ].

(** The two nested loops of [createTree] that fill [paths]:
    [for c := 'a'; c < 'i'; c++ { for _, path := range suffixes {
       paths = append(paths, string(c)+path) } }]. *)
Definition createTree_paths : list key :=
  c ← ["a"; "b"; "c"; "d"; "e"; "f"; "g"; "h"];
  (λ path, c :: path) <$> suffixes.

(** [for _, path := range paths { r.Insert(path, path) }] on a
    [Tree[string]]; the zero value of [string] is the empty string. *)
Fixpoint Insert_paths (paths : list key) (r : Tree key) : option (Tree key) :=
  match paths with
  | [] => Some r
  | path :: paths' =>
      x ← Insert [] r path path; Insert_paths paths' x.1.1
  end.

(** [createTree()], bench_test.go:25 *)
Definition createTree : option (Tree key * list key) :=
  r ← Insert_paths createTree_paths New; Some (r, createTree_paths).

(** The body of [BenchmarkGet]: [true] when no [b.Fatalf] is reached. *)
Definition BenchmarkGet_body (r : Tree key) (paths : list key) : bool :=
  forallb (λ path,
    let '(actual, ok) := Get [] r path in
    ok && bool_decide (actual = path)) paths.

(** The body of [BenchmarkLongestPrefix]: [true] when no [b.Fatalf] is
    reached. *)
Definition BenchmarkLongestPrefix_body (r : Tree key) (paths : list key)
    : bool :=
  forallb (λ path,
    let '(actual, _, ok) := LongestPrefix [] r path in
    ok && bool_decide (actual = path)) paths.

End Bench.

(** * Part II: the store model: nodes at addresses, mutated in place *)

Declare Scope heap_scope.

Module Heap.

Section HeapModel.

Variable T : Type.
Variable zero : T.
(** The state of the visitor closures (what they capture besides the
    tree). *)
Variable U : Type.

(** A [*node]: the address of a node in the store. *)
Abbreviation addr := positive.

(** A node in the store.  Its edges hold the addresses of the children.
    The edge slice and the leaf are kept by value: [mergeChild] makes a node
    share the backing array and the [leafNode] of the child it absorbs, and
    that sharing is not modelled.  It cannot be observed as long as no edge
    is added to or removed from the absorbing node, and no value is
    overwritten, while a walker still holds the absorbed child. *)
Record hnode : Type :=
  mkHNode { hleaf : option (leafNode T); hprefix : key;
            hedges : list (byte * addr) }.

(** The store, the two fields of the [Tree], the local variable
    [subTreeSize] that the closure in [deletePrefix] captures, and the
    state of the client's visitors. *)
Record state : Type :=
  mkState { mem : gmap addr hnode; next : addr; troot : addr; tsize : Z;
            counter : Z; user : U }.

(** Outcome of a computation: a result and a new state, a Go panic, or the
    end of the fuel that bounds the loops of the model. *)
Inductive res (A : Type) : Type :=
  | Ok (a : A) (st : state)
  | Panic
  | OutOfFuel.
Arguments Ok {A} _ _.
Arguments Panic {A}.
Arguments OutOfFuel {A}.

Definition M (A : Type) : Type := state → res A.

Definition ret {A : Type} (a : A) : M A := λ st, Ok a st.
Definition bind {A B : Type} (m : M A) (f : A → M B) : M B :=
  λ st, match m st with
        | Ok a st' => f a st'
        | Panic => Panic
        | OutOfFuel => OutOfFuel
        end.
Definition panic {A : Type} : M A := λ _, Panic.
Definition out_of_fuel {A : Type} : M A := λ _, OutOfFuel.

Local Notation "x <- m ;; k" := (bind m (λ x, k))
  (at level 100, m at next level, right associativity).
Local Notation "m ;;; k" := (bind m (λ _, k))
  (at level 100, right associativity).

(** Dereferencing a pointer; an address outside the store is a nil or
    dangling pointer. *)
Definition load (a : addr) : M hnode :=
  λ st, match mem st !! a with Some n => Ok n st | None => Panic end.
Definition store (a : addr) (n : hnode) : M unit :=
  λ st, Ok tt (mkState (<[a := n]> (mem st)) (next st) (troot st) (tsize st)
                 (counter st) (user st)).
(** [&node{...}] *)
Definition alloc (n : hnode) : M addr :=
  λ st, Ok (next st)
          (mkState (<[next st := n]> (mem st)) (Pos.succ (next st)) (troot st)
             (tsize st) (counter st) (user st)).
Definition get_root : M addr := λ st, Ok (troot st) st.
Definition add_size (d : Z) : M unit :=
  λ st, Ok tt (mkState (mem st) (next st) (troot st) (tsize st + d)%Z
                 (counter st) (user st)).
Definition set_counter (c : Z) : M unit :=
  λ st, Ok tt (mkState (mem st) (next st) (troot st) (tsize st) c (user st)).
Definition get_counter : M Z := λ st, Ok (counter st) st.
Definition modify_user (f : U → U) : M unit :=
  λ st, Ok tt (mkState (mem st) (next st) (troot st) (tsize st) (counter st)
                 (f (user st))).
(** [s[i]]: panics out of range. *)
Definition index {A : Type} (xs : list A) (i : nat) : M A :=
  match xs !! i with Some x => ret x | None => panic end.

Definition set_hleaf (n : hnode) (x : option (leafNode T)) : hnode :=
  mkHNode x (hprefix n) (hedges n).
Definition set_hprefix (n : hnode) (p : key) : hnode :=
  mkHNode (hleaf n) p (hedges n).
Definition set_hedges (n : hnode) (es : list (byte * addr)) : hnode :=
  mkHNode (hleaf n) (hprefix n) es.

(** The binary search of the four edge functions. *)
Definition searchLabel (es : list (byte * addr)) (l : byte) : nat :=
  Search (length es)
    (λ i, match es !! i with
          | Some e => byte_leb l e.1
          | None => true
          end).

(** [n.isLeaf()] *)
Definition isLeaf (a : addr) : M bool :=
  n <- load a;; ret (bool_decide (is_Some (hleaf n))).

(** [n.addEdge(e)] *)
Definition addEdge (a : addr) (e : byte * addr) : M unit :=
  n <- load a;;
  let idx := searchLabel (hedges n) e.1 in
  store a (set_hedges n (take idx (hedges n) ++ e :: drop idx (hedges n))).

(** [n.updateEdge(label, node)] *)
Definition updateEdge (a : addr) (l : byte) (c : addr) : M unit :=
  n <- load a;;
  let idx := searchLabel (hedges n) l in
  match hedges n !! idx with
  | Some e =>
      if decide (e.1 = l)
      then store a (set_hedges n (<[idx := (l, c)]> (hedges n)))
      else panic
  | None => panic
  end.

(** [n.getEdge(label)] *)
Definition getEdge (a : addr) (l : byte) : M (option addr) :=
  n <- load a;;
  let idx := searchLabel (hedges n) l in
  match hedges n !! idx with
  | Some e => if decide (e.1 = l) then ret (Some e.2) else ret None
  | None => ret None
  end.

(** [n.delEdge(label)] *)
Definition delEdge (a : addr) (l : byte) : M unit :=
  n <- load a;;
  let idx := searchLabel (hedges n) l in
  match hedges n !! idx with
  | Some e =>
      if decide (e.1 = l)
      then store a (set_hedges n (take idx (hedges n) ++ drop (S idx) (hedges n)))
      else ret tt
  | None => ret tt
  end.

(** [n.mergeChild()] *)
Definition mergeChild (a : addr) : M unit :=
  n <- load a;;
  e <- index (hedges n) 0;;
  child <- load e.2;;
  store a (mkHNode (hleaf child) (hprefix n ++ hprefix child) (hedges child)).

(** [New()]: the store holds the root node only. *)
Definition New (u : U) : state :=
  mkState {[ 1%positive := mkHNode None [] [] ]} 2%positive 1%positive 0 0 u.

(** [t.Len()] *)
Definition Len : M Z := λ st, Ok (tsize st) st.

(** The loop of [t.Insert(path, value)], entered with [current] and
    [search]. *)
Fixpoint Insert_loop (fuel : nat) (path : key) (value : T) (current : addr)
    (search : key) : M (T * bool) :=
  match fuel with
  | O => out_of_fuel
  | S fuel =>
      match search with
      | [] =>
          n <- load current;;
          match hleaf n with
          | Some lf =>
              store current (set_hleaf n (Some (mkLeaf (lkey lf) value)));;;
              ret (val lf, true)
          | None =>
              store current (set_hleaf n (Some (mkLeaf path value)));;;
              add_size 1;;;
              ret (zero, false)
          end
      | l :: _ =>
          let parent := current in
          c <- getEdge current l;;
          match c with
          | None =>
              a <- alloc (mkHNode (Some (mkLeaf path value)) search []);;
              addEdge parent (l, a);;;
              add_size 1;;;
              ret (zero, false)
          | Some current =>
              n <- load current;;
              let commonPrefix := longestPrefix search (hprefix n) in
              if decide (commonPrefix = length (hprefix n)) then
                Insert_loop fuel path value current (drop commonPrefix search)
              else
                add_size 1;;;
                child <- alloc (mkHNode None (take commonPrefix search) []);;
                updateEdge parent l child;;;
                n <- load current;;
                b <- index (hprefix n) commonPrefix;;
                addEdge child (b, current);;;
                n <- load current;;
                store current (set_hprefix n (drop commonPrefix (hprefix n)));;;
                let lf := mkLeaf path value in
                match drop commonPrefix search with
                | [] =>
                    c <- load child;;
                    store child (set_hleaf c (Some lf))
                    ;;; ret (zero, false)
                | l' :: s' =>
                    a <- alloc (mkHNode (Some lf) (l' :: s') []);;
                    addEdge child (l', a);;;
                    ret (zero, false)
                end
          end
      end
  end.

Definition Insert (fuel : nat) (path : key) (value : T) : M (T * bool) :=
  root <- get_root;;
  Insert_loop fuel path value root path.

(** The loop of [t.Delete(s)]: [None] when it leaves by [break], the values
    of [parent], [label] and [current] when it jumps to DELETE. *)
Fixpoint Delete_loop (fuel : nat) (parent : option addr) (label : byte)
    (current : addr) (search : key) : M (option (option addr * byte * addr)) :=
  match fuel with
  | O => out_of_fuel
  | S fuel =>
      match search with
      | [] =>
          lf <- isLeaf current;;
          if lf then ret (Some (parent, label, current)) else ret None
      | l :: _ =>
          let parent := Some current in
          let label := l in
          c <- getEdge current label;;
          match c with
          | None => ret None
          | Some current =>
              n <- load current;;
              if HasPrefix search (hprefix n)
              then Delete_loop fuel parent label current
                     (drop (length (hprefix n)) search)
              else ret None
          end
      end
  end.

Definition when (b : bool) (m : M unit) : M unit := if b then m else ret tt.

Definition Delete (fuel : nat) (s : key) : M (T * bool) :=
  root <- get_root;;
  r <- Delete_loop fuel None Byte.x00 root s;;
  match r with
  | None => ret (zero, false)
  | Some (parent, label, current) =>
      (* DELETE: *)
      n <- load current;;
      let leaf := hleaf n in
      store current (set_hleaf n None);;;
      add_size (-1);;;
      n <- load current;;
      match parent with
      | Some parent => when (bool_decide (length (hedges n) = 0))
                         (delEdge parent label)
      | None => ret tt
      end;;;
      n <- load current;;
      when (bool_decide (current ≠ root) && bool_decide (length (hedges n) = 1))
           (mergeChild current);;;
      match parent with
      | Some parent =>
          p <- load parent;;
          when (bool_decide (parent ≠ root)
                && bool_decide (length (hedges p) = 1)
                && negb (bool_decide (is_Some (hleaf p))))
               (mergeChild parent)
      | None => ret tt
      end;;;
      match leaf with
      | Some lf => ret (val lf, true)
      | None => panic
      end
  end.

(** [recursiveWalk(current, fn)] with the loop in full.  The visitor is a
    computation on the whole state: it may call [Delete]. *)
Fixpoint recursiveWalk (fuel : nat) (current : addr) (fn : key → T → M bool)
    : M bool :=
  match fuel with
  | O => out_of_fuel
  | S fuel =>
      n <- load current;;
      stop <- match hleaf n with
              | Some lf => fn (lkey lf) (val lf)
              | None => ret false
              end;;
      if stop then ret true else
      n <- load current;;
      walk_loop fuel current fn 0 (length (hedges n))
  end
with walk_loop (fuel : nat) (current : addr) (fn : key → T → M bool)
    (i numEdges : nat) : M bool :=
  match fuel with
  | O => out_of_fuel
  | S fuel =>
      if decide (i < numEdges) then
        n <- load current;;
        e <- index (hedges n) i;;
        stop <- recursiveWalk fuel e.2 fn;;
        if stop then ret true else
        n <- load current;;
        if decide (length (hedges n) = 0) then recursiveWalk fuel current fn
        else
          let i := if decide (numEdges ≤ length (hedges n)) then i + 1 else i in
          walk_loop fuel current fn i (length (hedges n))
      else ret false
  end.

(** [t.Walk(fn)] *)
Definition Walk (fuel : nat) (fn : key → T → M bool) : M unit :=
  root <- get_root;;
  recursiveWalk fuel root fn;;; ret tt.

(** [t.deletePrefix(parent, current, prefix)] *)
Fixpoint deletePrefix (fuel : nat) (parent : option addr) (current : addr)
    (prefix_ : key) : M Z :=
  match fuel with
  | O => out_of_fuel
  | S fuel =>
      match prefix_ with
      | [] =>
          root <- get_root;;
          set_counter 0;;;
          recursiveWalk fuel current
            (λ _ _, c <- get_counter;; set_counter (c + 1);;; ret false);;;
          subTreeSize <- get_counter;;
          n <- load current;;
          store current (mkHNode None (hprefix n) []);;;
          match parent with
          | Some parent =>
              p <- load parent;;
              when (bool_decide (parent ≠ root)
                    && bool_decide (length (hedges p) = 1)
                    && negb (bool_decide (is_Some (hleaf p))))
                   (mergeChild parent)
          | None => ret tt
          end;;;
          add_size (- subTreeSize);;;
          ret subTreeSize
      | label :: _ =>
          c <- getEdge current label;;
          match c with
          | None => ret 0%Z
          | Some child =>
              n <- load child;;
              if negb (HasPrefix (hprefix n) prefix_)
                 && negb (HasPrefix prefix_ (hprefix n))
              then ret 0%Z
              else
                let rest :=
                  if decide (length prefix_ < length (hprefix n))
                  then drop (length prefix_) prefix_
                  else drop (length (hprefix n)) prefix_ in
                deletePrefix fuel (Some current) child rest
          end
      end
  end.

(** [t.DeletePrefix(s)] *)
Definition DeletePrefix (fuel : nat) (s : key) : M Z :=
  root <- get_root;;
  deletePrefix fuel None root s.

(** The loop of [t.Get(s)] *)
Fixpoint Get_loop (fuel : nat) (current : addr) (search : key) : M (T * bool) :=
  match fuel with
  | O => out_of_fuel
  | S fuel =>
      match search with
      | [] =>
          n <- load current;;
          match hleaf n with
          | Some lf => ret (val lf, true)
          | None => ret (zero, false)
          end
      | l :: _ =>
          c <- getEdge current l;;
          match c with
          | None => ret (zero, false)
          | Some current =>
              n <- load current;;
              if HasPrefix search (hprefix n)
              then Get_loop fuel current (drop (length (hprefix n)) search)
              else ret (zero, false)
          end
      end
  end.

Definition Get (fuel : nat) (s : key) : M (T * bool) :=
  root <- get_root;;
  Get_loop fuel root s.

(** The tree that the store holds below an address, as a value of the
    functional model. *)
Fixpoint node_at (fuel : nat) (m : gmap addr hnode) (a : addr)
    : option (node T) :=
  match fuel with
  | O => None
  | S fuel =>
      n ← m !! a;
      es ← mapM (λ e : byte * addr, mkEdge e.1 <$> node_at fuel m e.2) (hedges n);
      Some (mkNode (hleaf n) (hprefix n) es)
  end.

Definition tree_at (fuel : nat) (st : state) : option (Tree T) :=
  n ← node_at fuel (mem st) (troot st);
  Some (mkTree n (tsize st)).

End HeapModel.

Arguments mkHNode {T} _ _ _.
Arguments hleaf {T} _.
Arguments hprefix {T} _.
Arguments hedges {T} _.
Arguments mkState {T U} _ _ _ _ _ _.
Arguments mem {T U} _.
Arguments next {T U} _.
Arguments troot {T U} _.
Arguments tsize {T U} _.
Arguments counter {T U} _.
Arguments user {T U} _.
Arguments Ok {T U A} _ _.
Arguments Panic {T U A}.
Arguments OutOfFuel {T U A}.
Arguments ret {T U A} _ _.
Arguments bind {T U A B} _ _ _.
Arguments panic {T U A} _.
Arguments out_of_fuel {T U A} _.
Arguments load {T U} _ _.
Arguments store {T U} _ _ _.
Arguments alloc {T U} _ _.
Arguments get_root {T U} _.
Arguments add_size {T U} _ _.
Arguments set_counter {T U} _ _.
Arguments get_counter {T U} _.
Arguments modify_user {T U} _ _.
Arguments index {T U A} _ _ _.
Arguments isLeaf {T U} _ _.
Arguments addEdge {T U} _ _ _.
Arguments updateEdge {T U} _ _ _ _.
Arguments getEdge {T U} _ _ _.
Arguments delEdge {T U} _ _ _.
Arguments mergeChild {T U} _ _.
Arguments New {T U} _.
Arguments Len {T U} _.
Arguments Insert_loop {T} zero {U} _ _ _ _ _ _.
Arguments Insert {T} zero {U} _ _ _ _.
Arguments Delete_loop {T U} _ _ _ _ _ _.
Arguments when {T U} _ _ _.
Arguments Delete {T} zero {U} _ _ _.
Arguments recursiveWalk {T U} _ _ _ _.
Arguments walk_loop {T U} _ _ _ _ _ _.
Arguments Walk {T U} _ _ _.
Arguments deletePrefix {T U} _ _ _ _ _.
Arguments DeletePrefix {T U} _ _ _.
Arguments Get_loop {T} zero {U} _ _ _ _.
Arguments Get {T} zero {U} _ _ _.
Arguments node_at {T} _ _ _.
Arguments tree_at {T U} _ _.

End Heap.

Notation "x <- m ;; k" := (Heap.bind m (λ x, k))
  (at level 100, m at next level, right associativity) : heap_scope.
Notation "m ;;; k" := (Heap.bind m (λ _, k))
  (at level 100, right associativity) : heap_scope.

(** * Part III: the vocabulary of the statements *)

(** ** Orders on bytes and keys *)

Definition byte_lt (a b : byte) : Prop := (Byte.to_N a < Byte.to_N b)%N.

#[global] Instance byte_lt_dec a b : Decision (byte_lt a b).
Proof. unfold byte_lt. apply _. Defined.

(** The order of Go's [<] on strings. *)
Fixpoint key_ltb (a b : key) : bool :=
  match a, b with
  | _, [] => false
  | [], _ :: _ => true
  | x :: a', y :: b' => byte_ltb x y || (bool_decide (x = y) && key_ltb a' b')
  end.

Definition key_lt (a b : key) : Prop := key_ltb a b = true.

Section Vocabulary.
Context {T : Type}.
Implicit Types (t : Tree T) (n : node T) (es : list (edge_ (node T))).
Implicit Types (s k : key).

(** ** Nodes *)

(** Edge lists in strictly ascending label order. *)
Definition sorted es : Prop :=
  StronglySorted (λ e1 e2, byte_lt (label e1) (label e2)) es.

(** The leaf that the descent of [Get] ends at: the loop of [Get], [Delete]
    and [Insert] without what they do on arrival. *)
Equations find_leaf (current : node T) (search : key) : option (leafNode T)
  by wf (node_size current) lt :=
  find_leaf current [] := leaf current;
  find_leaf current (c :: s) with inspect (getEdge current c) := {
    | exist _ None _ := None
    | exist _ (Some child) _ :=
        if HasPrefix (c :: s) (prefix child)
        then find_leaf child (drop (length (prefix child)) (c :: s))
        else None }.
Next Obligation. intros. by eapply getEdge_size. Qed.

(** The descent entered just above a node: its prefix is still to be
    consumed. *)
Definition find_at (child : node T) (s : key) : option (leafNode T) :=
  if HasPrefix s (prefix child)
  then find_leaf child (drop (length (prefix child)) s)
  else None.

(** How far a search text is consumed along whole node prefixes: the node
    where the descent of [Get] and [deletePrefix] stands when the next
    edge is missing or its child's prefix is not a prefix of what is left,
    and the text left over. *)
Equations descend (current : node T) (search : key) : node T * key
  by wf (node_size current) lt :=
  descend current [] := (current, []);
  descend current (l :: s) with inspect (getEdge current l) := {
    | exist _ None _ := (current, l :: s)
    | exist _ (Some child) _ :=
        if HasPrefix (l :: s) (prefix child)
        then descend child (drop (length (prefix child)) (l :: s))
        else (current, l :: s) }.
Next Obligation. intros. by eapply getEdge_size. Qed.

(** The intermediate node that the split branch of [Insert] builds. *)
Definition split_child (current : node T) (search path : key) (value : T)
    (b : byte) : node T :=
  let commonPrefix := longestPrefix search (prefix current) in
  let child := addEdge (mkNode None (take commonPrefix search) [])
    (mkEdge b (set_prefix current (drop commonPrefix (prefix current)))) in
  match drop commonPrefix search with
  | [] => set_leaf child (Some (mkLeaf path value))
  | c' :: s' =>
      addEdge child (mkEdge c' (mkNode (Some (mkLeaf path value)) (c' :: s') []))
  end.

(** [wf_node path n]: [n] sits at the end of the path spelling [path]; its
    leaf, if any, stores [path]; its edges are in strictly ascending label
    order; every label is the first byte of the child's prefix; and the
    children are well formed in turn. *)
Inductive wf_node : key → node T → Prop :=
  | wf_node_intro path n :
      (∀ lf, leaf n = Some lf → lkey lf = path) →
      sorted (edges n) →
      (∀ e, e ∈ edges n →
         head (prefix (enode e)) = Some (label e) ∧
         wf_node (path ++ prefix (enode e)) (enode e)) →
      wf_node path n.

(** The compression invariant below a node: every node reached through an
    edge carries a leaf or has at least two edges. *)
Fixpoint compressed_below (n : node T) : bool :=
  forallb (λ e, (isLeaf (enode e) || bool_decide (2 ≤ length (edges (enode e))))
                && compressed_below (enode e)) (edges n).

(** ** The pairs below a node *)

Definition leaf_entry (x : option (leafNode T)) : list (key * T) :=
  match x with Some lf => [(lkey lf, val lf)] | None => [] end.

(** The leaves below a node in pre-order: the node's own leaf, then the
    subtrees in edge order. *)
Fixpoint entries (n : node T) : list (key * T) :=
  leaf_entry (leaf n) ++ concat (map (λ e, entries (enode e)) (edges n)).

Definition entries_of (es : list (edge_ (node T))) : list (key * T) :=
  concat (map (λ e, entries (enode e)) es).

(** The number of leaves below a node. *)
Definition count (n : node T) : Z := Z.of_nat (length (entries n)).

Definition count_of (es : list (edge_ (node T))) : Z :=
  Z.of_nat (length (entries_of es)).

(** Calling the visitor on a list of pairs, until it asks to stop. *)
Fixpoint visit {S : Type} (fn : key → T → S → bool * S)
    (kvs : list (key * T)) (st : S) : bool * S :=
  match kvs with
  | [] => (false, st)
  | (k, v) :: kvs' =>
      let '(stop, st) := fn k v st in
      if stop then (true, st) else visit fn kvs' st
  end.

(** ** Trees *)

(** What every reachable tree satisfies. *)
Definition wf_tree t : Prop :=
  wf_node [] (root t) ∧ prefix (root t) = [] ∧ size t = count (root t).

(** What [Get] answers, as an option. *)
Definition stored t k : option T := val <$> find_leaf (root t) k.

(** The visitor that records its calls and never stops. *)
Definition record (k : key) (v : T) (log : list (key * T))
  : bool * list (key * T) := (false, log ++ [(k, v)]).

(** The calls that [Walk] makes on a tree, in order. *)
Definition walked t : list (key * T) := Walk t record [].

(** A visitor [fn] instrumented to log the pairs it is called on. *)
Definition logged {S : Type} (fn : key → T → S → bool * S) (k : key) (v : T)
    (st : S * list (key * T)) : bool * (S * list (key * T)) :=
  let '(stop, s') := fn k v st.1 in (stop, (s', st.2 ++ [(k, v)])).

(** The value of the most recent insert of [k] in [ops]. *)
Definition latest (ops : list (key * T)) (k : key) : option T :=
  snd <$> last (filter (λ kv, kv.1 = k) ops).

(** What [LongestPrefix_loop] returns in terms of what the descent finds
    along the search text. *)
Definition longest_at (last : option (leafNode T)) n s
    (r : option (leafNode T)) : Prop :=
  (∃ s1 lf, s1 `prefix_of` s ∧ find_leaf n s1 = Some lf ∧ r = Some lf ∧
     ∀ s1', s1' `prefix_of` s → is_Some (find_leaf n s1') →
       length s1' ≤ length s1) ∨
  (r = last ∧ ∀ s1', s1' `prefix_of` s → find_leaf n s1' = None).

(** A call of one of the three mutating operations. *)
Inductive op : Type :=
  | OpInsert (k : key) (v : T)
  | OpDelete (k : key)
  | OpDeletePrefix (p : key).

End Vocabulary.

Section Histories.
Context {T : Type} (zero : T).
Implicit Types (t : Tree T).

(** The trees that a client can hold: [New()] followed by any number of
    [Insert], [Delete] and [DeletePrefix] calls. *)
Inductive reachable : Tree T → Prop :=
  | reach_New : reachable New
  | reach_Insert t k v t' old upd :
      reachable t → Insert zero t k v = Some (t', old, upd) → reachable t'
  | reach_Delete t k t' old del :
      reachable t → Delete zero t k = Some (t', old, del) → reachable t'
  | reach_DeletePrefix t p t' cnt :
      reachable t → DeletePrefix t p = Some (t', cnt) → reachable t'.

(** Running a list of [Insert] calls, first to last. *)
Fixpoint insert_all (ops : list (key * T)) (t : Tree T) : option (Tree T) :=
  match ops with
  | [] => Some t
  | (k, v) :: ops' => r ← Insert zero t k v; insert_all ops' r.1.1
  end.

(** One mutating call; [None] stands for a Go panic. *)
Definition apply_op (t : Tree T) (o : op) : option (Tree T) :=
  match o with
  | OpInsert k v => r ← Insert zero t k v; Some r.1.1
  | OpDelete k => r ← Delete zero t k; Some r.1.1
  | OpDeletePrefix p => r ← DeletePrefix t p; Some r.1
  end.

(** Running a list of calls, first to last. *)
Fixpoint run (ops : list op) (t : Tree T) : option (Tree T) :=
  match ops with
  | [] => Some t
  | o :: ops' => t' ← apply_op t o; run ops' t'
  end.

End Histories.

(** ** Keys used in the examples *)

Definition ka : key := ["a"%byte].
Definition kb : key := ["b"%byte].
Definition kab : key := ["a"%byte; "b"%byte].
Definition kac : key := ["a"%byte; "c"%byte].
Definition kabc : key := ["a"%byte; "b"%byte; "c"%byte].
Definition kabd : key := ["a"%byte; "b"%byte; "d"%byte].

(** ** Client programs on the store model *)

Section Programs.
Context {T : Type} (zero : T).
Local Open Scope heap_scope.

(** The three mutating calls on the store model. *)
Definition heap_apply_op (fuel : nat) (o : op) : Heap.M T (list key) unit :=
  match o with
  | OpInsert k v => Heap.Insert zero fuel k v ;;; Heap.ret tt
  | OpDelete k => Heap.Delete zero fuel k ;;; Heap.ret tt
  | OpDeletePrefix p => Heap.DeletePrefix fuel p ;;; Heap.ret tt
  end.

Fixpoint heap_run (fuel : nat) (ops : list op) : Heap.M T (list key) unit :=
  match ops with
  | [] => Heap.ret tt
  | o :: ops' => heap_apply_op fuel o ;;; heap_run fuel ops'
  end.

(** The tree that a list of calls leaves in the store, read back as a
    value. *)
Definition heap_tree_after (fuel : nat) (ops : list op) : option (Tree T) :=
  match heap_run fuel ops (Heap.New []) with
  | Heap.Ok _ st => Heap.tree_at fuel st
  | _ => None
  end.

(** The visitor of a self-pruning walk: it deletes the key it is called on,
    notes the call, and asks to go on. *)
Definition delete_visitor (fuel : nat) (k : key) (v : T)
    : Heap.M T (list key) bool :=
  Heap.Delete zero fuel k ;;;
  Heap.modify_user (λ log, log ++ [k]) ;;;
  Heap.ret false.

(** Insert the pairs into a new tree, then walk it with [delete_visitor];
    the result is Len before and after the walk. *)
Definition self_pruning_walk (fuel : nat) (kvs : list (key * T))
    : Heap.M T (list key) (Z * Z) :=
  heap_run fuel (map (λ kv, OpInsert kv.1 kv.2) kvs) ;;;
  n0 <- Heap.Len ;;
  Heap.Walk fuel (delete_visitor fuel) ;;;
  n1 <- Heap.Len ;;
  Heap.ret (n0, n1).

End Programs.

(** ** Trees used in the examples *)

(** "a", "ab", "abc" and "b" inserted in this order. *)
Definition example_ops : list (op (T:=Z)) :=
  [OpInsert ka 1%Z; OpInsert kab 2%Z; OpInsert kabc 3%Z; OpInsert kb 4%Z].

Definition example_tree : Tree Z := default New (run 0%Z example_ops New).

(** "abc" and "abd": one node with prefix "ab" under the root. *)
Definition fork_ops : list (op (T:=Z)) := [OpInsert kabc 1%Z; OpInsert kabd 2%Z].

Definition fork_tree : Tree Z := default New (run 0%Z fork_ops New).

Definition fork_child : node Z :=
  default (root fork_tree) (getEdge (root fork_tree) "a"%byte).

(** The store after the calls of [example_ops]. *)
Definition example_store : Heap.state Z (list key) :=
  match heap_run 0%Z 100 example_ops (Heap.New []) with
  | Heap.Ok _ st => st
  | _ => Heap.New []
  end.

(** A visitor that notes the keys it is called on. *)
Definition note_key (k : key) (v : Z) (log : list key) : bool * list key :=
  (false, log ++ [k]).

(** A map with two of the example keys. *)
Definition example_map : gmap key Z := <[kab := 2%Z]> {[ka := 1%Z]}.

(** The node under the edge "a" of the root of [example_tree]. *)
Definition fork_child_a : node Z :=
  default (root example_tree) (getEdge (root example_tree) "a"%byte).

(** ** Compressed trees and trees grown without DeletePrefix *)

Section VocabularyMore.
Context {T : Type} (zero : T).

(** What the compression invariant asks of a node below the root: a leaf,
    or at least two edges. *)
Definition compressed_node (n : node T) : bool :=
  isLeaf n || bool_decide (2 ≤ length (edges n)).

(** The compression invariant of a tree. *)
Definition compressed (t : Tree T) : Prop := compressed_below (root t) = true.

(** The least and the greatest pair of a list in ascending key order. *)
Definition first_pair (kvs : list (key * T)) : key * T * bool :=
  match head kvs with
  | Some (k, v) => (k, v, true)
  | None => ([], zero, false)
  end.

Definition last_pair (kvs : list (key * T)) : key * T * bool :=
  match last kvs with
  | Some (k, v) => (k, v, true)
  | None => ([], zero, false)
  end.

(** The calls other than DeletePrefix. *)
Definition is_DeletePrefix (o : op (T:=T)) : bool :=
  match o with OpDeletePrefix _ => true | _ => false end.

End VocabularyMore.

(** ** Stores that hold a tree *)

Section StoreVocabulary.
Context {T U : Type}.

(** The state with another state of the client's visitors. *)
Definition set_user (st : Heap.state T U) (u : U) : Heap.state T U :=
  Heap.mkState (Heap.mem st) (Heap.next st) (Heap.troot st) (Heap.tsize st)
    (Heap.counter st) u.

(** A visitor that does not touch the tree, as a computation on the
    store: it only changes the state of the client. *)
Definition pure_visitor (f : key → T → U → bool * U) (k : key) (v : T)
    : Heap.M T U bool :=
  λ st, Heap.Ok (f k v (Heap.user st)).1
          (set_user st (f k v (Heap.user st)).2).

(** The store holds the node [n] at the address [a]. *)
Definition holds (m : gmap positive (Heap.hnode T)) (a : positive)
    (n : node T) : Prop :=
  ∃ fuel, Heap.node_at fuel m a = Some n.

End StoreVocabulary.

(** * Part IV: lemmas and theorems *)

(** ** Bytes and strings *)

Lemma byte_ltb_lt a b : byte_ltb a b = true ↔ byte_lt a b.
Proof. apply N.ltb_lt. Qed.

Lemma byte_leb_nlt a b : byte_leb a b = true ↔ ¬ byte_lt b a.
Proof. unfold byte_leb, byte_lt. rewrite N.leb_le. lia. Qed.

Lemma byte_to_N_inj a b : Byte.to_N a = Byte.to_N b → a = b.
Proof.
  intros H. apply (f_equal Byte.of_N) in H.
  rewrite !Byte.of_to_N in H. congruence.
Qed.

Lemma byte_lt_irrefl a : ¬ byte_lt a a.
Proof. unfold byte_lt. lia. Qed.

Lemma byte_lt_trans a b c : byte_lt a b → byte_lt b c → byte_lt a c.
Proof. unfold byte_lt. lia. Qed.

Lemma byte_lt_trichotomy a b : byte_lt a b ∨ a = b ∨ byte_lt b a.
Proof.
  unfold byte_lt.
  destruct (N.lt_trichotomy (Byte.to_N a) (Byte.to_N b)) as [?|[?|?]]; auto.
  right; left. by apply byte_to_N_inj.
Qed.

Lemma HasPrefix_spec (s p : key) : HasPrefix s p = true ↔ p `prefix_of` s.
Proof.
  unfold HasPrefix. rewrite andb_true_iff, !bool_decide_eq_true. split.
  - intros [_ H]. exists (drop (length p) s).
    by rewrite <- H at 1; rewrite take_drop.
  - intros [r ->]. rewrite length_app, take_app_length. split; [lia|done].
Qed.

Lemma HasPrefix_app (p r : key) : HasPrefix (p ++ r) p = true.
Proof. apply HasPrefix_spec. by exists r. Qed.

Lemma HasPrefix_false (s p : key) : HasPrefix s p = false ↔ ¬ p `prefix_of` s.
Proof. rewrite <- HasPrefix_spec. by destruct (HasPrefix s p). Qed.

Lemma longestPrefix_le_l (a b : key) : longestPrefix a b ≤ length a.
Proof.
  revert b. induction a as [|x a IH]; intros [|y b]; simpl; try lia.
  destruct (decide _); simpl; [|lia]. specialize (IH b). lia.
Qed.

Lemma longestPrefix_le_r (a b : key) : longestPrefix a b ≤ length b.
Proof.
  revert b. induction a as [|x a IH]; intros [|y b]; simpl; try lia.
  destruct (decide _); simpl; [|lia]. specialize (IH b). lia.
Qed.

Lemma longestPrefix_take (a b : key) :
  take (longestPrefix a b) a = take (longestPrefix a b) b.
Proof.
  revert b. induction a as [|x a IH]; intros [|y b]; simpl; try done.
  destruct (decide _) as [->|]; simpl; [|done]. by rewrite IH.
Qed.

Lemma longestPrefix_differ (a b : key) x y :
  a !! longestPrefix a b = Some x → b !! longestPrefix a b = Some y → x ≠ y.
Proof.
  revert b. induction a as [|x' a IH]; intros [|y' b]; simpl; try done.
  destruct (decide _) as [->|]; simpl; [apply IH|congruence].
Qed.

Lemma longestPrefix_full (a b : key) :
  longestPrefix a b = length b ↔ b `prefix_of` a.
Proof.
  revert b. induction a as [|x a IH]; intros [|y b]; simpl.
  - split; [intros; by exists []|done].
  - split; [done|]. intros [r Hr]. done.
  - split; [intros; by eexists|done].
  - destruct (decide _) as [->|Hne]; simpl.
    + rewrite Nat.succ_inj_wd, IH. split.
      * intros [r ->]. by exists r.
      * intros [r [= ->]]. by exists r.
    + split; [done|]. intros [r [= ? ?]]. done.
Qed.

Lemma longestPrefix_head (a b : key) c :
  head a = Some c → head b = Some c → 0 < longestPrefix a b.
Proof.
  destruct a, b; simpl; try done. intros [= ->] [= ->].
  rewrite decide_True by done. lia.
Qed.

(** ** Binary search *)

Lemma Search_loop_spec (f : nat → bool) (i j : nat) :
  i ≤ j →
  i ≤ Search_loop f i j ≤ j ∧
  (Search_loop f i j < j → f (Search_loop f i j) = true) ∧
  (i < Search_loop f i j → f (Search_loop f i j - 1) = false).
Proof.
  funelim (Search_loop f i j); intros Hij; clear Heqcall.
  - assert (i = j) by lia. subst. lia.
  - pose proof (Nat.div_mod_eq (i + j) 2).
    pose proof (Nat.mod_upper_bound (i + j) 2).
    set (h := (i + j) `div` 2) in *. set (r := Search_loop f i h) in *.
    destruct H as (? & ? & ?); [lia|].
    repeat split; try lia; [|done].
    intros _. destruct (decide (r < h)); [auto|].
    by replace r with h by lia.
  - pose proof (Nat.div_mod_eq (i + j) 2).
    pose proof (Nat.mod_upper_bound (i + j) 2).
    set (h := (i + j) `div` 2) in *. set (r := Search_loop f (h + 1) j) in *.
    destruct H as (? & ? & ?); [lia|].
    repeat split; try lia; [done|].
    intros _. destruct (decide (h + 1 < r)); [auto|].
    by replace (r - 1) with h by lia.
Qed.

(** On a predicate that is monotone on [0, n), [Search] returns the least
    index at which the predicate holds, or [n]. *)
Lemma Search_spec (n : nat) (f : nat → bool) :
  (∀ i j, i ≤ j → j < n → f i = true → f j = true) →
  Search n f ≤ n ∧ ∀ i, i < n → (f i = true ↔ Search n f ≤ i).
Proof.
  intros Hmono. unfold Search.
  destruct (Search_loop_spec f 0 n) as ([_ Hle] & Ht & Hf); [lia|].
  split; [done|]. intros i Hi. split.
  - intros Hfi. destruct (decide (Search_loop f 0 n ≤ i)) as [|Hn]; [done|].
    rewrite (Hmono i (Search_loop f 0 n - 1)) in Hf; try done; lia.
  - intros Hge. apply (Hmono (Search_loop f 0 n) i); [done..|]. apply Ht. lia.
Qed.

(** ** Edges kept in label order *)

Section Edges.
Context {T : Type}.
Implicit Types (n c : node T) (e : edge_ (node T)) (es : list (edge_ (node T))).
Implicit Types (l : byte).

Lemma edge_eta e : mkEdge (label e) (enode e) = e.
Proof. by destruct e. Qed.

Lemma sorted_lookup es i j e1 e2 :
  sorted es → es !! i = Some e1 → es !! j = Some e2 → i < j →
  byte_lt (label e1) (label e2).
Proof.
  intros Hs H1 H2 Hij. rewrite <- (take_drop_middle es j e2 H2) in Hs.
  eapply (StronglySorted_app_1_elem_of _ _ _ e1 e2 Hs); [|left].
  apply list_elem_of_lookup. exists i. by rewrite lookup_take_lt.
Qed.

Lemma sorted_middle es1 e0 es2 e :
  sorted (es1 ++ e0 :: es2) → e ∈ es1 ++ es2 → label e ≠ label e0.
Proof.
  intros Hs [Hin|Hin]%elem_of_app Heq.
  - apply (byte_lt_irrefl (label e0)). rewrite <- Heq at 1.
    eapply (StronglySorted_app_1_elem_of _ _ _ e e0 Hs); [done|left].
  - apply StronglySorted_app_1_r in Hs. inversion Hs as [|? ? _ Hall]; subst.
    rewrite Forall_forall in Hall. apply (byte_lt_irrefl (label e0)).
    rewrite <- Heq at 2. by apply Hall.
Qed.

Lemma sorted_replace es1 e0 e1 es2 :
  label e1 = label e0 → sorted (es1 ++ e0 :: es2) → sorted (es1 ++ e1 :: es2).
Proof.
  intros Hl. unfold sorted. rewrite !StronglySorted_app.
  intros (H12 & H1 & H2). split_and!; [|done|].
  - intros x1 x2 Hx1 [->|Hx2]%elem_of_cons.
    + rewrite Hl. apply H12; [done|left].
    + apply H12; [done|by right].
  - inversion H2 as [|? ? Hs Hall]; subst. constructor; [done|]. by rewrite Hl.
Qed.

Lemma sorted_remove es1 e0 es2 :
  sorted (es1 ++ e0 :: es2) → sorted (es1 ++ es2).
Proof.
  unfold sorted. rewrite !StronglySorted_app.
  intros (H12 & H1 & H2). split_and!; [|done|].
  - intros x1 x2 Hx1 Hx2. apply H12; [done|by right].
  - by inversion H2.
Qed.

(** The position found by the binary search splits a sorted edge list into
    the labels below [l] and the labels from [l] on. *)
Lemma searchLabel_spec n l :
  sorted (edges n) →
  searchLabel n l ≤ length (edges n) ∧
  ∀ i e, edges n !! i = Some e →
    (searchLabel n l ≤ i ↔ ¬ byte_lt (label e) l).
Proof.
  intros Hs. unfold searchLabel.
  set (f := λ i, match edges n !! i with
                 | Some e => byte_leb l (label e) | None => true end).
  destruct (Search_spec (length (edges n)) f) as [Hle Hiff].
  { intros i j Hij Hj. unfold f.
    destruct (edges n !! i) as [ei|] eqn:Hi;
      [|apply lookup_ge_None in Hi; lia].
    destruct (edges n !! j) as [ej|] eqn:Hej; [|done].
    rewrite !byte_leb_nlt. intros Hni Hlt. apply Hni.
    destruct (decide (i = j)) as [->|]; [congruence|].
    eapply byte_lt_trans; [|done]. eapply sorted_lookup; eauto with lia. }
  split; [done|]. intros i e Hi.
  rewrite <- (Hiff i) by (by eapply lookup_lt_Some).
  unfold f. rewrite Hi. apply byte_leb_nlt.
Qed.

Lemma getEdge_lookup n l c :
  getEdge n l = Some c → edges n !! searchLabel n l = Some (mkEdge l c).
Proof.
  unfold getEdge. destruct (edges n !! _) as [e|] eqn:He; [|done].
  destruct (decide _) as [<-|]; [|done]. intros [= <-]. by rewrite edge_eta.
Qed.

Lemma getEdge_elem n l c : getEdge n l = Some c → mkEdge l c ∈ edges n.
Proof. intros H%getEdge_lookup. by eapply list_elem_of_lookup_2. Qed.

Lemma getEdge_split n l c :
  getEdge n l = Some c →
  edges n = take (searchLabel n l) (edges n) ++
            mkEdge l c :: drop (S (searchLabel n l)) (edges n).
Proof. intros H%getEdge_lookup. by rewrite take_drop_middle. Qed.

Lemma lookup_searchLabel n i e :
  sorted (edges n) → edges n !! i = Some e → searchLabel n (label e) = i.
Proof.
  intros Hs Hi. destruct (searchLabel_spec n (label e) Hs) as [Hle Hiff].
  pose proof (proj2 (Hiff i e Hi) (byte_lt_irrefl _)) as Hidx.
  destruct (decide (searchLabel n (label e) = i)) as [|Hne]; [done|].
  destruct (lookup_lt_is_Some_2 (edges n) (searchLabel n (label e)))
    as [e' He']; [apply lookup_lt_Some in Hi; lia|].
  destruct (proj1 (Hiff _ e' He')); [lia|].
  eapply sorted_lookup; eauto with lia.
Qed.

Lemma elem_getEdge n e :
  sorted (edges n) → e ∈ edges n → getEdge n (label e) = Some (enode e).
Proof.
  intros Hs [i Hi]%list_elem_of_lookup. unfold getEdge.
  rewrite (lookup_searchLabel n i e Hs Hi), Hi. by rewrite decide_True.
Qed.

Lemma getEdge_Some n l c :
  sorted (edges n) → getEdge n l = Some c ↔ mkEdge l c ∈ edges n.
Proof.
  intros Hs. split; [apply getEdge_elem|]. intros H.
  by apply (elem_getEdge n _ Hs) in H.
Qed.

Lemma getEdge_None n l :
  sorted (edges n) → getEdge n l = None ↔ ∀ e, e ∈ edges n → label e ≠ l.
Proof.
  intros Hs. split.
  - intros Hn e He <-. by rewrite (elem_getEdge n e Hs He) in Hn.
  - intros Hall. destruct (getEdge n l) as [c|] eqn:Hg; [|done].
    apply getEdge_elem in Hg. by destruct (Hall _ Hg).
Qed.

(** Two sorted edge lists with the same edges under [l] answer [getEdge]
    alike. *)
Lemma getEdge_ext n n' l :
  sorted (edges n) → sorted (edges n') →
  (∀ c, mkEdge l c ∈ edges n ↔ mkEdge l c ∈ edges n') →
  getEdge n l = getEdge n' l.
Proof.
  intros Hs Hs' Hiff. destruct (getEdge n l) as [c|] eqn:Hg.
  - symmetry. apply getEdge_Some, Hiff, getEdge_elem; done.
  - destruct (getEdge n' l) as [c'|] eqn:Hg'; [|done].
    apply getEdge_elem, Hiff, getEdge_Some in Hg'; [congruence|done].
Qed.

Lemma addEdge_elem n e e' :
  e' ∈ edges (addEdge n e) ↔ e' = e ∨ e' ∈ edges n.
Proof.
  unfold addEdge; simpl. rewrite elem_of_app, elem_of_cons.
  rewrite <- (take_drop (searchLabel n (label e)) (edges n)) at 3.
  rewrite elem_of_app. tauto.
Qed.

Lemma addEdge_sorted n e :
  sorted (edges n) → getEdge n (label e) = None → sorted (edges (addEdge n e)).
Proof.
  intros Hs Hn. unfold addEdge; simpl.
  destruct (searchLabel_spec n (label e) Hs) as [Hle Hiff].
  rewrite getEdge_None in Hn by done.
  set (idx := searchLabel n (label e)) in *.
  assert (Hs' := Hs). rewrite <- (take_drop idx (edges n)) in Hs'.
  apply StronglySorted_app in Hs' as (H12 & H1 & H2).
  assert (Hlow : ∀ x, x ∈ take idx (edges n) → byte_lt (label x) (label e)).
  { intros x [i Hi]%list_elem_of_lookup.
    apply lookup_take_Some in Hi as [Hi Hlt].
    destruct (decide (byte_lt (label x) (label e))) as [|Hnlt]; [done|].
    apply (Hiff i x Hi) in Hnlt. lia. }
  assert (Hhigh : ∀ x, x ∈ drop idx (edges n) → byte_lt (label e) (label x)).
  { intros x [i Hi]%list_elem_of_lookup. rewrite lookup_drop in Hi.
    assert (¬ byte_lt (label x) (label e)) as Hnlt
      by (apply (Hiff _ x Hi); lia).
    destruct (byte_lt_trichotomy (label x) (label e)) as [?|[Heq|?]];
      [done| |done].
    destruct (Hn x); [by eapply list_elem_of_lookup_2|done]. }
  apply StronglySorted_app_2; [|done|].
  - intros x1 x2 Hx1 [->|Hx2]%elem_of_cons; [by apply Hlow|by apply H12].
  - constructor; [done|]. apply Forall_forall. intros x Hx.
    by apply Hhigh.
Qed.

Lemma putChild_edges n l c0 c :
  getEdge n l = Some c0 →
  edges (putChild n l c) = take (searchLabel n l) (edges n) ++
            mkEdge l c :: drop (S (searchLabel n l)) (edges n).
Proof.
  intros H%getEdge_lookup. unfold putChild; simpl.
  apply insert_take_drop. apply (lookup_lt_Some _ _ _ H).
Qed.

Lemma putChild_sorted n l c0 c :
  sorted (edges n) → getEdge n l = Some c0 → sorted (edges (putChild n l c)).
Proof.
  intros Hs Hg. rewrite (putChild_edges n l c0 c Hg).
  rewrite (getEdge_split n l c0 Hg) in Hs.
  by apply (sorted_replace _ (mkEdge l c0)).
Qed.

Lemma putChild_elem n l c0 c e :
  sorted (edges n) → getEdge n l = Some c0 →
  e ∈ edges (putChild n l c) ↔ e = mkEdge l c ∨ (e ∈ edges n ∧ label e ≠ l).
Proof.
  intros Hs Hg. rewrite (putChild_edges n l c0 c Hg).
  pose proof (getEdge_split n l c0 Hg) as Hsplit.
  rewrite Hsplit in Hs. pose proof (sorted_middle _ _ _ e Hs) as Hmid.
  rewrite Hsplit at 3.
  rewrite !elem_of_app, !elem_of_cons in *. simpl in Hmid.
  split.
  - intros [?|[->|?]]; auto.
  - intros [->|[[?|[->|?]] ?]]; auto. done.
Qed.

Lemma updateEdge_putChild n l c0 c :
  getEdge n l = Some c0 → updateEdge n l c = Some (putChild n l c).
Proof.
  intros H%getEdge_lookup. unfold updateEdge. rewrite H; simpl.
  by rewrite decide_True.
Qed.

Lemma delEdge_edges n l c0 :
  getEdge n l = Some c0 →
  edges (delEdge n l) =
    take (searchLabel n l) (edges n) ++ drop (S (searchLabel n l)) (edges n).
Proof.
  intros H%getEdge_lookup. unfold delEdge. rewrite H; simpl.
  by rewrite decide_True.
Qed.

Lemma delEdge_sorted n l c0 :
  sorted (edges n) → getEdge n l = Some c0 → sorted (edges (delEdge n l)).
Proof.
  intros Hs Hg. rewrite (delEdge_edges n l c0 Hg).
  rewrite (getEdge_split n l c0 Hg) in Hs. by eapply sorted_remove.
Qed.

Lemma delEdge_elem n l c0 e :
  sorted (edges n) → getEdge n l = Some c0 →
  e ∈ edges (delEdge n l) ↔ e ∈ edges n ∧ label e ≠ l.
Proof.
  intros Hs Hg. rewrite (delEdge_edges n l c0 Hg).
  pose proof (getEdge_split n l c0 Hg) as Hsplit.
  rewrite Hsplit in Hs. pose proof (sorted_middle _ _ _ e Hs) as Hmid.
  rewrite Hsplit at 3.
  rewrite !elem_of_app, !elem_of_cons in *. simpl in Hmid.
  split.
  - intros [?|?]; auto.
  - intros [[?|[->|?]] ?]; auto. done.
Qed.

Lemma delEdge_leaf n l : leaf (delEdge n l) = leaf n.
Proof.
  unfold delEdge. destruct (edges n !! _); [|done]. by destruct (decide _).
Qed.

Lemma delEdge_prefix n l : prefix (delEdge n l) = prefix n.
Proof.
  unfold delEdge. destruct (edges n !! _); [|done]. by destruct (decide _).
Qed.

End Edges.

Section EdgeUpdates.
Context {T : Type}.
Implicit Types (n c : node T) (e : edge_ (node T)) (es : list (edge_ (node T))).
Implicit Types (l : byte).

Lemma getEdge_addEdge n e l :
  sorted (edges n) → getEdge n (label e) = None →
  getEdge (addEdge n e) l =
    if decide (l = label e) then Some (enode e) else getEdge n l.
Proof.
  intros Hs Hn. pose proof (addEdge_sorted n e Hs Hn) as Hs'.
  destruct (decide _) as [->|Hne].
  - apply elem_getEdge; [done|]. apply addEdge_elem. by left.
  - apply getEdge_ext; [done..|]. intros c. rewrite addEdge_elem.
    split; [|by right]. intros [<-|?]; [done|done].
Qed.

Lemma getEdge_putChild n l c0 c l' :
  sorted (edges n) → getEdge n l = Some c0 →
  getEdge (putChild n l c) l' = if decide (l' = l) then Some c else getEdge n l'.
Proof.
  intros Hs Hg. pose proof (putChild_sorted n l c0 c Hs Hg) as Hs'.
  destruct (decide _) as [->|Hne].
  - apply getEdge_Some; [done|]. apply (putChild_elem n l c0); auto.
  - apply getEdge_ext; [done..|]. intros c'.
    rewrite (putChild_elem n l c0) by done. split.
    + intros [[= ? ?]|[? _]]; [done|done].
    + intros ?. right. done.
Qed.

Lemma getEdge_delEdge n l c0 l' :
  sorted (edges n) → getEdge n l = Some c0 →
  getEdge (delEdge n l) l' = if decide (l' = l) then None else getEdge n l'.
Proof.
  intros Hs Hg. pose proof (delEdge_sorted n l c0 Hs Hg) as Hs'.
  destruct (decide _) as [->|Hne].
  - apply getEdge_None; [done|]. intros e He.
    by apply (delEdge_elem n l c0) in He as [_ ?].
  - apply getEdge_ext; [done..|]. intros c'.
    rewrite (delEdge_elem n l c0) by done. simpl. tauto.
Qed.

Lemma getEdge_set_leaf n x l : getEdge (set_leaf n x) l = getEdge n l.
Proof. done. Qed.

Lemma getEdge_nil n l : edges n = [] → getEdge n l = None.
Proof.
  intros He. destruct (getEdge n l) eqn:Hg; [|done].
  apply getEdge_elem in Hg. rewrite He in Hg. by apply elem_of_nil in Hg.
Qed.

Lemma getEdge_singleton n e l :
  edges n = [e] →
  getEdge n l = if decide (l = label e) then Some (enode e) else None.
Proof.
  intros He.
  assert (Hs : sorted (edges n)).
  { rewrite He. repeat constructor. }
  destruct (decide _) as [->|Hne].
  - apply elem_getEdge; [done|]. rewrite He. left.
  - apply getEdge_None; [done|]. intros e'. rewrite He.
    intros ->%list_elem_of_singleton. done.
Qed.

Lemma node_ind_size (P : node T → Prop) :
  (∀ n, (∀ c, node_size c < node_size n → P c) → P n) → ∀ n, P n.
Proof.
  intros IH n. remember (node_size n) as k eqn:Hk. revert n Hk.
  induction k as [k IHk] using lt_wf_ind. intros n ->.
  apply IH. intros c Hc. by eapply IHk.
Qed.

End EdgeUpdates.

(** ** The descent shared by the operations *)

Section Descent.
Context {T : Type}.
Implicit Types (n c : node T) (e : edge_ (node T)) (es : list (edge_ (node T))).
Implicit Types (l : byte) (s p : key) (lf : leafNode T).

Lemma find_leaf_nil n : find_leaf n [] = leaf n.
Proof. by simp find_leaf. Qed.

Lemma find_leaf_cons n l s :
  find_leaf n (l :: s) = getEdge n l ≫= λ child, find_at child (l :: s).
Proof.
  simp find_leaf. destruct (inspect (getEdge n l)) as [[child|] H];
    simpl; by rewrite H.
Qed.

Lemma find_at_app c s : find_at c (prefix c ++ s) = find_leaf c s.
Proof. unfold find_at. by rewrite HasPrefix_app, drop_app_length. Qed.

Lemma find_at_Some c s lf :
  find_at c s = Some lf ↔
  ∃ r, s = prefix c ++ r ∧ find_leaf c r = Some lf.
Proof.
  unfold find_at. split.
  - destruct (HasPrefix s (prefix c)) eqn:Hp; [|done].
    apply HasPrefix_spec in Hp as [r ->]. rewrite drop_app_length. eauto.
  - intros (r & -> & H). by rewrite HasPrefix_app, drop_app_length.
Qed.

End Descent.

Section Unfold.
Context {T : Type} (zero : T).
Implicit Types (n : node T) (l : byte) (s p : key) (lf : leafNode T).

Lemma Get_loop_find n s :
  Get_loop zero n s =
    match find_leaf n s with Some lf => (val lf, true) | None => (zero, false) end.
Proof.
  revert s. induction n as [n IH] using node_ind_size. intros [|l s].
  - simp Get_loop find_leaf. by destruct (leaf n).
  - rewrite find_leaf_cons. simp Get_loop.
    destruct (inspect (getEdge n l)) as [[child|] H]; simpl; rewrite H; simpl;
      [|done].
    unfold find_at. destruct (HasPrefix _ _); [|done].
    apply IH. by eapply getEdge_size.
Qed.

Lemma Insert_loop_nil path value sz n :
  Insert_loop zero path value sz n [] =
    match leaf n with
    | Some lf => Some (set_leaf n (Some (mkLeaf (lkey lf) value)), sz, val lf, true)
    | None => Some (set_leaf n (Some (mkLeaf path value)), (sz + 1)%Z, zero, false)
    end.
Proof. simp Insert_loop. by destruct (leaf n). Qed.

Lemma Insert_loop_cons path value sz (parent : node T) l s :
  Insert_loop zero path value sz parent (l :: s) =
    match getEdge parent l with
    | None =>
        Some (addEdge parent
                (mkEdge l (mkNode (Some (mkLeaf path value)) (l :: s) [])),
              (sz + 1)%Z, zero, false)
    | Some current =>
        let commonPrefix := longestPrefix (l :: s) (prefix current) in
        if decide (commonPrefix = length (prefix current)) then
          '(current', size', existing, updated) ←
            Insert_loop zero path value sz current (drop commonPrefix (l :: s));
          Some (putChild parent l current', size', existing, updated)
        else
          b ← prefix current !! commonPrefix;
          parent' ← updateEdge parent l
                      (split_child current (l :: s) path value b);
          Some (parent', (sz + 1)%Z, zero, false)
    end.
Proof.
  simp Insert_loop. destruct (inspect (getEdge parent l)) as [[child|] H];
    simpl; by rewrite H.
Qed.

Lemma Delete_loop_nil is_root n :
  Delete_loop is_root n [] = if isLeaf n then Some Here else Some NotFound.
Proof. by simp Delete_loop. Qed.

Lemma Delete_loop_cons is_root (parent : node T) l s :
  Delete_loop is_root parent (l :: s) =
    match getEdge parent l with
    | None => Some NotFound
    | Some current =>
        if HasPrefix (l :: s) (prefix current) then
          r ← Delete_loop false current
                 (drop (length (prefix current)) (l :: s));
          match r with
          | NotFound => Some NotFound
          | Here =>
              lf ← leaf current;
              parent' ← delete_block is_root parent l current;
              Some (Below parent' (val lf))
          | Below current' v => Some (Below (putChild parent l current') v)
          end
        else Some NotFound
    end.
Proof.
  simp Delete_loop. destruct (inspect (getEdge parent l)) as [[child|] H];
    simpl; by rewrite H.
Qed.

Lemma deletePrefix_nil is_root n : deletePrefix is_root n [] = Some Exhausted.
Proof. by simp deletePrefix. Qed.

Lemma deletePrefix_cons is_root (current : node T) l p :
  deletePrefix is_root current (l :: p) =
    match getEdge current l with
    | None => Some NoMatch
    | Some child =>
        if negb (HasPrefix (prefix child) (l :: p))
           && negb (HasPrefix (l :: p) (prefix child))
        then Some NoMatch
        else
          let rest :=
            if decide (length (l :: p) < length (prefix child))
            then drop (length (l :: p)) (l :: p)
            else drop (length (prefix child)) (l :: p) in
          r ← deletePrefix false child rest;
          match r with
          | NoMatch => Some NoMatch
          | Exhausted =>
              current' ← cut_block is_root current l child;
              Some (Under current' (subTreeSize child))
          | Under child' k => Some (Under (putChild current l child') k)
          end
    end.
Proof.
  simp deletePrefix. destruct (inspect (getEdge current l)) as [[child|] H];
    simpl; by rewrite H.
Qed.

Lemma LongestPrefix_loop_nil last n :
  LongestPrefix_loop last n [] = seen last n.
Proof. by simp LongestPrefix_loop. Qed.

Lemma LongestPrefix_loop_cons last n l s :
  LongestPrefix_loop last n (l :: s) =
    match getEdge n l with
    | None => seen last n
    | Some child =>
        if HasPrefix (l :: s) (prefix child)
        then LongestPrefix_loop (seen last n) child
               (drop (length (prefix child)) (l :: s))
        else seen last n
    end.
Proof.
  simp LongestPrefix_loop. destruct (inspect (getEdge n l)) as [[child|] H];
    simpl; by rewrite H.
Qed.

Lemma Minimum_loop_step n :
  Minimum_loop zero n =
    match leaf n with
    | Some lf => (lkey lf, val lf, true)
    | None =>
        match edges n !! 0 with
        | Some e => Minimum_loop zero (enode e)
        | None => ([], zero, false)
        end
    end.
Proof.
  simp Minimum_loop. destruct (leaf n); simpl; [done|].
  destruct (inspect (edges n !! 0)) as [[e|] H]; simpl; by rewrite H.
Qed.

Lemma Maximum_loop_step n :
  Maximum_loop zero n =
    match edges n !! (length (edges n) - 1) with
    | Some e => Maximum_loop zero (enode e)
    | None =>
        match leaf n with
        | Some lf => (lkey lf, val lf, true)
        | None => ([], zero, false)
        end
    end.
Proof.
  simp Maximum_loop.
  destruct (inspect (edges n !! (length (edges n) - 1))) as [[e|] H]; simpl.
  - by rewrite H.
  - destruct (leaf n); simpl; by rewrite H.
Qed.

End Unfold.

(** ** The structural invariant *)

Section Invariant.
Context {T : Type}.
Implicit Types (n c : node T) (e : edge_ (node T)) (es : list (edge_ (node T))).
Implicit Types (l : byte) (s p path : key) (lf : leafNode T).

Lemma wf_leaf path n lf : wf_node path n → leaf n = Some lf → lkey lf = path.
Proof. intros [] ?; auto. Qed.

Lemma wf_sorted path n : wf_node path n → sorted (edges n).
Proof. by intros []. Qed.

Lemma wf_edge path n e :
  wf_node path n → e ∈ edges n →
  head (prefix (enode e)) = Some (label e) ∧
  wf_node (path ++ prefix (enode e)) (enode e).
Proof. intros [] ?; auto. Qed.

Lemma wf_getEdge path n l c :
  wf_node path n → getEdge n l = Some c →
  head (prefix c) = Some l ∧ wf_node (path ++ prefix c) c.
Proof. intros Hwf Hg%getEdge_elem. apply (wf_edge _ _ _ Hwf Hg). Qed.

Lemma wf_set_prefix path n p : wf_node path n → wf_node path (set_prefix n p).
Proof. intros []. by constructor. Qed.

Lemma wf_leaf_only path p (v : T) :
  wf_node path (mkNode (Some (mkLeaf path v)) p []).
Proof.
  constructor; simpl.
  - by intros lf [= <-].
  - constructor.
  - by intros e ?%elem_of_nil.
Qed.

Lemma wf_set_leaf path n x :
  wf_node path n → (∀ lf, x = Some lf → lkey lf = path) →
  wf_node path (set_leaf n x).
Proof. intros [] ?. by constructor. Qed.

Lemma wf_empty path p : wf_node path (mkNode (T:=T) None p []).
Proof.
  constructor; simpl; [done|constructor|]. by intros e ?%elem_of_nil.
Qed.

Lemma wf_addEdge path n e :
  wf_node path n → getEdge n (label e) = None →
  head (prefix (enode e)) = Some (label e) →
  wf_node (path ++ prefix (enode e)) (enode e) →
  wf_node path (addEdge n e).
Proof.
  intros Hwf Hn Hh He. constructor.
  - intros lf. apply (wf_leaf _ _ _ Hwf).
  - apply addEdge_sorted; [by eapply wf_sorted|done].
  - intros e' [->|Hin]%addEdge_elem; [done|]. by eapply wf_edge.
Qed.

Lemma wf_putChild path n l c0 c :
  wf_node path n → getEdge n l = Some c0 →
  head (prefix c) = Some l → wf_node (path ++ prefix c) c →
  wf_node path (putChild n l c).
Proof.
  intros Hwf Hg Hh Hc. pose proof (wf_sorted _ _ Hwf) as Hs. constructor.
  - intros lf. apply (wf_leaf _ _ _ Hwf).
  - by eapply putChild_sorted.
  - intros e [->|[Hin _]]%(putChild_elem n l c0); [done|by eapply wf_edge|..];
      done.
Qed.

Lemma wf_delEdge path n l c0 :
  wf_node path n → getEdge n l = Some c0 → wf_node path (delEdge n l).
Proof.
  intros Hwf Hg. pose proof (wf_sorted _ _ Hwf) as Hs. constructor.
  - intros lf. rewrite delEdge_leaf. apply (wf_leaf _ _ _ Hwf).
  - by eapply delEdge_sorted.
  - intros e [Hin _]%(delEdge_elem n l c0); [by eapply wf_edge|done..].
Qed.

(** ** The descent after a local change *)

Lemma find_leaf_ext n n' s :
  leaf n = leaf n' → (∀ l, getEdge n l = getEdge n' l) →
  find_leaf n s = find_leaf n' s.
Proof.
  intros Hl Hg. destruct s as [|l s].
  - by rewrite !find_leaf_nil.
  - by rewrite !find_leaf_cons, Hg.
Qed.

Lemma find_leaf_set_prefix n p s : find_leaf (set_prefix n p) s = find_leaf n s.
Proof. by apply find_leaf_ext. Qed.

Lemma find_leaf_set_leaf n x s :
  find_leaf (set_leaf n x) s = match s with [] => x | _ => find_leaf n s end.
Proof.
  destruct s as [|l s]; [by rewrite find_leaf_nil|].
  by rewrite !find_leaf_cons.
Qed.

Lemma find_leaf_no_edges n s :
  edges n = [] → find_leaf n s = match s with [] => leaf n | _ => None end.
Proof.
  intros He. destruct s as [|l s]; [by rewrite find_leaf_nil|].
  by rewrite find_leaf_cons, getEdge_nil.
Qed.

Lemma find_leaf_addEdge n e s :
  sorted (edges n) → getEdge n (label e) = None →
  find_leaf (addEdge n e) s =
    match s with
    | [] => leaf n
    | l :: _ => if decide (l = label e) then find_at (enode e) s
                else find_leaf n s
    end.
Proof.
  intros Hs Hn. destruct s as [|l s]; [by rewrite find_leaf_nil|].
  rewrite !find_leaf_cons, getEdge_addEdge by done. by destruct (decide _).
Qed.

Lemma find_leaf_putChild n l c0 c s :
  sorted (edges n) → getEdge n l = Some c0 →
  find_leaf (putChild n l c) s =
    match s with
    | [] => leaf n
    | l' :: _ => if decide (l' = l) then find_at c s else find_leaf n s
    end.
Proof.
  intros Hs Hg. destruct s as [|l' s]; [by rewrite find_leaf_nil|].
  rewrite !find_leaf_cons, (getEdge_putChild n l c0) by done.
  by destruct (decide _).
Qed.

Lemma find_leaf_delEdge n l c0 s :
  sorted (edges n) → getEdge n l = Some c0 →
  find_leaf (delEdge n l) s =
    match s with
    | [] => leaf n
    | l' :: _ => if decide (l' = l) then None else find_leaf n s
    end.
Proof.
  intros Hs Hg. destruct s as [|l' s].
  - by rewrite !find_leaf_nil, delEdge_leaf.
  - rewrite !find_leaf_cons, (getEdge_delEdge n l c0) by done.
    by destruct (decide _).
Qed.

Lemma find_leaf_getEdge n l c s :
  getEdge n l = Some c → find_leaf n (l :: s) = find_at c (l :: s).
Proof. intros Hg. by rewrite find_leaf_cons, Hg. Qed.

(** A search text that does not start with the first byte of the child's
    prefix does not enter the child. *)
Lemma find_at_head c l s :
  head (prefix c) = Some l → head s ≠ Some l → find_at c s = None.
Proof.
  intros Hh Hs. unfold find_at.
  destruct (HasPrefix s (prefix c)) eqn:Hp; [|done].
  apply HasPrefix_spec in Hp as [r ->].
  destruct (prefix c); simpl in *; [done|]. congruence.
Qed.

Lemma find_at_split c p1 p2 s :
  prefix c = p1 ++ p2 →
  find_at c s =
    if HasPrefix s p1 then find_at (set_prefix c p2) (drop (length p1) s)
    else None.
Proof.
  intros Hp. unfold find_at at 1. rewrite Hp.
  destruct (HasPrefix s p1) eqn:H1.
  - apply HasPrefix_spec in H1 as [r ->]. rewrite drop_app_length.
    unfold find_at; simpl. destruct (HasPrefix r p2) eqn:H2.
    + apply HasPrefix_spec in H2 as [r' ->].
      rewrite !(assoc (++) p1 p2 r'), HasPrefix_app, !drop_app_length.
      by rewrite find_leaf_set_prefix.
    + replace (HasPrefix (p1 ++ r) (p1 ++ p2)) with false; [done|].
      symmetry. apply HasPrefix_false. intros ?%prefix_app_inv.
      by apply HasPrefix_false in H2.
  - replace (HasPrefix s (p1 ++ p2)) with false; [done|].
    symmetry. apply HasPrefix_false. intros Hpre.
    apply HasPrefix_false in H1. apply H1.
    etrans; [|done]. by apply prefix_app_r.
Qed.

Lemma find_at_leaf_only lf p s :
  find_at (mkNode (Some lf) p []) s = if decide (s = p) then Some lf else None.
Proof.
  unfold find_at; simpl. destruct (HasPrefix s p) eqn:Hp.
  - apply HasPrefix_spec in Hp as [r ->]. rewrite drop_app_length.
    rewrite find_leaf_no_edges by done; simpl.
    destruct r; [by rewrite (right_id_L [] (++)), decide_True|].
    rewrite decide_False; [done|]. intros H%(f_equal length).
    rewrite length_app in H; simpl in H; lia.
  - rewrite decide_False; [done|]. intros ->.
    apply HasPrefix_false in Hp. by destruct Hp.
Qed.

(** Merging a leafless node with its only child keeps what is found
    through it. *)
Lemma mergeChild_find n e :
  leaf n = None → edges n = [e] → head (prefix (enode e)) = Some (label e) →
  ∃ n', mergeChild n = Some n' ∧
    prefix n' = prefix n ++ prefix (enode e) ∧
    leaf n' = leaf (enode e) ∧ edges n' = edges (enode e) ∧
    ∀ s, find_at n' s = find_at n s.
Proof.
  intros Hl He Hh. unfold mergeChild. rewrite He; simpl.
  eexists; split_and!; [done..|]. intros s.
  rewrite (find_at_split _ (prefix n) (prefix (enode e))) by done.
  unfold find_at at 2. destruct (HasPrefix s (prefix n)); [|done].
  set (r := drop _ s).
  assert (Heq : set_prefix (mkNode (leaf (enode e))
            (prefix n ++ prefix (enode e)) (edges (enode e)))
            (prefix (enode e)) = enode e) by (by destruct (enode e)).
  rewrite Heq. destruct r as [|l r].
  - rewrite find_leaf_nil, Hl.
    by apply (find_at_head _ (label e)).
  - rewrite find_leaf_cons, (getEdge_singleton n e) by done.
    destruct (decide _) as [->|Hne]; [done|]. simpl.
    apply (find_at_head _ (label e)); [done|]. simpl. congruence.
Qed.

Lemma wf_mergeChild path n e n' :
  edges n = [e] → wf_node (path ++ prefix n) n → mergeChild n = Some n' →
  wf_node (path ++ prefix n') n'.
Proof.
  intros He Hwf. unfold mergeChild. rewrite He; simpl. intros [= <-]; simpl.
  destruct (wf_edge _ _ e Hwf) as [_ Hc]; [rewrite He; left|].
  rewrite <- (assoc (++)) in Hc. inversion Hc; subst. by constructor.
Qed.

End Invariant.

(** ** The stored pairs, in walking order *)

Section Entries.
Context {T : Type}.
Implicit Types (n cur parent : node T) (e : edge_ (node T)).
Implicit Types (es : list (edge_ (node T))).
Implicit Types (l b : byte) (s p path pre : key) (lf : leafNode T).

Lemma entries_unfold n : entries n = leaf_entry (leaf n) ++ entries_of (edges n).
Proof. by destruct n. Qed.

Lemma entries_of_nil : entries_of (T:=T) [] = [].
Proof. done. Qed.

Lemma entries_of_cons e es :
  entries_of (e :: es) = entries (enode e) ++ entries_of es.
Proof. done. Qed.

Lemma entries_of_app es1 es2 :
  entries_of (es1 ++ es2) = entries_of es1 ++ entries_of es2.
Proof. unfold entries_of. by rewrite map_app, concat_app. Qed.

Lemma elem_of_entries_of es kv :
  kv ∈ entries_of es ↔ ∃ e, e ∈ es ∧ kv ∈ entries (enode e).
Proof.
  induction es as [|e es IH].
  - rewrite entries_of_nil. split; [by intros ?%elem_of_nil|].
    by intros (? & ?%elem_of_nil & _).
  - rewrite entries_of_cons, elem_of_app, IH. split.
    + intros [?|(e' & ? & ?)]; [exists e|exists e']; split; auto; by constructor.
    + intros (e' & [->|?]%elem_of_cons & ?); eauto.
Qed.

Lemma count_unfold n :
  count n = (Z.of_nat (length (leaf_entry (leaf n))) + count_of (edges n))%Z.
Proof. unfold count, count_of. rewrite entries_unfold, length_app. lia. Qed.

Lemma count_of_app es1 es2 :
  count_of (es1 ++ es2) = (count_of es1 + count_of es2)%Z.
Proof. unfold count_of. rewrite entries_of_app, length_app. lia. Qed.

Lemma count_of_cons e es : count_of (e :: es) = (count (enode e) + count_of es)%Z.
Proof. unfold count_of, count. rewrite entries_of_cons, length_app. lia. Qed.

Lemma count_set_prefix n p : count (set_prefix n p) = count n.
Proof. by rewrite !count_unfold. Qed.

Lemma count_set_leaf n x :
  count (set_leaf n x) =
    (count n - Z.of_nat (length (leaf_entry (leaf n)))
     + Z.of_nat (length (leaf_entry x)))%Z.
Proof.
  rewrite !count_unfold. change (edges (set_leaf n x)) with (edges n).
  change (leaf (set_leaf n x)) with x.
  generalize (count_of (edges n)) (length (leaf_entry x))
    (length (leaf_entry (leaf n))). intros; lia.
Qed.

Lemma count_addEdge n e : count (addEdge n e) = (count n + count (enode e))%Z.
Proof.
  rewrite (count_unfold (addEdge n e)), (count_unfold n); simpl.
  rewrite <- (take_drop (searchLabel n (label e)) (edges n)) at 3.
  rewrite !count_of_app, count_of_cons. lia.
Qed.

Lemma count_putChild n l c0 c :
  getEdge n l = Some c0 →
  (count (putChild n l c) + count c0 = count n + count c)%Z.
Proof.
  intros Hg. rewrite (count_unfold (putChild n l c)), (count_unfold n).
  rewrite (putChild_edges n l c0 c Hg).
  rewrite (getEdge_split n l c0 Hg) at 3.
  rewrite !count_of_app, !count_of_cons; simpl. lia.
Qed.

Lemma count_delEdge n l c0 :
  getEdge n l = Some c0 → (count (delEdge n l) + count c0 = count n)%Z.
Proof.
  intros Hg. rewrite (count_unfold (delEdge n l)), (count_unfold n).
  rewrite (delEdge_edges n l c0 Hg), delEdge_leaf.
  rewrite (getEdge_split n l c0 Hg) at 3.
  rewrite !count_of_app, !count_of_cons; simpl. lia.
Qed.

Lemma count_mergeChild n n' :
  leaf n = None → length (edges n) = 1 → mergeChild n = Some n' →
  count n' = count n.
Proof.
  intros Hl Hlen. unfold mergeChild.
  destruct (edges n) as [|e [|??]] eqn:He; simpl in *; try lia.
  intros [= <-]. rewrite (count_unfold n), Hl, He, count_of_cons.
  rewrite (count_unfold (mkNode _ _ _)), (count_unfold (enode e)); simpl.
  unfold count_of at 3. simpl. lia.
Qed.

Lemma count_leaf_only lf p : count (mkNode (Some lf) p []) = 1%Z.
Proof. done. Qed.

Lemma count_nonneg n : (0 ≤ count n)%Z.
Proof. unfold count. lia. Qed.

(** *** Walking visits the entries in order *)

Lemma visit_app {S : Type} (fn : key → T → S → bool * S) kvs1 kvs2 st :
  visit fn (kvs1 ++ kvs2) st =
    let '(stop, st') := visit fn kvs1 st in
    if stop then (true, st') else visit fn kvs2 st'.
Proof.
  revert st. induction kvs1 as [|[k v] kvs1 IH]; intros st; simpl; [done|].
  destruct (fn k v st) as [[] st']; [done|]. apply IH.
Qed.

Lemma recursiveWalk_visit {S : Type} n (fn : key → T → S → bool * S) st :
  recursiveWalk n fn st = visit fn (entries n) st.
Proof.
  revert st. induction n as [n IH] using node_ind_size. intros st.
  rewrite entries_unfold.
  assert (Hch : ∀ es st, (∀ e, e ∈ es → e ∈ edges n) →
    (fix children (es : list (edge_ (node T))) (st : S) {struct es} : bool * S :=
       match es with
       | [] => (false, st)
       | e :: es' =>
           let '(stop, st) := recursiveWalk (enode e) fn st in
           if stop then (true, st) else children es' st
       end) es st = visit fn (entries_of es) st).
  { intros es. induction es as [|e es IHes]; intros st' Hin; [done|].
    rewrite entries_of_cons, visit_app.
    rewrite IH by (apply child_size, Hin; left).
    destruct (visit fn (entries (enode e)) st') as [[] st'']; [done|].
    apply IHes. intros e' ?. apply Hin. by right. }
  destruct n as [[lf|] p es]; simpl in *.
  - destruct (fn (lkey lf) (val lf) st) as [[] st']; [done|]. by apply Hch.
  - by apply Hch.
Qed.

Lemma subTreeSize_count n : subTreeSize n = count n.
Proof.
  unfold subTreeSize, count. rewrite recursiveWalk_visit.
  assert (∀ kvs k, (visit (T:=T) (λ _ _ (k : Z), (false, (k + 1)%Z)) kvs k).2
                   = (k + Z.of_nat (length kvs))%Z) as H.
  { induction kvs as [|[??] kvs IH]; intros k; simpl; [lia|]. rewrite IH. lia. }
  by rewrite H.
Qed.

End Entries.

(** ** Insert *)

Section InsertSpec.
Context {T : Type} (zero : T).
Implicit Types (n : node T) (e : edge_ (node T)).
Implicit Types (l b : byte) (s p path pre : key) (lf : leafNode T).

Local Ltac split6 := split; [|split; [|split; [|split; [|split]]]].

Lemma addEdge_empty (lf : option (leafNode T)) p e :
  addEdge (mkNode lf p []) e = mkNode lf p [e].
Proof. unfold addEdge, set_edges; simpl. by rewrite take_nil, drop_nil. Qed.

Lemma split_child_spec (cur : node T) l s pre value :
  let search := l :: s in
  let common := longestPrefix search (prefix cur) in
  common ≠ length (prefix cur) →
  head (prefix cur) = Some l →
  wf_node (pre ++ prefix cur) cur →
  ∃ b, prefix cur !! common = Some b ∧
    let X := split_child cur search (pre ++ search) value b in
    head (prefix X) = Some l ∧
    wf_node (pre ++ prefix X) X ∧
    count X = (count cur + 1)%Z ∧
    ∀ s', find_at X s' =
      if decide (s' = search) then Some (mkLeaf (pre ++ search) value)
      else find_at cur s'.
Proof.
  intros search common Hne Hh Hwf.
  pose proof (longestPrefix_le_l search (prefix cur)) as Hle1.
  pose proof (longestPrefix_le_r search (prefix cur)) as Hle2.
  pose proof (longestPrefix_take search (prefix cur)) as Htake.
  assert (0 < common) as Hpos by (by apply (longestPrefix_head _ _ l)).
  fold common in Hle1, Hle2, Htake.
  destruct (lookup_lt_is_Some_2 (prefix cur) common) as [b Hb]; [lia|].
  exists b. split; [done|]. intros X.
  set (cp := take common search) in *.
  set (pc2 := drop common (prefix cur)).
  set (rest := drop common search).
  assert (Hpc : prefix cur = cp ++ pc2) by (by rewrite Htake; unfold pc2; rewrite take_drop).
  assert (Hsearch : search = cp ++ rest) by (by unfold cp, rest; rewrite take_drop).
  assert (Hlen : length cp = common) by (unfold cp; rewrite length_take; lia).
  assert (Hpc2 : head pc2 = Some b).
  { unfold pc2. by rewrite (drop_S _ _ _ Hb). }
  assert (Hcp : head cp = Some l).
  { unfold cp, search. destruct common; [lia|done]. }
  set (cur2 := set_prefix cur pc2).
  set (X1 := mkNode None cp [mkEdge b cur2]).
  assert (HX : X = match rest with
                   | [] => set_leaf X1 (Some (mkLeaf (pre ++ search) value))
                   | c' :: s' => addEdge X1 (mkEdge c'
                       (mkNode (Some (mkLeaf (pre ++ search) value)) (c' :: s') []))
                   end).
  { unfold X, split_child. fold common cp pc2 rest cur2.
    by rewrite addEdge_empty. }
  assert (HpX : prefix X = cp).
  { rewrite HX. by destruct rest. }
  assert (Hwf1 : wf_node (pre ++ cp) X1).
  { constructor; simpl; [done|repeat constructor|].
    intros e ->%list_elem_of_singleton; simpl. split; [done|].
    rewrite <- (assoc (++)), <- Hpc. by apply wf_set_prefix. }
  assert (Hfind1 : ∀ t, find_leaf X1 t = find_at cur2 t).
  { intros [|l' t].
    - rewrite find_leaf_nil. symmetry. by apply (find_at_head _ b).
    - rewrite find_leaf_cons, (getEdge_singleton X1 (mkEdge b cur2)) by done.
      simpl. destruct (decide _) as [->|Hnb]; [done|]. symmetry.
      apply (find_at_head _ b); [done|]. simpl; congruence. }
  assert (Hrest : ∀ c' s', rest = c' :: s' → c' ≠ b).
  { intros c' s' Hr. apply (longestPrefix_differ search (prefix cur)); [|done].
    fold common. rewrite <- (Nat.add_0_r common), <- lookup_drop.
    fold rest. by rewrite Hr. }
  assert (HfindX : ∀ t, find_leaf X t =
     if decide (t = rest) then Some (mkLeaf (pre ++ search) value)
     else find_at cur2 t).
  { intros t. rewrite HX. destruct rest as [|c' s'] eqn:Hr.
    - rewrite find_leaf_set_leaf. destruct t; [by rewrite decide_True|].
      rewrite decide_False by done. apply Hfind1.
    - pose proof (Hrest c' s' eq_refl) as Hcb.
      rewrite find_leaf_addEdge; simpl.
      + destruct t as [|l' t].
        { rewrite decide_False by done. symmetry. by apply (find_at_head _ b). }
        destruct (decide (l' = c')) as [->|Hnc].
        * rewrite find_at_leaf_only. destruct (decide _); [done|].
          symmetry. apply (find_at_head _ b); [done|]. simpl; congruence.
        * rewrite decide_False by congruence. apply Hfind1.
      + repeat constructor.
      + rewrite (getEdge_singleton X1 (mkEdge b cur2)) by done.
        simpl. by rewrite decide_False. }
  assert (Hcount1 : count X1 = count cur).
  { unfold X1. rewrite count_unfold. cbn [leaf edges leaf_entry length].
    rewrite count_of_cons. cbn [enode]. unfold cur2.
    rewrite count_set_prefix. unfold count_of; simpl. lia. }
  split_and!.
  - by rewrite HpX.
  - rewrite HpX, HX. destruct rest as [|c' s'] eqn:Hr.
    + apply wf_set_leaf; [done|]. intros lf [= <-]; simpl.
      by rewrite Hsearch, (right_id_L [] (++)).
    + apply wf_addEdge; simpl; [done| |done|].
      * rewrite (getEdge_singleton X1 (mkEdge b cur2)) by done.
        simpl. rewrite decide_False; [done|]. by eapply Hrest.
      * rewrite <- (assoc (++)), <- Hsearch. apply wf_leaf_only.
  - rewrite HX. destruct rest as [|c' s'].
    + rewrite count_set_leaf, Hcount1. simpl. lia.
    + rewrite count_addEdge, Hcount1. simpl. by rewrite count_leaf_only.
  - intros s'. unfold find_at at 1. rewrite HpX.
    rewrite (find_at_split cur cp pc2) by done.
    destruct (HasPrefix s' cp) eqn:Hp.
    + apply HasPrefix_spec in Hp as [t ->]. rewrite drop_app_length.
      rewrite HfindX, Hsearch.
      destruct (decide (t = rest)) as [->|Hnt].
      * by rewrite decide_True.
      * rewrite decide_False; [done|]. by intros ?%app_inv_head.
    + rewrite decide_False; [done|]. intros ->.
      apply HasPrefix_false in Hp. apply Hp. rewrite Hsearch.
      by apply prefix_app_r.
Qed.

Local Arguments longestPrefix : simpl never.
Local Arguments split_child : simpl never.

Lemma Insert_loop_spec n : ∀ pre (search : key) (value : T) (sz : Z),
  wf_node pre n →
  ∃ n' existing (updated : bool),
    Insert_loop zero (pre ++ search) value sz n search
      = Some (n', (if updated then sz else sz + 1)%Z, existing, updated) ∧
    wf_node pre n' ∧ prefix n' = prefix n ∧
    count n' = (count n + (if updated then 0 else 1))%Z ∧
    (∀ s', find_leaf n' s' =
       if decide (s' = search) then Some (mkLeaf (pre ++ search) value)
       else find_leaf n s') ∧
    match find_leaf n search with
    | Some lf => existing = val lf ∧ updated = true
    | None => existing = zero ∧ updated = false
    end.
Proof.
  induction n as [n IH] using node_ind_size.
  intros pre [|l s] value sz Hwf.
  - rewrite Insert_loop_nil, find_leaf_nil, (right_id_L [] (++)).
    destruct (leaf n) as [lf|] eqn:Hl.
    + pose proof (wf_leaf _ _ _ Hwf Hl) as Hk.
      eexists _, _, true. split6; [done| |done| | |done].
      * apply wf_set_leaf; [done|]. by intros ? [= <-].
      * rewrite count_set_leaf, Hl. simpl. lia.
      * intros s'. rewrite find_leaf_set_leaf, Hk.
        destruct s'; [by rewrite decide_True|by rewrite decide_False].
    + eexists _, _, false. split6; [done| |done| | |done].
      * apply wf_set_leaf; [done|]. by intros ? [= <-].
      * rewrite count_set_leaf, Hl. simpl. lia.
      * intros s'. rewrite find_leaf_set_leaf.
        destruct s'; [by rewrite decide_True|by rewrite decide_False].
  - pose proof (wf_sorted _ _ Hwf) as Hs.
    rewrite Insert_loop_cons, find_leaf_cons.
    destruct (getEdge n l) as [cur|] eqn:Hg; simpl.
    + destruct (wf_getEdge _ _ _ _ Hwf Hg) as [Hh Hc].
      destruct (decide _) as [Hfull|Hpart].
      * rewrite Hfull. apply longestPrefix_full in Hfull as [rest Hrest].
        assert (Hdrop : drop (length (prefix cur)) (l :: s) = rest)
          by (by rewrite Hrest, drop_app_length).
        assert (Hfa : find_at cur (l :: s) = find_leaf cur rest)
          by (by rewrite Hrest, find_at_app).
        assert (Hpath : pre ++ l :: s = (pre ++ prefix cur) ++ rest)
          by (by rewrite Hrest, (assoc (++))).
        rewrite Hdrop, Hfa.
        destruct (IH cur (getEdge_size _ _ _ _ Hg) (pre ++ prefix cur) rest
                    value sz Hc)
          as (cur' & ex & up & Heq & Hwf' & Hp' & Hcnt' & Hfind' & Hres).
        rewrite <- Hpath in Heq, Hfind'. rewrite Heq; simpl.
        eexists _, ex, up. split6; [done| |done| | |done].
        -- apply (wf_putChild _ _ _ cur); [done|done|by rewrite Hp'|by rewrite Hp'].
        -- pose proof (count_putChild n l cur cur' Hg). lia.
        -- intros s'. rewrite (find_leaf_putChild n l cur) by done.
           destruct s' as [|l' s']; [by rewrite decide_False, find_leaf_nil|].
           destruct (decide (l' = l)) as [->|Hnl].
           ++ rewrite (find_leaf_getEdge n l cur) by done.
              unfold find_at. rewrite Hp'.
              destruct (HasPrefix (l :: s') (prefix cur)) eqn:Hpre.
              ** apply HasPrefix_spec in Hpre as [r' Hr'].
                 rewrite Hr', drop_app_length, Hfind'.
                 destruct (decide (r' = rest)) as [->|Hnr].
                 --- by rewrite decide_True.
                 --- rewrite decide_False; [done|]. rewrite Hrest.
                     by intros ?%app_inv_head.
              ** rewrite decide_False; [done|]. intros Heq'.
                 apply HasPrefix_false in Hpre. apply Hpre.
                 rewrite Heq', Hrest. by apply prefix_app_r.
           ++ rewrite decide_False; [done|]. congruence.
      * destruct (split_child_spec cur l s pre value Hpart Hh Hc)
          as (b & Hb & HhX & HwfX & HcntX & HfindX).
        rewrite Hb; simpl.
        rewrite (updateEdge_putChild n l cur) by done; simpl.
        eexists _, zero, false. split6; [done| |done| | |].
        -- by apply (wf_putChild _ _ _ cur).
        -- pose proof (count_putChild n l cur
             (split_child cur (l :: s) (pre ++ l :: s) value b) Hg) as Hc'.
           rewrite HcntX in Hc'. lia.
        -- intros s'. rewrite (find_leaf_putChild n l cur) by done.
           destruct s' as [|l' s']; [by rewrite decide_False, find_leaf_nil|].
           destruct (decide (l' = l)) as [->|Hnl].
           ++ by rewrite HfindX, (find_leaf_getEdge n l cur).
           ++ rewrite decide_False; [done|]. congruence.
        -- unfold find_at.
           replace (HasPrefix (l :: s) (prefix cur)) with false; [done|].
           symmetry. apply HasPrefix_false. by intros ?%longestPrefix_full.
    + eexists _, zero, false. split6; [done| |done| | |done].
      * apply wf_addEdge; simpl; [done..|]. apply wf_leaf_only.
      * by rewrite count_addEdge.
      * intros s'. rewrite find_leaf_addEdge by done; simpl.
        destruct s' as [|l' s']; [by rewrite decide_False, find_leaf_nil|].
        rewrite find_at_leaf_only.
        destruct (decide (l' = l)) as [->|Hnl].
        -- destruct (decide _); [done|].
           by rewrite find_leaf_cons, Hg.
        -- rewrite decide_False; [done|]. congruence.
Qed.

End InsertSpec.

(** ** Delete *)

Section DeleteSpec.
Context {T : Type}.
Implicit Types (n cur parent : node T) (e : edge_ (node T)).
Implicit Types (l b : byte) (s p path pre : key) (lf : leafNode T).

(** A change of what is found at a node, seen from just above the node. *)
Lemma find_at_lift (P P' : key → Prop) `{!∀ t, Decision (P t)}
    `{!∀ t, Decision (P' t)} n n' (X : option (leafNode T)) :
  prefix n' = prefix n →
  (∀ t, P' (prefix n ++ t) ↔ P t) →
  (∀ s, P' s → prefix n `prefix_of` s) →
  (∀ t, find_leaf n' t = if decide (P t) then X else find_leaf n t) →
  ∀ s, find_at n' s = if decide (P' s) then X else find_at n s.
Proof.
  intros Hp HP Hpre Hfind s. unfold find_at. rewrite Hp.
  destruct (HasPrefix s (prefix n)) eqn:Hs.
  - apply HasPrefix_spec in Hs as [t ->]. rewrite drop_app_length, Hfind.
    destruct (decide (P t)) as [Ht|Ht].
    + rewrite decide_True; [done|]. by apply HP.
    + rewrite decide_False; [done|]. by rewrite HP.
  - rewrite decide_False; [done|]. intros HP'%Hpre.
    by apply HasPrefix_false in Hs.
Qed.

Lemma find_at_lift_eq n n' k (X : option (leafNode T)) :
  prefix n' = prefix n →
  (∀ t, find_leaf n' t = if decide (t = k) then X else find_leaf n t) →
  ∀ s, find_at n' s = if decide (s = prefix n ++ k) then X else find_at n s.
Proof.
  intros Hp Hfind.
  apply (find_at_lift (λ t, t = k) (λ s, s = prefix n ++ k)); [done| | |done].
  - intros t. split; [by intros ?%app_inv_head|by intros ->].
  - intros s ->. by apply prefix_app_r.
Qed.

Lemma head_app_Some {A} (p q : list A) x : head p = Some x → head (p ++ q) = Some x.
Proof. by destruct p. Qed.

(** The second merge of the DELETE block, also run by [deletePrefix]. *)
Lemma merge_parent_spec is_root parent pre0 :
  wf_node (pre0 ++ prefix parent) parent →
  ∃ parent' q,
    (if negb is_root && bool_decide (length (edges parent) = 1)
        && negb (isLeaf parent)
     then mergeChild parent else Some parent) = Some parent' ∧
    prefix parent' = prefix parent ++ q ∧ (is_root = true → q = []) ∧
    wf_node (pre0 ++ prefix parent') parent' ∧
    count parent' = count parent ∧
    ∀ s, find_at parent' s = find_at parent s.
Proof.
  intros Hwf.
  destruct (negb is_root && bool_decide (length (edges parent) = 1)
            && negb (isLeaf parent)) eqn:Hcond.
  - apply andb_true_iff in Hcond as [[Hr Hlen]%andb_true_iff Hleaf].
    apply bool_decide_eq_true in Hlen.
    destruct (edges parent) as [|e [|??]] eqn:He; simpl in Hlen; try lia.
    assert (leaf parent = None) as Hl.
    { unfold isLeaf in Hleaf. apply negb_true_iff, bool_decide_eq_false in Hleaf.
      destruct (leaf parent); [|done]. by destruct Hleaf. }
    destruct (wf_edge _ _ e Hwf) as [Hh _]; [rewrite He; left|].
    destruct (mergeChild_find parent e Hl He Hh)
      as (n' & Hm & Hp & _ & _ & Hfind).
    exists n', (prefix (enode e)).
    split_and!; [done|done| |by eapply wf_mergeChild| |done].
    + intros ->. done.
    + apply (count_mergeChild parent); [done|by rewrite He|done].
  - exists parent, []. rewrite (right_id_L [] (++)). done.
Qed.

Lemma delete_block_spec is_root parent l cur lf pre0 :
  wf_node (pre0 ++ prefix parent) parent →
  getEdge parent l = Some cur → leaf cur = Some lf →
  ∃ parent' q,
    delete_block is_root parent l cur = Some parent' ∧
    prefix parent' = prefix parent ++ q ∧ (is_root = true → q = []) ∧
    wf_node (pre0 ++ prefix parent') parent' ∧
    (count parent' + 1 = count parent)%Z ∧
    ∀ s, find_at parent' s =
      if decide (s = prefix parent ++ prefix cur) then None
      else find_at parent s.
Proof.
  intros Hwf Hg Hl. pose proof (wf_sorted _ _ Hwf) as Hs.
  destruct (wf_getEdge _ _ _ _ Hwf Hg) as [Hh Hc].
  unfold delete_block.
  set (cur1 := set_leaf cur None).
  assert (∃ parent1,
    (if decide (length (edges cur1) = 0) then Some (delEdge parent l)
     else (if decide (length (edges cur1) = 1) then mergeChild cur1
           else Some cur1) ≫= λ c, Some (putChild parent l c)) = Some parent1 ∧
    prefix parent1 = prefix parent ∧
    wf_node (pre0 ++ prefix parent) parent1 ∧
    (count parent1 + 1 = count parent)%Z ∧
    ∀ t, find_leaf parent1 t =
      if decide (t = prefix cur) then None else find_leaf parent t)
    as (parent1 & -> & Hp1 & Hwf1 & Hcnt1 & Hfind1).
  { destruct (decide (length (edges cur1) = 0)) as [Hlen|Hlen].
    - exists (delEdge parent l). split_and!; [done|apply delEdge_prefix| | |].
      + by apply (wf_delEdge _ _ _ cur).
      + pose proof (count_delEdge parent l cur Hg) as Hc'.
        rewrite (count_unfold cur), Hl in Hc'.
        change (edges cur1) with (edges cur) in Hlen.
        apply nil_length_inv in Hlen. rewrite Hlen in Hc'.
        unfold count_of in Hc'. simpl in Hc'. lia.
      + intros t. rewrite (find_leaf_delEdge parent l cur) by done.
        destruct t as [|l' t].
        { rewrite decide_False, find_leaf_nil; [done|]. by destruct (prefix cur). }
        destruct (decide (l' = l)) as [->|Hnl].
        * destruct (decide _); [done|]. symmetry.
          rewrite (find_leaf_getEdge parent l cur) by done.
          unfold find_at.
          destruct (HasPrefix (l :: t) (prefix cur)) eqn:Hpre; [|done].
          apply HasPrefix_spec in Hpre as [r Hr].
          rewrite Hr, drop_app_length, find_leaf_no_edges
            by (by apply nil_length_inv).
          destruct r; [|done]. by rewrite (right_id_L [] (++)) in Hr.
        * rewrite decide_False; [done|]. intros Heq.
          rewrite <- Heq in Hh. simpl in Hh. congruence.
    - assert (∃ cur2 q,
        (if decide (length (edges cur1) = 1) then mergeChild cur1
         else Some cur1) = Some cur2 ∧
        prefix cur2 = prefix cur ++ q ∧
        wf_node ((pre0 ++ prefix parent) ++ prefix cur2) cur2 ∧
        count cur2 = count cur1 ∧
        ∀ t, find_at cur2 t = find_at cur1 t)
        as (cur2 & q & -> & Hp2 & Hwf2 & Hcnt2 & Hfind2).
      { assert (wf_node ((pre0 ++ prefix parent) ++ prefix cur1) cur1) as Hwfc1
          by (by apply wf_set_leaf).
        destruct (decide (length (edges cur1) = 1)) as [Hone|Hone].
        - destruct (edges cur1) as [|e [|??]] eqn:He; simpl in Hone; try lia.
          destruct (wf_edge _ _ e Hwfc1) as [Hhe _]; [rewrite He; left|].
          destruct (mergeChild_find cur1 e eq_refl He Hhe)
            as (n' & Hm & Hp & _ & _ & Hfind).
          exists n', (prefix (enode e)).
          split_and!; [done|done|by eapply wf_mergeChild| |done].
          apply (count_mergeChild cur1); [done|by rewrite He|done].
        - exists cur1, []. by rewrite (right_id_L [] (++)). }
      simpl. eexists. split_and!; [done|done| | |].
      + apply (wf_putChild _ _ _ cur); [done|done| |done].
        rewrite Hp2. by apply head_app_Some.
      + pose proof (count_putChild parent l cur cur2 Hg) as Hc'.
        rewrite Hcnt2 in Hc'. unfold cur1 in Hc'.
        rewrite count_set_leaf, Hl in Hc'. simpl in Hc'. lia.
      + intros t. rewrite (find_leaf_putChild parent l cur) by done.
        destruct t as [|l' t].
        { rewrite decide_False, find_leaf_nil; [done|]. by destruct (prefix cur). }
        destruct (decide (l' = l)) as [->|Hnl].
        * rewrite Hfind2, (find_leaf_getEdge parent l cur) by done.
          pose proof (find_at_lift_eq cur cur1 [] None eq_refl) as Hf1.
          rewrite (right_id_L [] (++)) in Hf1. apply Hf1.
          intros r. unfold cur1. rewrite find_leaf_set_leaf.
          destruct r; [by rewrite decide_True|by rewrite decide_False].
        * rewrite decide_False; [done|]. intros Heq.
          rewrite <- Heq in Hh. simpl in Hh. congruence. }
  simpl.
  assert (wf_node (pre0 ++ prefix parent1) parent1) as Hwf1'
    by (by rewrite Hp1).
  destruct (merge_parent_spec is_root parent1 pre0 Hwf1')
    as (parent' & q & -> & Hp' & Hq & Hwf' & Hcnt' & Hfind').
  exists parent', q. rewrite Hp1 in Hp'. split_and!; [done..|lia|].
  intros s. rewrite Hfind'. by apply find_at_lift_eq.
Qed.

Lemma Delete_loop_spec n : ∀ is_root pre0 (search : key),
  wf_node (pre0 ++ prefix n) n →
  ∃ r, Delete_loop is_root n search = Some r ∧
    match r with
    | NotFound => find_leaf n search = None
    | Here => search = [] ∧ is_Some (leaf n)
    | Below n' v =>
        search ≠ [] ∧
        (∃ lf, find_leaf n search = Some lf ∧ v = val lf) ∧
        (∃ q, prefix n' = prefix n ++ q ∧ (is_root = true → q = [])) ∧
        wf_node (pre0 ++ prefix n') n' ∧
        (count n' + 1 = count n)%Z ∧
        ∀ s', find_at n' s' =
          if decide (s' = prefix n ++ search) then None else find_at n s'
    end.
Proof.
  induction n as [n IH] using node_ind_size.
  intros is_root pre0 [|l s] Hwf.
  - rewrite Delete_loop_nil, find_leaf_nil. unfold isLeaf.
    destruct (leaf n) eqn:Hl.
    + rewrite bool_decide_eq_true_2 by done. by eexists.
    + rewrite bool_decide_eq_false_2 by (by intros []). by eexists.
  - pose proof (wf_sorted _ _ Hwf) as Hs.
    rewrite Delete_loop_cons, find_leaf_cons.
    destruct (getEdge n l) as [cur|] eqn:Hg; simpl; [|by eexists].
    destruct (wf_getEdge _ _ _ _ Hwf Hg) as [Hh Hc].
    unfold find_at.
    destruct (HasPrefix (l :: s) (prefix cur)) eqn:Hpre; [|by eexists].
    apply HasPrefix_spec in Hpre as [rest Hrest].
    assert (Hdrop : drop (length (prefix cur)) (l :: s) = rest)
      by (by rewrite Hrest, drop_app_length).
    rewrite Hdrop.
    destruct (IH cur (getEdge_size _ _ _ _ Hg) false (pre0 ++ prefix n) rest Hc)
      as (r & -> & Hr). simpl.
    destruct r as [| |cur' v].
    + by eexists.
    + destruct Hr as [-> [lf Hlf]]. rewrite Hlf; simpl.
      rewrite (right_id_L [] (++)) in Hrest.
      destruct (delete_block_spec is_root n l cur lf pre0 Hwf Hg Hlf)
        as (n' & q & -> & Hp' & Hq & Hwf' & Hcnt' & Hfind'). simpl.
      eexists; split; [done|]. simpl. split_and!; [done| |by eauto|done|done|].
      * exists lf. by rewrite find_leaf_nil.
      * by rewrite Hrest.
    + destruct Hr as (Hne & (lf & Hlf & ->) & (q & Hq & _) & Hwf' & Hcnt' & Hfind').
      eexists; split; [done|]. simpl. split_and!; [done|by eauto| | | |].
      * exists []. by rewrite (right_id_L [] (++)).
      * apply (wf_putChild _ _ _ cur); [done|done| |done].
        rewrite Hq. by apply head_app_Some.
      * pose proof (count_putChild n l cur cur' Hg). lia.
      * apply (find_at_lift_eq n (putChild n l cur') (l :: s) None); [done|].
        intros t.
        rewrite (find_leaf_putChild n l cur) by done.
        destruct t as [|l' t]; [by rewrite decide_False, find_leaf_nil|].
        destruct (decide (l' = l)) as [->|Hnl].
        -- by rewrite Hfind', (find_leaf_getEdge n l cur), Hrest.
        -- rewrite decide_False; [done|]. congruence.
Qed.

End DeleteSpec.

(** ** DeletePrefix *)

Section DeletePrefixSpec.
Context {T : Type}.
Implicit Types (n cur parent child : node T) (e : edge_ (node T)).
Implicit Types (l b : byte) (s p path pre : key) (lf : leafNode T).

Lemma find_at_lift_prefix n n' k :
  prefix n' = prefix n →
  (∀ t, find_leaf n' t = if decide (k `prefix_of` t) then None else find_leaf n t) →
  ∀ s, find_at n' s =
    if decide ((prefix n ++ k) `prefix_of` s) then None else find_at n s.
Proof.
  intros Hp Hfind.
  apply (find_at_lift (λ t, k `prefix_of` t)
           (λ s, (prefix n ++ k) `prefix_of` s)); [done| | |done].
  - intros t. split; [apply prefix_app_inv|apply prefix_app].
  - intros s Hs. etrans; [|done]. by apply prefix_app_r.
Qed.

Lemma prefix_of_head (p t : key) l :
  head p = Some l → p `prefix_of` t → head t = Some l.
Proof. intros Hh [r ->]. by destruct p. Qed.

(** Everything stored under the edge [l] of [n] whose key extends [k],
    where [k] starts with [l] and the child's prefix extends [k] or [k]
    extends it. *)
Lemma find_leaf_under n l child k t :
  getEdge n l = Some child → head k = Some l →
  k `prefix_of` t → ¬ prefix child `prefix_of` t → find_leaf n t = None.
Proof.
  intros Hg Hk Hkt Hnp. pose proof (prefix_of_head _ _ _ Hk Hkt) as Ht.
  destruct t as [|l' t]; [done|]. simpl in Ht. injection Ht as ->.
  rewrite (find_leaf_getEdge n l child) by done. unfold find_at.
  by apply HasPrefix_false in Hnp as ->.
Qed.

Lemma cut_block_spec is_root parent l child pre0 :
  wf_node (pre0 ++ prefix parent) parent →
  getEdge parent l = Some child →
  ∃ parent' q,
    cut_block is_root parent l child = Some parent' ∧
    prefix parent' = prefix parent ++ q ∧ (is_root = true → q = []) ∧
    wf_node (pre0 ++ prefix parent') parent' ∧
    (count parent' + count child = count parent)%Z ∧
    ∀ s, find_at parent' s =
      if decide ((prefix parent ++ prefix child) `prefix_of` s) then None
      else find_at parent s.
Proof.
  intros Hwf Hg. pose proof (wf_sorted _ _ Hwf) as Hs.
  destruct (wf_getEdge _ _ _ _ Hwf Hg) as [Hh Hc].
  unfold cut_block.
  set (child' := set_edges (set_leaf child None) []).
  set (parent1 := putChild parent l child').
  assert (Hwf1 : wf_node (pre0 ++ prefix parent1) parent1).
  { apply (wf_putChild _ _ _ child); [done..|]. apply wf_empty. }
  assert (Hcnt1 : (count parent1 + count child = count parent)%Z).
  { pose proof (count_putChild parent l child child' Hg) as Hc'.
    change (count child') with 0%Z in Hc'. unfold parent1. lia. }
  assert (Hfind1 : ∀ t, find_leaf parent1 t =
    if decide (prefix child `prefix_of` t) then None else find_leaf parent t).
  { intros t. unfold parent1.
    rewrite (find_leaf_putChild parent l child) by done.
    destruct t as [|l' t].
    - rewrite decide_False, find_leaf_nil; [done|].
      intros ?%prefix_nil_inv. by destruct (prefix child).
    - destruct (decide (l' = l)) as [->|Hnl].
      + assert (find_at child' (l :: t) = None) as ->.
        { unfold find_at. destruct (HasPrefix _ _); [|done].
          by rewrite find_leaf_no_edges; [destruct (drop _ _)|]. }
        destruct (decide _) as [|Hnp]; [done|]. symmetry.
        by apply (find_leaf_under parent l child (l :: t) (l :: t)).
      + rewrite decide_False; [done|].
        intros Hp%(prefix_of_head _ _ l); [|done]. simpl in Hp. congruence. }
  destruct (merge_parent_spec is_root parent1 pre0 Hwf1)
    as (parent' & q & -> & Hp' & Hq & Hwf' & Hcnt' & Hfind').
  exists parent', q. split_and!; [done..|lia|].
  intros s. rewrite Hfind'. by apply find_at_lift_prefix.
Qed.

Lemma deletePrefix_spec n : ∀ is_root pre0 (p : key),
  wf_node (pre0 ++ prefix n) n →
  ∃ r, deletePrefix is_root n p = Some r ∧
    match r with
    | NoMatch => p ≠ [] ∧ ∀ t, p `prefix_of` t → find_leaf n t = None
    | Exhausted => p = []
    | Under n' k =>
        p ≠ [] ∧
        (∃ q, prefix n' = prefix n ++ q ∧ (is_root = true → q = [])) ∧
        wf_node (pre0 ++ prefix n') n' ∧
        (count n' + k = count n)%Z ∧
        ∀ s', find_at n' s' =
          if decide ((prefix n ++ p) `prefix_of` s') then None
          else find_at n s'
    end.
Proof.
  induction n as [n IH] using node_ind_size.
  intros is_root pre0 [|l p] Hwf.
  - rewrite deletePrefix_nil. by eexists.
  - pose proof (wf_sorted _ _ Hwf) as Hs.
    rewrite deletePrefix_cons.
    destruct (getEdge n l) as [child|] eqn:Hg; cycle 1.
    { eexists; split; [done|]. split; [done|]. intros t [r ->]; simpl.
      by rewrite find_leaf_cons, Hg. }
    destruct (wf_getEdge _ _ _ _ Hwf Hg) as [Hh Hc].
    destruct (negb (HasPrefix (prefix child) (l :: p))
              && negb (HasPrefix (l :: p) (prefix child))) eqn:Hcmp.
    { apply andb_true_iff in Hcmp as [H1 H2].
      apply negb_true_iff, HasPrefix_false in H1, H2.
      eexists; split; [done|]. split; [done|]. intros t Ht.
      apply (find_leaf_under n l child (l :: p)); [done..|].
      intros Hpc. by destruct (prefix_weak_total _ _ _ Ht Hpc). }
    (* what key exhaustion at the child amounts to *)
    assert (Hex : (l :: p) `prefix_of` prefix child →
      ∃ r, (cut_block is_root n l child ≫= λ current',
              Some (Under current' (subTreeSize child))) = Some r ∧
        match r with
        | Under n' k =>
            l :: p ≠ [] ∧
            (∃ q, prefix n' = prefix n ++ q ∧ (is_root = true → q = [])) ∧
            wf_node (pre0 ++ prefix n') n' ∧
            (count n' + k = count n)%Z ∧
            ∀ s', find_at n' s' =
              if decide ((prefix n ++ l :: p) `prefix_of` s') then None
              else find_at n s'
        | _ => False
        end).
    { intros Hpre.
      destruct (cut_block_spec is_root n l child pre0 Hwf Hg)
        as (n' & q & -> & Hp' & Hq & Hwf' & Hcnt' & Hfind'). simpl.
      eexists; split; [done|]. simpl.
      split_and!; [done|by eauto|done|by rewrite subTreeSize_count|].
      intros s'. rewrite Hfind'.
      destruct (decide ((prefix n ++ prefix child) `prefix_of` s')) as [Hy|Hn].
      - rewrite decide_True; [done|]. etrans; [|done]. by apply prefix_app.
      - destruct (decide _) as [Hy|]; [|done]. unfold find_at.
        destruct (HasPrefix s' (prefix n)) eqn:Hs'; [|done].
        apply HasPrefix_spec in Hs' as [t ->]. rewrite drop_app_length.
        apply prefix_app_inv in Hy.
        apply (find_leaf_under n l child (l :: p)); [done..|].
        intros Hpc. apply Hn. by apply prefix_app. }
    cbv zeta.
    destruct (decide (length (l :: p) < length (prefix child))) as [Hlt|Hge].
    + rewrite drop_all, deletePrefix_nil. cbn [mbind option_bind].
      destruct Hex as (r & -> & Hr); [|exists r; split; [done|by destruct r]].
      apply andb_false_iff in Hcmp as [H1|H2].
      * by apply negb_false_iff, HasPrefix_spec in H1.
      * apply negb_false_iff, HasPrefix_spec in H2.
        apply prefix_length in H2. lia.
    + assert (prefix child `prefix_of` l :: p) as [rest Hrest].
      { apply andb_false_iff in Hcmp as [H1|H2].
        - apply negb_false_iff, HasPrefix_spec in H1.
          pose proof (prefix_length _ _ H1) as Hlen.
          assert (length (l :: p) = length (prefix child)) as Heq by lia.
          destruct H1 as [r Hr]. rewrite Hr, length_app in Heq.
          assert (r = []) as -> by (apply nil_length_inv; lia).
          rewrite (right_id_L [] (++)) in Hr. by rewrite Hr.
        - by apply negb_false_iff, HasPrefix_spec in H2. }
      replace (drop (length (prefix child)) (l :: p)) with rest
        by (by rewrite Hrest, drop_app_length).
      destruct (IH child (getEdge_size _ _ _ _ Hg) false (pre0 ++ prefix n)
                  rest Hc) as (r & -> & Hr).
      cbn [mbind option_bind]. destruct r as [| |child' k].
      * destruct Hr as [Hne Hr]. eexists; split; [done|]. split; [done|].
        intros t Ht. destruct (decide (prefix child `prefix_of` t)) as [Hpc|Hpc].
        -- destruct Hpc as [t' ->]. rewrite Hrest in Ht.
           apply prefix_app_inv in Ht.
           pose proof (prefix_of_head _ (prefix child ++ t') l Hh) as Hhd.
           destruct (prefix child ++ t') as [|l' t''] eqn:Heq;
             [by specialize (Hhd ltac:(by eexists))|].
           specialize (Hhd ltac:(by eexists)). injection Hhd as ->.
           rewrite (find_leaf_getEdge n l child) by done.
           rewrite <- Heq, find_at_app. by apply Hr.
        -- by apply (find_leaf_under n l child (l :: p)).
      * subst rest. rewrite (right_id_L [] (++)) in Hrest.
        destruct Hex as (r & -> & Hr'); [by rewrite Hrest|].
        exists r; split; [done|by destruct r].
      * destruct Hr as (Hne & (q & Hq & _) & Hwf' & Hcnt' & Hfind').
        eexists; split; [done|]. simpl. split_and!; [done| | | |].
        -- exists []. by rewrite (right_id_L [] (++)).
        -- apply (wf_putChild _ _ _ child); [done|done| |done].
           rewrite Hq. by apply head_app_Some.
        -- pose proof (count_putChild n l child child' Hg). lia.
        -- apply (find_at_lift_prefix n (putChild n l child') (l :: p));
             [done|]. intros t.
           rewrite (find_leaf_putChild n l child) by done.
           destruct t as [|l' t].
           { rewrite decide_False, find_leaf_nil; [done|].
             by intros ?%prefix_nil_inv. }
           destruct (decide (l' = l)) as [->|Hnl].
           ++ by rewrite Hfind', (find_leaf_getEdge n l child), Hrest.
           ++ rewrite decide_False; [done|].
              intros Hp%(prefix_of_head _ _ l); [|done]. simpl in Hp.
              congruence.
Qed.

End DeletePrefixSpec.

(** ** Lexicographic byte order on keys *)

Lemma key_lt_irrefl a : ¬ key_lt a a.
Proof.
  unfold key_lt. induction a as [|x a IH]; simpl; [done|].
  intros [H|[_ H]%andb_true_iff]%orb_true_iff; [|done].
  by apply byte_ltb_lt, byte_lt_irrefl in H.
Qed.

Lemma key_lt_app p a b : key_lt (p ++ a) (p ++ b) ↔ key_lt a b.
Proof.
  unfold key_lt. induction p as [|x p IH]; simpl; [done|].
  rewrite orb_true_iff, andb_true_iff, bool_decide_eq_true, IH. split.
  - intros [H|[_ H]]; [|done]. by apply byte_ltb_lt, byte_lt_irrefl in H.
  - auto.
Qed.

Lemma key_lt_nil_cons x b : key_lt [] (x :: b).
Proof. done. Qed.

Lemma key_lt_head x y a b : byte_lt x y → key_lt (x :: a) (y :: b).
Proof.
  intros H%byte_ltb_lt. unfold key_lt; simpl. by rewrite H.
Qed.

Lemma StronglySorted_key_lt_NoDup (ks : list key) :
  StronglySorted key_lt ks → NoDup ks.
Proof.
  induction 1 as [|k ks _ IH Hall]; constructor; [|done].
  intros Hin. rewrite Forall_forall in Hall.
  by apply (key_lt_irrefl k), Hall.
Qed.

(** ** Entries and the descent *)

Section EntriesFind.
Context {T : Type}.
Implicit Types (n cur parent child : node T) (e : edge_ (node T)).
Implicit Types (es : list (edge_ (node T))).
Implicit Types (l b : byte) (s p path pre k : key) (lf : leafNode T).

Lemma leaf_eta lf : mkLeaf (lkey lf) (val lf) = lf.
Proof. by destruct lf. Qed.

Lemma elem_of_leaf_entry (x : option (leafNode T)) k (v : T) :
  (k, v) ∈ leaf_entry x ↔ x = Some (mkLeaf k v).
Proof.
  destruct x as [lf|]; simpl.
  - rewrite list_elem_of_singleton. split.
    + intros [= -> ->]. by rewrite leaf_eta.
    + by intros [= ->].
  - split; [by intros ?%elem_of_nil|done].
Qed.

(** A pair is among the entries of a well-formed node exactly when the
    descent from the node finds it. *)
Lemma entries_find n : ∀ path k (v : T),
  wf_node path n →
  (k, v) ∈ entries n ↔ ∃ s, k = path ++ s ∧ find_leaf n s = Some (mkLeaf k v).
Proof.
  induction n as [n IH] using node_ind_size. intros path k v Hwf.
  pose proof (wf_sorted _ _ Hwf) as Hs.
  rewrite entries_unfold, elem_of_app, elem_of_leaf_entry, elem_of_entries_of.
  split.
  - intros [Hl|(e & He & Hin)].
    + exists []. rewrite find_leaf_nil. split; [|done].
      rewrite (right_id_L [] (++)). by rewrite <- (wf_leaf _ _ _ Hwf Hl).
    + destruct (wf_edge _ _ _ Hwf He) as [Hh Hc].
      apply (IH _ (child_size _ _ _ He) _ _ _ Hc) in Hin as (s & -> & Hf).
      exists (prefix (enode e) ++ s). split; [by rewrite (assoc (++))|].
      assert (find_leaf n (prefix (enode e) ++ s)
              = find_at (enode e) (prefix (enode e) ++ s)) as ->.
      { destruct (prefix (enode e)) as [|l' pc]; [done|].
        simpl in Hh. injection Hh as ->. simpl.
        apply find_leaf_getEdge. by apply elem_getEdge. }
      by rewrite find_at_app.
  - intros ([|l s] & -> & Hf).
    + left. by rewrite find_leaf_nil in Hf.
    + right. rewrite find_leaf_cons in Hf.
      destruct (getEdge n l) as [child|] eqn:Hg; [|done]. simpl in Hf.
      apply find_at_Some in Hf as (r & Hr & Hf).
      destruct (wf_getEdge _ _ _ _ Hwf Hg) as [Hh Hc].
      exists (mkEdge l child). split; [by apply getEdge_elem|]. simpl.
      apply (IH _ (getEdge_size _ _ _ _ Hg) _ _ _ Hc).
      exists r. split; [|done]. by rewrite Hr, (assoc (++)).
Qed.

Lemma find_leaf_key n path s lf :
  wf_node path n → find_leaf n s = Some lf → lkey lf = path ++ s.
Proof.
  revert path s. induction n as [n IH] using node_ind_size.
  intros path [|l s] Hwf.
  - rewrite find_leaf_nil, (right_id_L [] (++)). apply (wf_leaf _ _ _ Hwf).
  - rewrite find_leaf_cons.
    destruct (getEdge n l) as [child|] eqn:Hg; [|done]. simpl.
    intros (r & Hr & Hf)%find_at_Some.
    destruct (wf_getEdge _ _ _ _ Hwf Hg) as [Hh Hc].
    rewrite (IH _ (getEdge_size _ _ _ _ Hg) _ _ Hc Hf).
    by rewrite Hr, (assoc (++)).
Qed.

Lemma entries_find_root n k (v : T) :
  wf_node [] n →
  (k, v) ∈ entries n ↔ ∃ lf, find_leaf n k = Some lf ∧ val lf = v.
Proof.
  intros Hwf. rewrite (entries_find n [] k v Hwf). split.
  - intros (s & -> & Hf). eauto.
  - intros (lf & Hf & <-). exists k. split; [done|].
    pose proof (find_leaf_key n [] k lf Hwf Hf) as Hk. simpl in Hk.
    by rewrite Hf, <- Hk, leaf_eta.
Qed.

(** Walking order is strictly ascending key order. *)
Lemma entries_sorted n : ∀ path,
  wf_node path n → StronglySorted key_lt (entries n).*1.
Proof.
  induction n as [n IH] using node_ind_size. intros path Hwf.
  assert (Hunder : ∀ e k v, e ∈ edges n → (k, v) ∈ entries (enode e) →
            ∃ r, k = path ++ label e :: r).
  { intros e k v He Hin. destruct (wf_edge _ _ _ Hwf He) as [Hh Hc].
    apply (entries_find _ _ _ _ Hc) in Hin as (s & -> & _).
    destruct (prefix (enode e)) as [|l' pc]; [done|].
    simpl in Hh. injection Hh as ->. exists (pc ++ s).
    by rewrite <- (assoc (++)). }
  assert (Hes : ∀ es, (∀ e, e ∈ es → e ∈ edges n) → sorted es →
            StronglySorted key_lt (entries_of es).*1).
  { induction es as [|e es IHes]; intros Hsub Hsorted; [constructor|].
    rewrite entries_of_cons, fmap_app. inversion Hsorted as [|? ? Hs' Hall]; subst.
    apply StronglySorted_app_2.
    - intros k1 k2 [[k1' v1] [-> Hin1]]%list_elem_of_fmap
        [[k2' v2] [-> Hin2]]%list_elem_of_fmap; simpl.
      apply elem_of_entries_of in Hin2 as (e2 & He2 & Hin2).
      destruct (Hunder e k1' v1) as [r1 ->]; [apply Hsub; left|done|].
      destruct (Hunder e2 k2' v2) as [r2 ->]; [apply Hsub; by right|done|].
      apply key_lt_app, key_lt_head. rewrite Forall_forall in Hall.
      by apply Hall.
    - destruct (wf_edge _ _ e Hwf) as [_ Hc]; [apply Hsub; left|].
      apply (IH _ (child_size _ _ _ (Hsub e ltac:(left))) _ Hc).
    - apply IHes; [|done]. intros e' ?. apply Hsub. by right. }
  rewrite entries_unfold, fmap_app. apply StronglySorted_app_2.
  - intros k1 k2 [[k1' v1] [-> Hin1]]%list_elem_of_fmap
      [[k2' v2] [-> Hin2]]%list_elem_of_fmap; simpl.
    apply elem_of_leaf_entry in Hin1.
    pose proof (wf_leaf _ _ _ Hwf Hin1) as Hk. simpl in Hk. subst k1'.
    apply elem_of_entries_of in Hin2 as (e2 & He2 & Hin2).
    destruct (Hunder e2 k2' v2 He2 Hin2) as [r2 ->].
    rewrite <- (right_id_L [] (++) path) at 1. by apply key_lt_app.
  - destruct (leaf n); simpl; repeat constructor.
  - apply Hes; [done|]. by eapply wf_sorted.
Qed.

Lemma entries_NoDup n path : wf_node path n → NoDup (entries n).*1.
Proof. intros Hwf. by eapply StronglySorted_key_lt_NoDup, entries_sorted. Qed.

End EntriesFind.

(** ** Trees built through the public operations *)

Section Trees.
Context {T : Type} (zero : T).
Implicit Types (t : Tree T) (n : node T).
Implicit Types (l b : byte) (s p path pre k : key) (lf : leafNode T) (v : T).

Lemma Get_stored t k :
  Get zero t k = match stored t k with Some v => (v, true) | None => (zero, false) end.
Proof.
  unfold Get, stored. rewrite Get_loop_find. by destruct (find_leaf _ _).
Qed.

Lemma Get_found t k v : Get zero t k = (v, true) ↔ stored t k = Some v.
Proof.
  rewrite Get_stored. destruct (stored t k); split; congruence.
Qed.

Lemma Get_absent t k : (Get zero t k).2 = false ↔ stored t k = None.
Proof. rewrite Get_stored. by destruct (stored t k). Qed.

Lemma find_at_root n s : prefix n = [] → find_at n s = find_leaf n s.
Proof. intros Hp. unfold find_at. by rewrite Hp. Qed.

Lemma New_wf : wf_tree (T:=T) New.
Proof. split_and!; [apply wf_empty|done|done]. Qed.

Lemma stored_New k : stored (T:=T) New k = None.
Proof.
  unfold stored, New; simpl. by rewrite find_leaf_no_edges; [destruct k|].
Qed.

Lemma Insert_spec t k v :
  wf_tree t →
  ∃ t' old (upd : bool),
    Insert zero t k v = Some (t', old, upd) ∧ wf_tree t' ∧
    size t' = (size t + if upd then 0 else 1)%Z ∧
    (∀ k', stored t' k' = if decide (k' = k) then Some v else stored t k') ∧
    match stored t k with
    | Some v0 => old = v0 ∧ upd = true
    | None => old = zero ∧ upd = false
    end.
Proof.
  intros (Hwf & Hp & Hsz).
  destruct (Insert_loop_spec zero (root t) [] k v (size t) Hwf)
    as (n' & old & upd & Heq & Hwf' & Hp' & Hcnt & Hfind & Hres).
  simpl in Heq. unfold Insert. rewrite Heq; simpl.
  exists (mkTree n' (if upd then size t else (size t + 1)%Z)), old, upd.
  split; [done|]. split; [|split; [|split]]; simpl.
  - unfold wf_tree; split_and!; simpl; [done|congruence|]. destruct upd; lia.
  - by destruct upd; lia.
  - intros k'. unfold stored; simpl. rewrite Hfind.
    by destruct (decide _).
  - unfold stored. by destruct (find_leaf (root t) k).
Qed.

Lemma Delete_spec t k :
  wf_tree t →
  ∃ t' old (del : bool),
    Delete zero t k = Some (t', old, del) ∧ wf_tree t' ∧
    match stored t k with
    | Some v0 =>
        old = v0 ∧ del = true ∧ size t' = (size t - 1)%Z ∧
        ∀ k', stored t' k' = if decide (k' = k) then None else stored t k'
    | None => t' = t ∧ old = zero ∧ del = false
    end.
Proof.
  intros (Hwf & Hp & Hsz). unfold Delete, stored.
  assert (wf_node ([] ++ prefix (root t)) (root t)) as Hwf0
    by (by rewrite Hp).
  destruct (Delete_loop_spec (root t) true [] k Hwf0) as (r & -> & Hr).
  simpl. destruct r as [| |n' v].
  - rewrite Hr. eexists _, _, _. split; [done|]. by split.
  - destruct Hr as [-> [lf Hlf]]. rewrite Hlf; simpl.
    eexists _, _, _. split; [done|]. rewrite find_leaf_nil, Hlf; simpl.
    split; [unfold wf_tree; split_and!; simpl|split_and!; simpl].
    + by apply wf_set_leaf.
    + done.
    + rewrite count_set_leaf, Hlf; simpl. lia.
    + done.
    + done.
    + done.
    + intros k'. rewrite find_leaf_set_leaf.
      destruct k'; [by rewrite decide_True|by rewrite decide_False].
  - destruct Hr as (Hne & (lf & Hlf & ->) & (q & Hq & Hq') & Hwf' & Hcnt & Hfind).
    rewrite (Hq' eq_refl), (right_id_L [] (++)), Hp in Hq.
    rewrite Hq in Hwf'. rewrite Hlf. eexists _, _, _. split; [done|].
    split; [unfold wf_tree; split_and!; simpl; [done|done|lia]|].
    simpl. split_and!; [done..|].
    intros k'. specialize (Hfind k').
    rewrite !find_at_root, Hp in Hfind by done. simpl in Hfind.
    rewrite Hfind. by destruct (decide _).
Qed.

Lemma DeletePrefix_spec t p :
  wf_tree t →
  ∃ t' (cnt : Z),
    DeletePrefix t p = Some (t', cnt) ∧ wf_tree t' ∧
    size t' = (size t - cnt)%Z ∧
    ∀ k, stored t' k = if decide (p `prefix_of` k) then None else stored t k.
Proof.
  intros (Hwf & Hp & Hsz). unfold DeletePrefix, stored.
  assert (wf_node ([] ++ prefix (root t)) (root t)) as Hwf0
    by (by rewrite Hp).
  destruct (deletePrefix_spec (root t) true [] p Hwf0) as (r & -> & Hr).
  simpl. destruct r as [| |n' cnt].
  - destruct Hr as [Hne Hr]. eexists _, _. split; [done|].
    split; [done|]. split; [lia|]. intros k.
    destruct (decide _) as [Hpk|]; [|done]. by rewrite Hr.
  - subst p. eexists _, _. split; [done|].
    rewrite subTreeSize_count.
    split; [unfold wf_tree; split_and!|split; cbn [root size]].
    + apply wf_empty.
    + done.
    + cbn [root size].
      change (count (set_edges (set_leaf (root t) None) [])) with 0%Z. lia.
    + done.
    + intros k. rewrite decide_True by apply prefix_nil.
      by rewrite find_leaf_no_edges; [destruct k|].
  - destruct Hr as (Hne & (q & Hq & Hq') & Hwf' & Hcnt & Hfind).
    rewrite (Hq' eq_refl), (right_id_L [] (++)), Hp in Hq.
    rewrite Hq in Hwf'. eexists _, _. split; [done|].
    split; [unfold wf_tree; split_and!; simpl; [done|done|lia]|].
    simpl. split; [lia|].
    intros k. specialize (Hfind k).
    rewrite !find_at_root, Hp in Hfind by done. simpl in Hfind.
    rewrite Hfind. by destruct (decide _).
Qed.

Lemma reachable_wf t : reachable zero t → wf_tree t.
Proof.
  induction 1 as [|t k v t' old upd _ IH Heq|t k t' old del _ IH Heq
                  |t p t' cnt _ IH Heq].
  - apply New_wf.
  - destruct (Insert_spec t k v IH) as (? & ? & ? & Heq' & ? & _).
    rewrite Heq in Heq'. by injection Heq' as <- <- <-.
  - destruct (Delete_spec t k IH) as (? & ? & ? & Heq' & ? & _).
    rewrite Heq in Heq'. by injection Heq' as <- <- <-.
  - destruct (DeletePrefix_spec t p IH) as (? & ? & Heq' & ? & _).
    rewrite Heq in Heq'. by injection Heq' as <- <-.
Qed.

(** *** The pairs that [Walk] visits *)

Lemma visit_record (kvs log : list (key * T)) :
  visit record kvs log = (false, log ++ kvs).
Proof.
  revert log. induction kvs as [|[k v] kvs IH]; intros log; simpl.
  - by rewrite (right_id_L [] (++)).
  - by rewrite IH, <- (assoc (++)).
Qed.

Lemma walked_entries t : walked t = entries (root t).
Proof. unfold walked, Walk. by rewrite recursiveWalk_visit, visit_record. Qed.

Lemma walked_stored t k v :
  wf_tree t → (k, v) ∈ walked t ↔ stored t k = Some v.
Proof.
  intros (Hwf & _). rewrite walked_entries, (entries_find_root _ _ _ Hwf).
  unfold stored. destruct (find_leaf (root t) k) as [lf|]; simpl.
  - split; [by intros (? & [= <-] & <-)|]. intros [= <-]. eauto.
  - split; [by intros (? & ? & _)|done].
Qed.

Lemma walked_sorted t : wf_tree t → StronglySorted key_lt (walked t).*1.
Proof. intros (Hwf & _). rewrite walked_entries. by eapply entries_sorted. Qed.

Lemma walked_NoDup t : wf_tree t → NoDup (walked t).*1.
Proof. intros ?. by apply StronglySorted_key_lt_NoDup, walked_sorted. Qed.

Lemma Len_walked t : wf_tree t → Len t = Z.of_nat (length (walked t)).
Proof. intros (_ & _ & Hsz). by rewrite walked_entries. Qed.

Lemma elem_of_walked_keys t k :
  wf_tree t → k ∈ (walked t).*1 ↔ is_Some (stored t k).
Proof.
  intros Hwf. rewrite list_elem_of_fmap. split.
  - intros ([k' v] & -> & Hin). apply (walked_stored _ _ _ Hwf) in Hin.
    by eexists.
  - intros [v Hv]. exists (k, v). split; [done|]. by apply walked_stored.
Qed.

End Trees.

Section InsertSequences.
Context {T : Type} (zero : T).
Implicit Types (t : Tree T) (n : node T) (ops : list (key * T)).
Implicit Types (l b : byte) (s p path pre k : key) (lf : leafNode T) (v : T).

(** *** Sequences of inserts *)

Lemma latest_cons k0 v0 ops k :
  latest ((k0, v0) :: ops) k =
    match latest ops k with
    | Some v => Some v
    | None => if decide (k0 = k) then Some v0 else None
    end.
Proof.
  unfold latest. rewrite filter_cons; simpl.
  destruct (decide (k0 = k)) as [->|].
  - destruct (filter _ ops) as [|kv kvs] eqn:Hf; [done|].
    rewrite last_cons_cons.
    destruct (last (kv :: kvs)) eqn:Hl; [done|]. by apply last_None in Hl.
  - by destruct (last _).
Qed.

Lemma latest_is_Some ops k : is_Some (latest ops k) ↔ k ∈ ops.*1.
Proof.
  induction ops as [|[k0 v0] ops IH]; simpl.
  - split; [by intros []|by intros ?%elem_of_nil].
  - rewrite latest_cons, elem_of_cons, <- IH.
    destruct (latest ops k) as [v|].
    + split; [intros _; right; by eexists|intros _; by eexists].
    + destruct (decide (k0 = k)) as [->|Hne].
      * split; [intros _; by left|intros _; by eexists].
      * split; [by intros [? [=]]|]. intros [->|[? [=]]]. done.
Qed.

Lemma insert_all_spec ops : ∀ t,
  wf_tree t →
  ∃ t', insert_all zero ops t = Some t' ∧ wf_tree t' ∧
    ∀ k, stored t' k =
      match latest ops k with Some v => Some v | None => stored t k end.
Proof.
  induction ops as [|[k0 v0] ops IH]; intros t Hwf; simpl.
  - by exists t.
  - destruct (Insert_spec zero t k0 v0 Hwf)
      as (t1 & old & upd & -> & Hwf1 & _ & Hst & _). simpl.
    destruct (IH t1 Hwf1) as (t' & -> & Hwf' & Hst').
    exists t'. split_and!; [done..|]. intros k.
    rewrite Hst', Hst, latest_cons. destruct (latest ops k); [done|].
    destruct (decide (k = k0)) as [->|]; [by rewrite decide_True|].
    by rewrite decide_False.
Qed.

(** C1. For every sequence of Insert operations starting from an empty tree,
    the sequence runs to completion; Get on any key returns the value of the
    most recent Insert with that exact key and found=true (and found=false
    for a key that was never inserted); and Len is the number of distinct
    keys inserted. *)
Theorem Insert_sequence_Get_Len (ops : list (key * T)) :
  ∃ t, insert_all zero ops New = Some t ∧
    Len t = Z.of_nat (length (remove_dups ops.*1)) ∧
    ∀ k, Get zero t k =
      match latest ops k with Some v => (v, true) | None => (zero, false) end.
Proof.
  destruct (insert_all_spec ops New New_wf) as (t & Heq & Hwf & Hst).
  exists t. split_and!; [done| |].
  - rewrite (Len_walked t Hwf). f_equal.
    rewrite <- (length_fmap fst). apply Permutation_length.
    apply NoDup_Permutation; [by apply walked_NoDup|apply NoDup_remove_dups|].
    intros k. rewrite (elem_of_walked_keys t k Hwf), elem_of_remove_dups.
    rewrite <- latest_is_Some, Hst, stored_New. by destruct (latest ops k).
  - intros k. rewrite (Get_stored zero), Hst, stored_New.
    by destruct (latest ops k).
Qed.

(** *** Results of Insert and Delete *)

(** C9. On every reachable tree, Insert of a key that Get finds returns
    was-update=true and the value Get returned; Insert of a key that Get
    does not find returns was-update=false and the zero value. *)
Theorem Insert_returns_previous t k v :
  reachable zero t →
  (∀ v0, Get zero t k = (v0, true) →
     ∃ t', Insert zero t k v = Some (t', v0, true)) ∧
  ((Get zero t k).2 = false →
     ∃ t', Insert zero t k v = Some (t', zero, false)).
Proof.
  intros Hwf%reachable_wf.
  destruct (Insert_spec zero t k v Hwf) as (t' & old & upd & Heq & _ & _ & _ & Hres).
  split.
  - intros v0 Hg%Get_found. rewrite Hg in Hres. destruct Hres as [-> ->].
    by exists t'.
  - intros Hg%Get_absent. rewrite Hg in Hres. destruct Hres as [-> ->].
    by exists t'.
Qed.

(** C8. On every reachable tree, Delete of a key that Get finds returns the
    stored value and deleted=true, and Get does not find the key afterwards;
    Delete of a key that Get does not find returns deleted=false and the tree
    it was called on, unchanged in every field (so Len is unchanged too). *)
Theorem Delete_present_absent t k :
  reachable zero t →
  (∀ v0, Get zero t k = (v0, true) →
     ∃ t', Delete zero t k = Some (t', v0, true) ∧
           (Get zero t' k).2 = false) ∧
  ((Get zero t k).2 = false → Delete zero t k = Some (t, zero, false)).
Proof.
  intros Hwf%reachable_wf.
  destruct (Delete_spec zero t k Hwf) as (t' & old & del & Heq & _ & Hres).
  split.
  - intros v0 Hg%Get_found. rewrite Hg in Hres.
    destruct Hres as (-> & -> & _ & Hst).
    exists t'. split; [done|]. apply Get_absent. by rewrite Hst, decide_True.
  - intros Hg%Get_absent. rewrite Hg in Hres.
    by destruct Hres as (-> & -> & ->).
Qed.

End InsertSequences.

Section WalkAndLongestPrefix.
Context {T : Type} (zero : T).
Implicit Types (t : Tree T) (n : node T).
Implicit Types (l b : byte) (s p path pre k : key) (lf : leafNode T) (v : T).

(** *** Walk order and ToMap *)

Lemma visit_logged {S : Type} (fn : key → T → S → bool * S) kvs :
  ∀ (st : S) (log : list (key * T)),
  ∃ kvs', kvs' `prefix_of` kvs ∧
    (visit (logged fn) kvs (st, log)).2.2 = log ++ kvs'.
Proof.
  induction kvs as [|[k v] kvs IH]; intros st log; simpl.
  - exists []. by rewrite (right_id_L [] (++)).
  - unfold logged at 1; simpl. destruct (fn k v st) as [[] st']; simpl.
    + exists [(k, v)]. split; [|done]. by apply prefix_cons, prefix_nil.
    + destruct (IH st' (log ++ [(k, v)])) as (kvs' & Hpre & ->).
      exists ((k, v) :: kvs'). split; [by apply prefix_cons|].
      by rewrite <- (assoc (++)).
Qed.

Lemma visit_insert (kvs : list (key * T)) : ∀ (m : gmap key T) k,
  NoDup kvs.*1 →
  (visit (λ k v out, (false, <[k := v]> out)) kvs m).2 !! k =
    match list_to_map (M := gmap key T) kvs !! k with
    | Some v => Some v
    | None => m !! k
    end.
Proof.
  induction kvs as [|[k0 v0] kvs IH]; intros m k Hnd; simpl; [done|].
  apply NoDup_cons in Hnd as [Hnin Hnd]. rewrite IH by done.
  destruct (decide (k = k0)) as [->|Hne].
  - rewrite lookup_insert_eq, (not_elem_of_list_to_map_1 _ k0) by done.
    by rewrite lookup_insert_eq.
  - rewrite !lookup_insert_ne by done. done.
Qed.

Lemma ToMap_stored t k : wf_tree t → ToMap t !! k = stored t k.
Proof.
  intros Hwf. pose proof (walked_NoDup t Hwf) as Hnd.
  unfold ToMap, Walk. rewrite recursiveWalk_visit, <- walked_entries.
  rewrite visit_insert, lookup_empty by done.
  destruct (list_to_map (walked t) !! k) as [v|] eqn:Hl.
  - apply elem_of_list_to_map in Hl; [|done].
    symmetry. by apply walked_stored.
  - destruct (stored t k) as [v|] eqn:Hs; [|done].
    apply walked_stored in Hs; [|done].
    apply (elem_of_list_to_map (M := gmap key)) in Hs; [|done]. congruence.
Qed.

(** C7. On every reachable tree (so after any sequence of Inserts and
    Deletes, and of DeletePrefixes as well), Walk calls its visitor on keys
    in strictly ascending lexicographic byte order, whatever the visitor does
    with its own state and whenever it asks to stop; and the keys of ToMap
    are exactly the keys for which Get returns found=true. *)
Theorem Walk_ascending_ToMap_keys t :
  reachable zero t →
  (∀ (S : Type) (fn : key → T → S → bool * S) (st : S),
     StronglySorted key_lt (Walk t (logged fn) (st, [])).2.*1) ∧
  (∀ k, is_Some (ToMap t !! k) ↔ (Get zero t k).2 = true).
Proof.
  intros Hwf%reachable_wf. split.
  - intros S fn st. unfold Walk. rewrite recursiveWalk_visit.
    destruct (visit_logged fn (entries (root t)) st []) as (kvs' & [r Hr] & ->).
    simpl. pose proof (walked_sorted t Hwf) as Hs.
    rewrite walked_entries, Hr, fmap_app in Hs.
    by apply StronglySorted_app_1_l in Hs.
  - intros k. rewrite (ToMap_stored t k Hwf), (Get_stored zero).
    destruct (stored t k); simpl; split; try done; by intros [].
Qed.

(** *** LongestPrefix *)

Lemma longest_at_here last n s :
  (∀ s1', s1' `prefix_of` s → s1' ≠ [] → find_leaf n s1' = None) →
  longest_at last n s (seen last n).
Proof.
  intros Hnone. unfold seen. destruct (leaf n) as [lf|] eqn:Hl.
  - left. exists [], lf. split_and!; [apply prefix_nil|by rewrite find_leaf_nil|done|].
    intros s1' Hpre [x Hx]. destruct s1' as [|l' s1']; [done|].
    by rewrite Hnone in Hx.
  - right. split; [done|]. intros [|l' s1'] Hpre; [by rewrite find_leaf_nil|].
    by apply Hnone.
Qed.

Lemma LongestPrefix_loop_spec n : ∀ path last s,
  wf_node path n → longest_at last n s (LongestPrefix_loop last n s).
Proof.
  induction n as [n IH] using node_ind_size. intros path last [|l s] Hwf.
  - rewrite LongestPrefix_loop_nil. apply longest_at_here.
    by intros s1' ->%prefix_nil_inv.
  - rewrite LongestPrefix_loop_cons.
    destruct (getEdge n l) as [child|] eqn:Hg.
    2:{ apply longest_at_here. intros [|l' s1'] Hpre Hne; [done|].
        apply prefix_cons_inv_1 in Hpre as ->.
        by rewrite find_leaf_cons, Hg. }
    destruct (wf_getEdge _ _ _ _ Hwf Hg) as [Hh Hc].
    destruct (HasPrefix (l :: s) (prefix child)) eqn:Hp.
    2:{ apply longest_at_here. intros [|l' s1'] Hpre Hne; [done|].
        pose proof (prefix_cons_inv_1 _ _ _ _ Hpre) as ->.
        rewrite (find_leaf_getEdge n l child) by done. unfold find_at.
        destruct (HasPrefix (l :: s1') (prefix child)) eqn:Hp'; [|done].
        apply HasPrefix_spec in Hp'. apply HasPrefix_false in Hp.
        destruct Hp. by etrans. }
    apply HasPrefix_spec in Hp as [rest Hrest].
    rewrite Hrest, drop_app_length.
    assert (Hthrough : ∀ s1', s1' `prefix_of` prefix child ++ rest → s1' ≠ [] →
              find_leaf n s1' = find_at child s1').
    { intros [|l' s1'] Hpre Hne; [done|]. rewrite <- Hrest in Hpre.
      apply prefix_cons_inv_1 in Hpre as ->. by apply find_leaf_getEdge. }
    destruct (IH child (getEdge_size _ _ _ _ Hg) _ (seen last n) rest Hc)
      as [(s1 & lf & Hpre & Hf & -> & Hmax)|[-> Hnone]].
    + left. exists (prefix child ++ s1), lf.
      assert (prefix child ++ s1 ≠ []) as Hne by (by destruct (prefix child)).
      split_and!; [by apply prefix_app| |done|].
      * rewrite Hthrough; [by rewrite find_at_app|by apply prefix_app|done].
      * intros s1' Hpre' [x Hx]. destruct (decide (s1' = [])) as [->|Hne'].
        { simpl; lia. }
        rewrite Hthrough in Hx by done.
        apply find_at_Some in Hx as (r & -> & Hx).
        apply prefix_app_inv in Hpre'. rewrite !length_app.
        specialize (Hmax r Hpre' ltac:(by eexists)). lia.
    + apply longest_at_here. intros s1' Hpre Hne.
      rewrite Hthrough by done. unfold find_at.
      destruct (HasPrefix s1' (prefix child)) eqn:Hp; [|done].
      apply HasPrefix_spec in Hp as [r ->]. rewrite drop_app_length.
      apply Hnone. by apply prefix_app_inv in Hpre.
Qed.

(** C6. On every reachable tree and for every query string s, when
    LongestPrefix(s) returns found=true, the returned key is a stored key
    that is a byte-prefix of s, the returned value is its value, and no
    stored key that is a byte-prefix of s is longer; and it returns
    found=false exactly when no stored key (the empty key included) is a
    byte-prefix of s. *)
Theorem LongestPrefix_correct t s :
  reachable zero t →
  let '(k, v, found) := LongestPrefix zero t s in
  (found = true →
     k `prefix_of` s ∧ Get zero t k = (v, true) ∧
     ∀ k', k' `prefix_of` s → (Get zero t k').2 = true →
       length k' ≤ length k) ∧
  (found = false ↔ ∀ k', k' `prefix_of` s → (Get zero t k').2 = false).
Proof.
  intros Hwf%reachable_wf. pose proof Hwf as (Hwfn & _).
  unfold LongestPrefix.
  destruct (LongestPrefix_loop_spec (root t) [] None s Hwfn)
    as [(s1 & lf & Hpre & Hf & -> & Hmax)|[-> Hnone]].
  - pose proof (find_leaf_key _ _ _ _ Hwfn Hf) as Hk. simpl in Hk.
    rewrite Hk. split.
    + intros _. split_and!; [done| |].
      * apply Get_found. unfold stored. by rewrite Hf.
      * intros k' Hpre' Hg. apply Hmax; [done|].
        rewrite (Get_stored zero) in Hg. unfold stored in Hg.
        destruct (find_leaf (root t) k'); [by eexists|done].
    + split; [done|]. intros Hall. specialize (Hall s1 Hpre).
      apply Get_absent in Hall. unfold stored in Hall. by rewrite Hf in Hall.
  - split; [done|]. split; [|done]. intros _ k' Hpre.
    apply Get_absent. unfold stored. by rewrite Hnone.
Qed.

(** *** DeletePrefix *)

Lemma filter_length_partition {A : Type} (P : A → Prop)
    `{!∀ x, Decision (P x)} (xs : list A) :
  length (filter P xs) + length (filter (λ x, ¬ P x) xs) = length xs.
Proof.
  induction xs as [|x xs IH]; [done|]. rewrite !filter_cons.
  destruct (decide (P x)); destruct (decide (¬ P x)); simpl; try done; lia.
Qed.

Lemma NoDup_pairs (kvs : list (key * T)) : NoDup kvs.*1 → NoDup kvs.
Proof. apply NoDup_fmap_1. Qed.

(** X12. DeletePrefix on a reachable tree: it removes from what Get finds exactly
    the keys that begin with [p], returns how many stored keys begin with
    [p], and lowers Len by that number. *)
Lemma DeletePrefix_removes t p :
  reachable zero t →
  ∃ t' cnt,
    DeletePrefix t p = Some (t', cnt) ∧
    (∀ k, Get zero t' k =
       if decide (p `prefix_of` k) then (zero, false) else Get zero t k) ∧
    cnt = Z.of_nat (length (filter (λ kv, p `prefix_of` kv.1) (walked t))) ∧
    Len t' = (Len t - cnt)%Z.
Proof.
  intros Hwf%reachable_wf.
  destruct (DeletePrefix_spec t p Hwf) as (t' & cnt & Heq & Hwf' & Hsz & Hst).
  exists t', cnt. split_and!; [done| | |done].
  - intros k. rewrite !(Get_stored zero), Hst. by destruct (decide _).
  - assert (walked t' ≡ₚ filter (λ kv, ¬ p `prefix_of` kv.1) (walked t)) as Hperm.
    { apply NoDup_Permutation.
      - by apply NoDup_pairs, walked_NoDup.
      - by apply NoDup_filter, NoDup_pairs, walked_NoDup.
      - intros [k v]. rewrite list_elem_of_filter; simpl.
        rewrite !walked_stored by done. rewrite Hst.
        destruct (decide (p `prefix_of` k)); split; try done.
        + by intros [? _].
        + by intros [_ ?]. }
    apply Permutation_length in Hperm.
    pose proof (filter_length_partition (λ kv : key * T, p `prefix_of` kv.1)
                  (walked t)) as Hpart.
    pose proof (Len_walked t Hwf) as Hl. pose proof (Len_walked t' Hwf') as Hl'.
    unfold Len in *. lia.
Qed.

End WalkAndLongestPrefix.

Section Descend.
Context {T : Type}.
Implicit Types (n cur child : node T).
Implicit Types (l b : byte) (s p path pre k rest : key) (lf : leafNode T) (v : T).

Lemma descend_cons n l s :
  descend n (l :: s) =
    match getEdge n l with
    | None => (n, l :: s)
    | Some child =>
        if HasPrefix (l :: s) (prefix child)
        then descend child (drop (length (prefix child)) (l :: s))
        else (n, l :: s)
    end.
Proof.
  simp descend. destruct (inspect (getEdge n l)) as [[child|] H];
    simpl; by rewrite H.
Qed.

End Descend.

Section DeletePrefixInside.
Context {T : Type} (zero : T).
Implicit Types (t : Tree T) (n cur child : node T).
Implicit Types (l b : byte) (s p path pre k rest : key) (lf : leafNode T) (v : T).

Lemma cut_block_total is_root n l child :
  is_Some (cut_block is_root n l child).
Proof.
  unfold cut_block.
  destruct (negb is_root && _ && _) eqn:Hc; [|done].
  apply andb_true_iff in Hc as [[_ Hlen]%andb_true_iff _].
  apply bool_decide_eq_true in Hlen. unfold mergeChild.
  destruct (edges _) as [|e ?]; [done|]. by eexists.
Qed.

(** When the descent along [p] stops in front of a child whose prefix
    properly extends what is left of [p], [deletePrefix] cuts that child. *)
Lemma deletePrefix_descend n : ∀ is_root p cur rest l child,
  descend n p = (cur, rest) → head rest = Some l →
  getEdge cur l = Some child →
  rest `prefix_of` prefix child → rest ≠ prefix child →
  ∃ n', deletePrefix is_root n p = Some (Under n' (subTreeSize child)).
Proof.
  induction n as [n IH] using node_ind_size.
  intros is_root [|l0 s] cur rest l child Hd Hh Hg Hpre Hne.
  { simp descend in Hd. by injection Hd as <- <-. }
  rewrite descend_cons in Hd. rewrite deletePrefix_cons.
  assert (Hstop : (n, l0 :: s) = (cur, rest) →
    ∃ n', match getEdge n l0 with
          | Some child0 =>
              if negb (HasPrefix (prefix child0) (l0 :: s))
                 && negb (HasPrefix (l0 :: s) (prefix child0))
              then Some NoMatch
              else
                let rest0 :=
                  if decide (length (l0 :: s) < length (prefix child0))
                  then drop (length (l0 :: s)) (l0 :: s)
                  else drop (length (prefix child0)) (l0 :: s) in
                deletePrefix false child0 rest0 ≫= λ r,
                  match r with
                  | NoMatch => Some NoMatch
                  | Exhausted =>
                      cut_block is_root n l0 child0 ≫= λ current',
                        Some (Under current' (subTreeSize child0))
                  | Under child' k => Some (Under (putChild n l0 child') k)
                  end
          | None => Some NoMatch
          end = Some (Under n' (subTreeSize child))).
  { intros [= <- <-]. simpl in Hh. injection Hh as <-. rewrite Hg.
    apply HasPrefix_spec in Hpre as Hp. rewrite Hp.
    cbn [negb andb]. cbv zeta. rewrite decide_True.
    2:{ pose proof (prefix_length _ _ Hpre) as Hlen.
        destruct (decide (length (l0 :: s) = length (prefix child))) as [Heq|];
          [|lia].
        destruct Hne. destruct Hpre as [r Hr].
        rewrite Hr, length_app in Heq.
        assert (r = []) as -> by (apply nil_length_inv; lia).
        by rewrite (right_id_L [] (++)) in Hr. }
    rewrite drop_all, deletePrefix_nil. cbn [mbind option_bind].
    destruct (cut_block_total is_root n l0 child) as [n' ->]. by eexists. }
  destruct (getEdge n l0) as [child0|] eqn:Hg0; [|by apply Hstop].
  destruct (HasPrefix (l0 :: s) (prefix child0)) eqn:Hp0; [|by apply Hstop].
  rewrite andb_false_r. cbv zeta.
  pose proof Hp0 as Hlen%HasPrefix_spec%prefix_length.
  rewrite decide_False by lia.
  destruct (IH child0 (getEdge_size _ _ _ _ Hg0) false _ _ _ _ _
              Hd Hh Hg Hpre Hne) as [n' ->]. simpl. by eexists.
Qed.

(** The descent keeps track of the path. *)
Lemma descend_path n : ∀ path p cur rest,
  wf_node path n → descend n p = (cur, rest) →
  ∃ path', p = path' ++ rest ∧ wf_node (path ++ path') cur ∧
    ∀ s, find_leaf n (path' ++ s) = find_leaf cur s.
Proof.
  induction n as [n IH] using node_ind_size.
  intros path [|l0 s] cur rest Hwf Hd.
  { simp descend in Hd. injection Hd as <- <-. exists [].
    rewrite (right_id_L [] (++) path). split; [done|]. split; [done|].
    intros s'. by simpl. }
  rewrite descend_cons in Hd.
  assert (Hstop : (n, l0 :: s) = (cur, rest) →
    ∃ path', l0 :: s = path' ++ rest ∧ wf_node (path ++ path') cur ∧
      ∀ s', find_leaf n (path' ++ s') = find_leaf cur s').
  { intros [= <- <-]. exists []. rewrite (right_id_L [] (++) path).
    split; [done|]. split; [done|]. intros s'. by simpl. }
  destruct (getEdge n l0) as [child0|] eqn:Hg0; [|by apply Hstop].
  destruct (HasPrefix (l0 :: s) (prefix child0)) eqn:Hp0; [|by apply Hstop].
  clear Hstop.
  apply HasPrefix_spec in Hp0 as [r Hr].
  rewrite Hr, drop_app_length in Hd.
  destruct (wf_getEdge _ _ _ _ Hwf Hg0) as [Hh0 Hc0].
  destruct (IH child0 (getEdge_size _ _ _ _ Hg0) _ _ _ _ Hc0 Hd)
    as (path' & Hpath & Hwf' & Hfind').
  exists (prefix child0 ++ path'). rewrite Hr, Hpath.
  split; [by rewrite (assoc (++))|]. split; [by rewrite (assoc (++))|].
  intros s'. rewrite <- Hfind', <- (assoc (++)).
  assert (∃ pc, prefix child0 = l0 :: pc) as [pc Hpc].
  { destruct (prefix child0) as [|l' pc]; [done|].
    simpl in Hh0. injection Hh0 as ->. by exists pc. }
  rewrite Hpc at 1. simpl.
  rewrite (find_leaf_getEdge n l0 child0 _ Hg0).
  change (l0 :: pc ++ path' ++ s') with ((l0 :: pc) ++ path' ++ s').
  by rewrite <- Hpc, find_at_app.
Qed.

(** C10. On every reachable tree, when the descent along p stops at a node
    in front of a child whose prefix has what is left of p as a proper
    byte-prefix, DeletePrefix(p) returns the number of leaves in that
    child's subtree (the count its own walk of the subtree gives), every key
    in that subtree begins with p and was found by Get before the call, and
    after the call Get finds none of them, and finds every key that does not
    begin with p as before. *)
Theorem DeletePrefix_inside_edge t p cur rest l child :
  reachable zero t →
  descend (root t) p = (cur, rest) → head rest = Some l →
  getEdge cur l = Some child →
  rest `prefix_of` prefix child → rest ≠ prefix child →
  ∃ t',
    DeletePrefix t p = Some (t', subTreeSize child) ∧
    subTreeSize child =
      Z.of_nat (length (recursiveWalk child (record (T:=T)) []).2) ∧
    (∀ k v, (k, v) ∈ (recursiveWalk child (record (T:=T)) []).2 →
       p `prefix_of` k ∧ Get zero t k = (v, true) ∧
       (Get zero t' k).2 = false) ∧
    (∀ k, ¬ p `prefix_of` k → Get zero t' k = Get zero t k).
Proof.
  intros Hreach Hd Hh Hg Hpre Hne.
  pose proof (reachable_wf zero t Hreach) as Hwf.
  pose proof Hwf as (Hwfn & _).
  destruct (DeletePrefix_removes zero t p Hreach)
    as (t' & cnt & Heq & Hget & _ & _).
  destruct (deletePrefix_descend (root t) true p cur rest l child
              Hd Hh Hg Hpre Hne) as [n' Hdp].
  assert (cnt = subTreeSize child) as ->.
  { unfold DeletePrefix in Heq. rewrite Hdp in Heq. simpl in Heq. congruence. }
  exists t'. rewrite recursiveWalk_visit, visit_record; simpl.
  split_and!; [done|by rewrite subTreeSize_count| |].
  - intros k v Hin.
    destruct (descend_path (root t) [] p cur rest Hwfn Hd)
      as (path' & -> & Hwfc & Hfind). simpl in Hwfc.
    destruct (wf_getEdge _ _ _ _ Hwfc Hg) as [Hhc Hc].
    apply (entries_find _ _ _ _ Hc) in Hin as (s & -> & Hf).
    assert (path' ++ rest `prefix_of` (path' ++ prefix child) ++ s) as Hpk.
    { rewrite <- (assoc (++)). apply prefix_app.
      etrans; [done|]. by apply prefix_app_r. }
    split_and!; [done| |].
    + apply Get_found. unfold stored.
      rewrite <- (assoc (++)), Hfind.
      assert (∃ pc, prefix child = l :: pc) as [pc Hpc].
      { destruct (prefix child) as [|l' pc]; [done|].
        simpl in Hhc. injection Hhc as ->. by exists pc. }
      rewrite Hpc at 1. simpl.
      rewrite (find_leaf_getEdge cur l child _ Hg).
      change (l :: pc ++ s) with ((l :: pc) ++ s).
      by rewrite <- Hpc, find_at_app, Hf.
    + rewrite Hget. by rewrite decide_True.
  - intros k Hnp. rewrite Hget. by rewrite decide_False.
Qed.

End DeletePrefixInside.

(** ** Histories of calls *)

Section Runs.
Context {T : Type} (zero : T).

Lemma run_reachable (ops : list op) : ∀ t t' : Tree T,
  reachable zero t → run zero ops t = Some t' → reachable zero t'.
Proof.
  induction ops as [|o ops IH]; intros t t' Hr; simpl.
  - by intros [= <-].
  - destruct (apply_op zero t o) as [t1|] eqn:Ho; [|done]. simpl.
    apply IH. destruct o as [k v|k|p]; simpl in Ho.
    + destruct (Insert zero t k v) as [[[t2 old] upd]|] eqn:Hi; [|done].
      injection Ho as <-. by eapply reach_Insert.
    + destruct (Delete zero t k) as [[[t2 old] del]|] eqn:Hi; [|done].
      injection Ho as <-. by eapply reach_Delete.
    + destruct (DeletePrefix t p) as [[t2 cnt]|] eqn:Hi; [|done].
      injection Ho as <-. by eapply reach_DeletePrefix.
Qed.

Lemma run_app (ops1 ops2 : list op) (t : Tree T) :
  run zero (ops1 ++ ops2) t = t' ← run zero ops1 t; run zero ops2 t'.
Proof.
  revert t. induction ops1 as [|o ops1 IH]; intros t; simpl; [done|].
  destruct (apply_op zero t o) as [t1|]; simpl; [apply IH|done].
Qed.

End Runs.

Lemma example_tree_run : run 0%Z example_ops New = Some example_tree.
Proof. vm_compute. reflexivity. Qed.

Lemma fork_tree_run : run 0%Z fork_ops New = Some fork_tree.
Proof. vm_compute. reflexivity. Qed.

(** ** The claims that the code does not meet *)

(** C2. The compression invariant does not survive DeletePrefix: after
    Insert("ab"), Insert("ac") every node below the root has a leaf or two
    edges, and DeletePrefix("ab") then returns 1 and leaves a node below the
    root with no leaf and no edge at all. *)
Theorem DeletePrefix_breaks_compression :
  ∃ t t' : Tree Z,
    run 0%Z [OpInsert kab 1%Z; OpInsert kac 2%Z] New = Some t ∧
    compressed_below (root t) = true ∧
    DeletePrefix t kab = Some (t', 1%Z) ∧
    compressed_below (root t') = false.
Proof.
  eexists _, _. split; [vm_compute; reflexivity|].
  split; [vm_compute; reflexivity|].
  split; vm_compute; reflexivity.
Qed.

(** C3. Minimum and Maximum report found=false on trees that hold a key:
    after Insert("a"), Insert("b"), DeletePrefix("a") the tree holds "b"
    (Len is 1, Get finds it) and Minimum returns found=false; after
    DeletePrefix("b") instead, the tree holds "a" and Maximum returns
    found=false. *)
Theorem Minimum_Maximum_miss_stored_key :
  ∃ t1 t2 : Tree Z,
    run 0%Z [OpInsert ka 1%Z; OpInsert kb 2%Z; OpDeletePrefix ka] New = Some t1 ∧
    Len t1 = 1%Z ∧ Get 0%Z t1 kb = (2%Z, true) ∧
    Minimum 0%Z t1 = ([], 0%Z, false) ∧
    run 0%Z [OpInsert ka 1%Z; OpInsert kb 2%Z; OpDeletePrefix kb] New = Some t2 ∧
    Len t2 = 1%Z ∧ Get 0%Z t2 ka = (1%Z, true) ∧
    Maximum 0%Z t2 = ([], 0%Z, false).
Proof.
  eexists _, _. split; [vm_compute; reflexivity|].
  split; [vm_compute; reflexivity|].
  split; [vm_compute; reflexivity|].
  split; [vm_compute; reflexivity|].
  split; [vm_compute; reflexivity|].
  split; [vm_compute; reflexivity|].
  split; vm_compute; reflexivity.
Qed.

(** C4. A walk whose visitor deletes the key it is visiting skips a key:
    on the tree holding "a" and "ab" the visitor is called on "a" only, and
    the walk ends with Len 1 and "ab" still stored. *)
Theorem Walk_self_pruning_skips_key :
  match self_pruning_walk 0%Z 100 [(ka, 1%Z); (kab, 2%Z)] (Heap.New []) with
  | Heap.Ok (n0, n1) st =>
      n0 = 2%Z ∧ n1 = 1%Z ∧ Heap.user st = [ka] ∧
      match Heap.Get 0%Z 100 kab st with
      | Heap.Ok r _ => r = (2%Z, true)
      | _ => False
      end
  | _ => False
  end.
Proof. vm_compute. repeat split. Qed.

(** C5. A DeletePrefix that matches no stored key can change the tree: the
    calls below leave a tree that stores no key at all, on which
    DeletePrefix("ab") returns 0 and a tree with other nodes. *)
Theorem DeletePrefix_no_match_changes_tree :
  ∃ t t' : Tree Z,
    run 0%Z [OpInsert ka 1%Z; OpDeletePrefix ka; OpInsert kabc 1%Z;
             OpInsert kabd 2%Z; OpDeletePrefix kabc; OpDelete kabd] New
      = Some t ∧
    walked t = [] ∧
    DeletePrefix t kab = Some (t', 0%Z) ∧
    t' ≠ t.
Proof.
  eexists _, _. split; [vm_compute; reflexivity|].
  split; [vm_compute; reflexivity|].
  split; [vm_compute; reflexivity|].
  vm_compute. discriminate.
Qed.

(** The store model and the value model agree on the calls used above. *)
Example heap_agrees_on_examples :
  map (heap_tree_after 0%Z 100)
    [ example_ops; fork_ops;
      [OpInsert kab 1%Z; OpInsert kac 2%Z; OpDeletePrefix kab];
      [OpInsert ka 1%Z; OpInsert kb 2%Z; OpDeletePrefix ka];
      [OpInsert ka 1%Z; OpDeletePrefix ka; OpInsert kabc 1%Z;
       OpInsert kabd 2%Z; OpDeletePrefix kabc; OpDelete kabd; OpDeletePrefix kab];
      example_ops ++ [OpDelete kab; OpDelete ka; OpInsert kac 5%Z; OpDelete kb] ]
  = map (λ ops, run 0%Z ops New)
    [ example_ops; fork_ops;
      [OpInsert kab 1%Z; OpInsert kac 2%Z; OpDeletePrefix kab];
      [OpInsert ka 1%Z; OpInsert kb 2%Z; OpDeletePrefix ka];
      [OpInsert ka 1%Z; OpDeletePrefix ka; OpInsert kabc 1%Z;
       OpInsert kabd 2%Z; OpDeletePrefix kabc; OpDelete kabd; OpDeletePrefix kab];
      example_ops ++ [OpDelete kab; OpDelete ka; OpInsert kac 5%Z; OpDelete kb] ].
Proof. vm_compute. reflexivity. Qed.

(** ** Instances of the claims on the example trees *)

Lemma Insert_returns_previous_witness :
  reachable 0%Z example_tree ∧
  (∀ v0, Get 0%Z example_tree kab = (v0, true) →
     ∃ t', Insert 0%Z example_tree kab 7%Z = Some (t', v0, true)) ∧
  ((Get 0%Z example_tree kab).2 = false →
     ∃ t', Insert 0%Z example_tree kab 7%Z = Some (t', 0%Z, false)).
Proof.
  assert (Hr : reachable 0%Z example_tree).
  { apply (run_reachable 0%Z example_ops New); [constructor|].
    vm_compute. reflexivity. }
  split; [exact Hr|].
  exact (Insert_returns_previous 0%Z example_tree kab 7%Z Hr).
Defined.

Lemma Delete_present_absent_witness :
  reachable 0%Z example_tree ∧
  (∀ v0, Get 0%Z example_tree kab = (v0, true) →
     ∃ t', Delete 0%Z example_tree kab = Some (t', v0, true) ∧
           (Get 0%Z t' kab).2 = false) ∧
  ((Get 0%Z example_tree kab).2 = false →
     Delete 0%Z example_tree kab = Some (example_tree, 0%Z, false)).
Proof.
  assert (Hr : reachable 0%Z example_tree).
  { apply (run_reachable 0%Z example_ops New); [constructor|].
    vm_compute. reflexivity. }
  split; [exact Hr|].
  exact (Delete_present_absent 0%Z example_tree kab Hr).
Defined.

Lemma Walk_ascending_ToMap_keys_witness :
  reachable 0%Z example_tree ∧
  (∀ (S : Type) (fn : key → Z → S → bool * S) (st : S),
     StronglySorted key_lt (Walk example_tree (logged fn) (st, [])).2.*1) ∧
  (∀ k, is_Some (ToMap example_tree !! k) ↔ (Get 0%Z example_tree k).2 = true).
Proof.
  assert (Hr : reachable 0%Z example_tree).
  { apply (run_reachable 0%Z example_ops New); [constructor|].
    vm_compute. reflexivity. }
  split; [exact Hr|].
  exact (Walk_ascending_ToMap_keys 0%Z example_tree Hr).
Defined.

Lemma LongestPrefix_correct_witness :
  reachable 0%Z example_tree ∧
  let '(k, v, found) := LongestPrefix 0%Z example_tree kabd in
  (found = true →
     k `prefix_of` kabd ∧ Get 0%Z example_tree k = (v, true) ∧
     ∀ k', k' `prefix_of` kabd → (Get 0%Z example_tree k').2 = true →
       length k' ≤ length k) ∧
  (found = false ↔
     ∀ k', k' `prefix_of` kabd → (Get 0%Z example_tree k').2 = false).
Proof.
  assert (Hr : reachable 0%Z example_tree).
  { apply (run_reachable 0%Z example_ops New); [constructor|].
    vm_compute. reflexivity. }
  split; [exact Hr|].
  exact (LongestPrefix_correct 0%Z example_tree kabd Hr).
Defined.

Lemma DeletePrefix_inside_edge_witness :
  reachable 0%Z fork_tree ∧
  descend (root fork_tree) ka = (root fork_tree, ka) ∧
  getEdge (root fork_tree) "a"%byte = Some fork_child ∧
  ka `prefix_of` prefix fork_child ∧ ka ≠ prefix fork_child ∧
  ∃ t', DeletePrefix fork_tree ka = Some (t', subTreeSize fork_child) ∧
    subTreeSize fork_child =
      Z.of_nat (length (recursiveWalk fork_child (record (T:=Z)) []).2) ∧
    (∀ k v, (k, v) ∈ (recursiveWalk fork_child (record (T:=Z)) []).2 →
       ka `prefix_of` k ∧ Get 0%Z fork_tree k = (v, true) ∧
       (Get 0%Z t' k).2 = false) ∧
    (∀ k, ¬ ka `prefix_of` k → Get 0%Z t' k = Get 0%Z fork_tree k).
Proof.
  assert (Hr : reachable 0%Z fork_tree).
  { apply (run_reachable 0%Z fork_ops New); [constructor|].
    vm_compute. reflexivity. }
  assert (Hd : descend (root fork_tree) ka = (root fork_tree, ka)).
  { vm_compute. reflexivity. }
  assert (Hg : getEdge (root fork_tree) "a"%byte = Some fork_child).
  { vm_compute. reflexivity. }
  assert (Hp : ka `prefix_of` prefix fork_child).
  { exists ["b"%byte]. vm_compute. reflexivity. }
  assert (Hn : ka ≠ prefix fork_child).
  { vm_compute. discriminate. }
  split; [exact Hr|]. split; [exact Hd|]. split; [exact Hg|].
  split; [exact Hp|]. split; [exact Hn|].
  exact (DeletePrefix_inside_edge 0%Z fork_tree ka (root fork_tree) ka
           "a"%byte fork_child Hr Hd eq_refl Hg Hp Hn).
Defined.

(** ** The compression invariant under Insert and Delete *)

Section Compression.
Context {T : Type} (zero : T).
Implicit Types (t : Tree T) (n cur parent child : node T) (e : edge_ (node T)).
Implicit Types (l b : byte) (s p path pre k : key) (lf : leafNode T) (v : T).

Lemma compressed_below_unfold n :
  compressed_below n =
    forallb (λ e, compressed_node (enode e) && compressed_below (enode e))
      (edges n).
Proof. by destruct n. Qed.

Lemma compressed_below_spec n :
  compressed_below n = true ↔
  ∀ e, e ∈ edges n →
    compressed_node (enode e) = true ∧ compressed_below (enode e) = true.
Proof.
  rewrite compressed_below_unfold, forallb_forall. split.
  - intros H e He. apply andb_true_iff, H. by apply list_elem_of_In.
  - intros H e He. apply andb_true_iff, H. by apply list_elem_of_In.
Qed.

Lemma compressed_below_edges n n' :
  edges n' = edges n → compressed_below n' = compressed_below n.
Proof. intros H. by rewrite !compressed_below_unfold, H. Qed.

Lemma compressed_below_no_edges n : edges n = [] → compressed_below n = true.
Proof. intros H. by rewrite compressed_below_unfold, H. Qed.

Lemma compressed_node_spec n :
  compressed_node n = true ↔ is_Some (leaf n) ∨ 2 ≤ length (edges n).
Proof.
  unfold compressed_node, isLeaf.
  rewrite orb_true_iff, !bool_decide_eq_true. done.
Qed.

Lemma compressed_getEdge n l c :
  compressed_below n = true → getEdge n l = Some c →
  compressed_node c = true ∧ compressed_below c = true.
Proof.
  intros Hc Hg%getEdge_elem.
  by apply (proj1 (compressed_below_spec n) Hc) in Hg.
Qed.

Lemma length_addEdge n e : length (edges (addEdge n e)) = S (length (edges n)).
Proof.
  unfold addEdge; simpl. rewrite length_app; simpl.
  rewrite <- (take_drop (searchLabel n (label e)) (edges n)) at 3.
  rewrite length_app. lia.
Qed.

Lemma leaf_addEdge n e : leaf (addEdge n e) = leaf n.
Proof. done. Qed.

Lemma length_putChild n l c : length (edges (putChild n l c)) = length (edges n).
Proof. unfold putChild; simpl. by rewrite length_insert. Qed.

Lemma leaf_putChild n l c : leaf (putChild n l c) = leaf n.
Proof. done. Qed.

Lemma length_delEdge n l c0 :
  getEdge n l = Some c0 → S (length (edges (delEdge n l))) = length (edges n).
Proof.
  intros Hg. rewrite (delEdge_edges _ _ _ Hg).
  rewrite (getEdge_split _ _ _ Hg) at 3.
  rewrite !length_app. simpl. lia.
Qed.

Lemma compressed_addEdge n e :
  compressed_below n = true → compressed_node (enode e) = true →
  compressed_below (enode e) = true → compressed_below (addEdge n e) = true.
Proof.
  intros Hn He1 He2. apply compressed_below_spec. intros e'.
  rewrite addEdge_elem. intros [->|Hin]; [done|].
  by apply (proj1 (compressed_below_spec n) Hn).
Qed.

Lemma compressed_putChild n l c0 c :
  sorted (edges n) → getEdge n l = Some c0 →
  compressed_below n = true → compressed_node c = true →
  compressed_below c = true → compressed_below (putChild n l c) = true.
Proof.
  intros Hs Hg Hn Hc1 Hc2. apply compressed_below_spec. intros e'.
  rewrite (putChild_elem _ _ _ _ _ Hs Hg). intros [->|[Hin _]]; [done|].
  by apply (proj1 (compressed_below_spec n) Hn).
Qed.

Lemma compressed_delEdge n l c0 :
  sorted (edges n) → getEdge n l = Some c0 →
  compressed_below n = true → compressed_below (delEdge n l) = true.
Proof.
  intros Hs Hg Hn. apply compressed_below_spec. intros e'.
  rewrite (delEdge_elem _ _ _ _ Hs Hg). intros [Hin _].
  by apply (proj1 (compressed_below_spec n) Hn).
Qed.

Lemma compressed_node_mono n n' :
  compressed_node n = true →
  (is_Some (leaf n) → is_Some (leaf n')) →
  length (edges n) ≤ length (edges n') →
  compressed_node n' = true.
Proof.
  rewrite !compressed_node_spec. intros [Hl|Hl] H1 H2; [left; auto|right; lia].
Qed.

Lemma compressed_split_child cur (search path : key) value b :
  compressed_node cur = true → compressed_below cur = true →
  compressed_node (split_child cur search path value b) = true ∧
  compressed_below (split_child cur search path value b) = true.
Proof.
  intros Hc1 Hc2. unfold split_child.
  set (cur2 := set_prefix cur _).
  assert (compressed_node cur2 = true) as H1 by done.
  assert (compressed_below cur2 = true) as H2
    by (by rewrite (compressed_below_edges cur cur2)).
  rewrite addEdge_empty.
  destruct (drop _ search) as [|c' s'].
  - split; [done|]. apply compressed_below_spec. simpl.
    by intros e ->%list_elem_of_singleton.
  - split.
    + apply compressed_node_spec. right. by rewrite length_addEdge.
    + apply compressed_addEdge; [|done..].
      apply compressed_below_spec. simpl.
      by intros e ->%list_elem_of_singleton.
Qed.

Lemma Insert_loop_compressed n :
  ∀ pre path (search : key) (value : T) (sz : Z) n' sz' ex (up : bool),
  wf_node pre n → compressed_below n = true →
  Insert_loop zero path value sz n search = Some (n', sz', ex, up) →
  compressed_below n' = true ∧
  (is_Some (leaf n) → is_Some (leaf n')) ∧
  length (edges n) ≤ length (edges n').
Proof.
  induction n as [n IH] using node_ind_size.
  intros pre path [|l s] value sz n' sz' ex up Hwf Hc.
  - rewrite Insert_loop_nil.
    destruct (leaf n) as [lf|] eqn:Hl; intros [= <- <- <- <-].
    + split; [by rewrite (compressed_below_edges n)|].
      simpl. split; [by eexists|done].
    + split; [by rewrite (compressed_below_edges n)|].
      simpl. split; [by eexists|done].
  - pose proof (wf_sorted _ _ Hwf) as Hs.
    rewrite Insert_loop_cons.
    destruct (getEdge n l) as [cur|] eqn:Hg; simpl.
    + destruct (wf_getEdge _ _ _ _ Hwf Hg) as [Hh Hwc].
      destruct (compressed_getEdge _ _ _ Hc Hg) as [Hc1 Hc2].
      destruct (decide _) as [Hfull|Hpart].
      * destruct (Insert_loop zero path value sz cur _)
          as [[[[cur' sz1] ex1] up1]|] eqn:Heq; [|done].
        simpl. intros [= <- <- <- <-].
        destruct (IH cur (getEdge_size _ _ _ _ Hg) _ _ _ _ _ _ _ _ _
                    Hwc Hc2 Heq) as (Hc' & Hl' & Hn').
        split; [|by rewrite length_putChild].
        apply (compressed_putChild _ _ cur); [done..| |done].
        by apply (compressed_node_mono cur).
      * destruct (prefix cur !! _) as [b|] eqn:Hb; [|done]. simpl.
        rewrite (updateEdge_putChild n l cur) by done; simpl.
        intros [= <- <- <- <-].
        destruct (compressed_split_child cur (l :: s) path value b Hc1 Hc2)
          as [HX1 HX2].
        split; [|by rewrite length_putChild].
        by apply (compressed_putChild _ _ cur).
    + intros [= <- <- <- <-]. split; [|split; [done|]].
      * apply compressed_addEdge; [done|done|]. by apply compressed_below_no_edges.
      * rewrite length_addEdge. lia.
Qed.

Lemma mergeChild_compressed n n' :
  compressed_below n = true → mergeChild n = Some n' →
  compressed_node n' = true ∧ compressed_below n' = true.
Proof.
  intros Hc. unfold mergeChild.
  destruct (edges n !! 0) as [e|] eqn:He; [|done]. simpl. intros [= <-].
  apply list_elem_of_lookup_2 in He.
  destruct (proj1 (compressed_below_spec n) Hc e He) as [H1 H2].
  split; [done|]. by rewrite (compressed_below_edges (enode e)).
Qed.

(** The merge of a parent left with one child and no leaf. *)
Lemma merge_parent_compressed (is_root : bool) parent parent' :
  compressed_below parent = true →
  (is_root = false → is_Some (leaf parent) ∨ 1 ≤ length (edges parent)) →
  (if negb is_root && bool_decide (length (edges parent) = 1)
      && negb (isLeaf parent)
   then mergeChild parent else Some parent) = Some parent' →
  compressed_below parent' = true ∧
  (is_root = false → compressed_node parent' = true).
Proof.
  intros Hc Hweak.
  destruct (negb is_root && bool_decide (length (edges parent) = 1)
            && negb (isLeaf parent)) eqn:Htest.
  - intros Hm. by destruct (mergeChild_compressed _ _ Hc Hm).
  - intros [= <-]. split; [done|]. intros Hr.
    apply compressed_node_spec. rewrite Hr in Htest. simpl in Htest.
    destruct (Hweak Hr) as [Hl|Hn]; [by left|].
    apply andb_false_iff in Htest as [Ht|Ht].
    + apply bool_decide_eq_false in Ht. right. lia.
    + apply negb_false_iff in Ht. left.
      by apply bool_decide_eq_true in Ht.
Qed.

Lemma delete_block_compressed (is_root : bool) parent l cur parent' :
  sorted (edges parent) → getEdge parent l = Some cur →
  compressed_below parent = true →
  (is_root = false → compressed_node parent = true) →
  delete_block is_root parent l cur = Some parent' →
  compressed_below parent' = true ∧
  (is_root = false → compressed_node parent' = true).
Proof.
  intros Hs Hg Hc Hok. unfold delete_block.
  destruct (compressed_getEdge _ _ _ Hc Hg) as [Hc1 Hc2].
  assert (Hc0 : compressed_below (set_leaf cur None) = true)
    by (by rewrite (compressed_below_edges cur)).
  change (edges (set_leaf cur None)) with (edges cur).
  destruct (decide (length (edges cur) = 0)) as [H0|H0]; cbn [mbind option_bind].
  - apply merge_parent_compressed.
    + by apply (compressed_delEdge _ _ cur).
    + intros Hr. apply Hok, compressed_node_spec in Hr as [Hl|Hn].
      * left. by rewrite delEdge_leaf.
      * right. pose proof (length_delEdge _ _ _ Hg). lia.
  - destruct (decide (length (edges cur) = 1)) as [H1|H1].
    + destruct (mergeChild (set_leaf cur None)) as [cur1|] eqn:Hm; [|done].
      cbn [mbind option_bind].
      destruct (mergeChild_compressed _ _ Hc0 Hm) as [Hm1 Hm2].
      apply merge_parent_compressed.
      * by apply (compressed_putChild _ _ cur).
      * intros Hr. rewrite leaf_putChild, length_putChild.
        apply Hok, compressed_node_spec in Hr as [Hl|Hn]; [by left|right; lia].
    + cbn [mbind option_bind]. apply merge_parent_compressed.
      * apply (compressed_putChild _ _ cur); [done..| |done].
        apply compressed_node_spec. right. simpl. lia.
      * intros Hr. rewrite leaf_putChild, length_putChild.
        apply Hok, compressed_node_spec in Hr as [Hl|Hn]; [by left|right; lia].
Qed.

Lemma Delete_loop_compressed n : ∀ (is_root : bool) pre (search : key) n' v,
  wf_node pre n → compressed_below n = true →
  (is_root = false → compressed_node n = true) →
  Delete_loop is_root n search = Some (Below n' v) →
  compressed_below n' = true ∧ (is_root = false → compressed_node n' = true).
Proof.
  induction n as [n IH] using node_ind_size.
  intros is_root pre [|l s] n' v Hwf Hc Hok.
  - rewrite Delete_loop_nil. by destruct (isLeaf n).
  - pose proof (wf_sorted _ _ Hwf) as Hs.
    rewrite Delete_loop_cons.
    destruct (getEdge n l) as [cur|] eqn:Hg; [|done].
    destruct (wf_getEdge _ _ _ _ Hwf Hg) as [Hh Hwc].
    destruct (compressed_getEdge _ _ _ Hc Hg) as [Hc1 Hc2].
    destruct (HasPrefix _ _); [|done].
    destruct (Delete_loop false cur _) as [[| |cur' v']|] eqn:Hd;
      cbn [mbind option_bind]; [done| |..|done].
    + destruct (leaf cur) as [lf|]; [|done]. cbn [mbind option_bind].
      destruct (delete_block is_root n l cur) as [p'|] eqn:Hb; [|done].
      cbn [mbind option_bind]. intros [= <- <-].
      by apply (delete_block_compressed is_root n l cur).
    + intros [= <- <-].
      destruct (IH cur (getEdge_size _ _ _ _ Hg) false _ _ _ _ Hwc Hc2
                  (λ _, Hc1) Hd) as [Hc' Hok'].
      split.
      * apply (compressed_putChild _ _ cur); auto.
      * intros Hr. apply (compressed_node_mono n); [auto|done|].
        by rewrite length_putChild.
Qed.

Lemma compressed_Insert t k v t' old (upd : bool) :
  wf_tree t → compressed t → Insert zero t k v = Some (t', old, upd) →
  compressed t'.
Proof.
  intros (Hwf & _ & _) Hc. unfold Insert, compressed.
  destruct (Insert_loop zero k v (size t) (root t) k)
    as [[[[r' sz'] ex] up]|] eqn:Heq; [|done].
  simpl. intros [= <- <- <-]. simpl.
  by destruct (Insert_loop_compressed _ _ _ _ _ _ _ _ _ _ Hwf Hc Heq).
Qed.

Lemma compressed_Delete t k t' old (del : bool) :
  wf_tree t → compressed t → Delete zero t k = Some (t', old, del) →
  compressed t'.
Proof.
  intros (Hwf & _ & _) Hc. unfold Delete, compressed.
  destruct (Delete_loop true (root t) k) as [[| |r' v]|] eqn:Hd;
    cbn [mbind option_bind]; [by intros [= <- <- <-]| |..|done].
  - destruct (leaf (root t)) as [lf|]; [|done]. cbn [mbind option_bind].
    intros [= <- <- <-]. cbn [root].
    by rewrite (compressed_below_edges (root t)).
  - intros [= <- <- <-]. cbn [root].
    by destruct (Delete_loop_compressed _ true _ _ _ _ Hwf Hc
                   (λ H, False_ind _ (diff_true_false H)) Hd).
Qed.

End Compression.

(** ** Minimum and Maximum *)

Section MinMax.
Context {T : Type} (zero : T).
Implicit Types (t : Tree T) (n cur parent child : node T) (e : edge_ (node T)).
Implicit Types (l b : byte) (s p path pre k : key) (lf : leafNode T) (v : T).

Lemma entries_of_head_edge n e :
  edges n !! 0 = Some e → leaf n = None →
  entries n = entries (enode e) ++ entries_of (drop 1 (edges n)).
Proof.
  intros He Hl. rewrite entries_unfold, Hl. simpl.
  destruct (edges n) as [|e' es]; [done|]. injection He as ->.
  by rewrite entries_of_cons.
Qed.

Lemma entries_of_last_edge n e :
  edges n !! (length (edges n) - 1) = Some e →
  entries n =
    (leaf_entry (leaf n) ++ entries_of (take (length (edges n) - 1) (edges n)))
    ++ entries (enode e).
Proof.
  intros He. rewrite entries_unfold, <- (assoc_L (++)). f_equal.
  rewrite <- (take_drop (length (edges n) - 1) (edges n)) at 1.
  rewrite entries_of_app. f_equal.
  rewrite (drop_S _ _ _ He), drop_ge by lia.
  by rewrite entries_of_cons, entries_of_nil, (right_id_L [] (++)).
Qed.

(** What Minimum finds is the first pair in walking order. *)
Lemma Minimum_loop_sound n : ∀ k v,
  Minimum_loop zero n = (k, v, true) → head (entries n) = Some (k, v).
Proof.
  induction n as [n IH] using node_ind_size. intros k v.
  rewrite Minimum_loop_step.
  destruct (leaf n) as [lf|] eqn:Hl.
  - intros [= <- <-]. by rewrite entries_unfold, Hl.
  - destruct (edges n !! 0) as [e|] eqn:He; [|done].
    intros Hm. rewrite (entries_of_head_edge n e He Hl), head_app.
    rewrite (IH (enode e) (child_size _ _ _ (list_elem_of_lookup_2 _ _ _ He))
               k v Hm). done.
Qed.

Lemma Maximum_loop_sound n : ∀ k v,
  Maximum_loop zero n = (k, v, true) → last (entries n) = Some (k, v).
Proof.
  induction n as [n IH] using node_ind_size. intros k v.
  rewrite Maximum_loop_step.
  destruct (edges n !! (length (edges n) - 1)) as [e|] eqn:He.
  - intros Hm. rewrite (entries_of_last_edge n e He), last_app.
    rewrite (IH (enode e) (child_size _ _ _ (list_elem_of_lookup_2 _ _ _ He))
               k v Hm). done.
  - assert (edges n = []) as Hnil.
    { apply lookup_ge_None in He. destruct (edges n); [done|simpl in He; lia]. }
    rewrite entries_unfold, Hnil, entries_of_nil, (right_id_L [] (++)).
    destruct (leaf n) as [lf|]; [|done]. by intros [= <- <-].
Qed.

(** A compressed subtree holds a key. *)
Lemma compressed_entries n :
  compressed_node n = true → compressed_below n = true → entries n ≠ [].
Proof.
  induction n as [n IH] using node_ind_size. intros Hn Hb.
  rewrite entries_unfold.
  apply compressed_node_spec in Hn as [[lf Hl]|Hlen]; [by rewrite Hl|].
  destruct (edges n) as [|e es] eqn:He; [simpl in Hlen; lia|].
  assert (e ∈ edges n) as Hin by (rewrite He; left).
  destruct (proj1 (compressed_below_spec n) Hb e Hin) as [H1 H2].
  rewrite entries_of_cons. intros Happ.
  apply app_eq_nil in Happ as [_ Happ]. apply app_eq_nil in Happ as [Happ _].
  by apply (IH (enode e) (child_size _ _ _ Hin)).
Qed.

Lemma Minimum_loop_compressed n :
  compressed_below n = true →
  Minimum_loop zero n = first_pair zero (entries n).
Proof.
  induction n as [n IH] using node_ind_size. intros Hb.
  rewrite Minimum_loop_step. unfold first_pair.
  destruct (leaf n) as [lf|] eqn:Hl.
  - by rewrite entries_unfold, Hl.
  - destruct (edges n !! 0) as [e|] eqn:He.
    + assert (e ∈ edges n) as Hin by (by eapply list_elem_of_lookup_2).
      destruct (proj1 (compressed_below_spec n) Hb e Hin) as [H1 H2].
      rewrite (entries_of_head_edge n e He Hl), head_app.
      rewrite (IH (enode e) (child_size _ _ _ Hin) H2). unfold first_pair.
      pose proof (compressed_entries _ H1 H2) as Hne.
      by destruct (entries (enode e)) as [|[k v] kvs].
    + rewrite entries_unfold, Hl.
      by destruct (edges n).
Qed.

Lemma Maximum_loop_compressed n :
  compressed_below n = true →
  Maximum_loop zero n = last_pair zero (entries n).
Proof.
  induction n as [n IH] using node_ind_size. intros Hb.
  rewrite Maximum_loop_step. unfold last_pair.
  destruct (edges n !! (length (edges n) - 1)) as [e|] eqn:He.
  - assert (e ∈ edges n) as Hin by (by eapply list_elem_of_lookup_2).
    destruct (proj1 (compressed_below_spec n) Hb e Hin) as [H1 H2].
    rewrite (entries_of_last_edge n e He), last_app.
    rewrite (IH (enode e) (child_size _ _ _ Hin) H2). unfold last_pair.
    pose proof (compressed_entries _ H1 H2) as Hne.
    apply last_is_Some in Hne as [[k v] Hlast]. by rewrite Hlast.
  - assert (edges n = []) as Hnil.
    { apply lookup_ge_None in He. destruct (edges n); [done|simpl in He; lia]. }
    rewrite entries_unfold, Hnil, entries_of_nil, (right_id_L [] (++)).
    by destruct (leaf n) as [lf|].
Qed.

End MinMax.

(** ** Compression, Minimum and Maximum on reachable trees *)

Section CompressedTrees.
Context {T : Type} (zero : T).
Implicit Types (t : Tree T) (n cur parent child : node T) (e : edge_ (node T)).
Implicit Types (l b : byte) (s p path pre k : key) (lf : leafNode T) (v : T).

Lemma New_compressed : compressed (T:=T) New.
Proof. done. Qed.

Lemma run_compressed (ops : list op) : ∀ t t',
  forallb (λ o, negb (is_DeletePrefix o)) ops = true →
  reachable zero t → compressed t → run zero ops t = Some t' →
  compressed t'.
Proof.
  induction ops as [|o ops IH]; intros t t' Hops Hr Hc; simpl.
  - by intros [= <-].
  - simpl in Hops. apply andb_true_iff in Hops as [Ho Hops].
    destruct (apply_op zero t o) as [t1|] eqn:Happ; [|done]. simpl.
    assert (reachable zero t1) as Hr1
      by (apply (run_reachable zero [o] t); [done|by simpl; rewrite Happ]).
    apply IH; [done..|].
    destruct o as [k v|k|p]; simpl in Happ; [| |done].
    + destruct (Insert zero t k v) as [[[t2 old] upd]|] eqn:Hi; [|done].
      injection Happ as <-.
      exact (compressed_Insert zero t k v t2 old upd (reachable_wf zero t Hr) Hc Hi).
    + destruct (Delete zero t k) as [[[t2 old] del]|] eqn:Hi; [|done].
      injection Happ as <-.
      exact (compressed_Delete zero t k t2 old del (reachable_wf zero t Hr) Hc Hi).
Qed.

Lemma run_total (ops : list op) : ∀ t,
  reachable zero t → is_Some (run zero ops t).
Proof.
  induction ops as [|o ops IH]; intros t Hr; simpl; [by eexists|].
  pose proof (reachable_wf zero t Hr) as Hwf.
  assert (∃ t1, apply_op zero t o = Some t1) as [t1 Happ].
  { destruct o as [k v|k|p]; simpl.
    - destruct (Insert_spec zero t k v Hwf) as (t1 & ? & ? & -> & _).
      by eexists.
    - destruct (Delete_spec zero t k Hwf) as (t1 & ? & ? & -> & _).
      by eexists.
    - destruct (DeletePrefix_spec t p Hwf) as (t1 & ? & -> & _).
      by eexists. }
  rewrite Happ. simpl. apply IH.
  apply (run_reachable zero [o] t); [done|by simpl; rewrite Happ].
Qed.

Lemma walked_head_least t k v :
  wf_tree t → head (walked t) = Some (k, v) →
  Get zero t k = (v, true) ∧
  ∀ k', (Get zero t k').2 = true → k' = k ∨ key_lt k k'.
Proof.
  intros Hwf Hh. apply head_Some in Hh as [rest Hw]. split.
  - apply Get_found, walked_stored; [done|]. rewrite Hw. left.
  - intros k' Hk'.
    assert (k' ∈ (walked t).*1) as Hin.
    { apply elem_of_walked_keys; [done|].
      rewrite (Get_stored zero) in Hk'. by destruct (stored t k'). }
    pose proof (walked_sorted t Hwf) as Hs. rewrite Hw in Hin, Hs.
    simpl in Hin, Hs. apply StronglySorted_cons in Hs as [Hall _].
    apply elem_of_cons in Hin as [->|Hin]; [by left|right].
    by apply (proj1 (Forall_forall _ _) Hall).
Qed.

Lemma walked_last_greatest t k v :
  wf_tree t → last (walked t) = Some (k, v) →
  Get zero t k = (v, true) ∧
  ∀ k', (Get zero t k').2 = true → k' = k ∨ key_lt k' k.
Proof.
  intros Hwf Hh. apply last_Some in Hh as [rest Hw]. split.
  - apply Get_found, walked_stored; [done|]. rewrite Hw.
    apply elem_of_app. right. left.
  - intros k' Hk'.
    assert (k' ∈ (walked t).*1) as Hin.
    { apply elem_of_walked_keys; [done|].
      rewrite (Get_stored zero) in Hk'. by destruct (stored t k'). }
    pose proof (walked_sorted t Hwf) as Hs. rewrite Hw in Hin, Hs.
    rewrite fmap_app in Hin, Hs. simpl in Hin, Hs.
    apply elem_of_app in Hin as [Hin|Hin].
    + right. apply (StronglySorted_app_1_elem_of _ _ _ _ _ Hs Hin). left.
    + left. by apply list_elem_of_singleton in Hin.
Qed.

Lemma Len_zero_iff t :
  wf_tree t → Len t = 0%Z ↔ ∀ k, (Get zero t k).2 = false.
Proof.
  intros Hwf. rewrite (Len_walked t Hwf). split.
  - intros Hlen k. apply Get_absent.
    destruct (stored t k) as [v|] eqn:Hs; [|done].
    apply walked_stored in Hs; [|done].
    destruct (walked t); [by apply elem_of_nil in Hs|simpl in Hlen; lia].
  - intros Hnone. destruct (walked t) as [|[k v] kvs] eqn:Hw; [done|].
    assert ((k, v) ∈ walked t) as Hin by (rewrite Hw; left).
    apply walked_stored in Hin; [|done].
    specialize (Hnone k). apply Get_absent in Hnone. congruence.
Qed.

(** X15. Insert keeps the compression invariant and does not panic. *)
Theorem Insert_keeps_compression t k v :
  reachable zero t → compressed t →
  ∃ t' old upd, Insert zero t k v = Some (t', old, upd) ∧ compressed t'.
Proof.
  intros Hwf%reachable_wf Hc.
  destruct (Insert_spec zero t k v Hwf) as (t' & old & upd & Heq & _).
  exists t', old, upd. split; [done|].
  exact (compressed_Insert zero t k v t' old upd Hwf Hc Heq).
Qed.

(** X16. Delete keeps the compression invariant and does not panic. *)
Theorem Delete_keeps_compression t k :
  reachable zero t → compressed t →
  ∃ t' old del, Delete zero t k = Some (t', old, del) ∧ compressed t'.
Proof.
  intros Hwf%reachable_wf Hc.
  destruct (Delete_spec zero t k Hwf) as (t' & old & del & Heq & _).
  exists t', old, del. split; [done|].
  exact (compressed_Delete zero t k t' old del Hwf Hc Heq).
Qed.

(** Every list of Insert and Delete calls on New() runs without panic and
    ends in a compressed tree. *)
Theorem Insert_Delete_history_compressed (ops : list op) :
  forallb (λ o, negb (is_DeletePrefix o)) ops = true →
  ∃ t, run zero ops New = Some t ∧ compressed t.
Proof.
  intros Hops.
  destruct (run_total ops New (reach_New zero)) as [t Ht].
  exists t. split; [done|].
  by apply (run_compressed ops New t Hops (reach_New zero) New_compressed).
Qed.

(** X17. On every reachable tree, what Minimum returns with found=true is a
    stored pair, and no stored key is smaller. *)
Theorem Minimum_found_is_least t k v :
  reachable zero t → Minimum zero t = (k, v, true) →
  Get zero t k = (v, true) ∧
  ∀ k', (Get zero t k').2 = true → k' = k ∨ key_lt k k'.
Proof.
  intros Hwf%reachable_wf Hm. apply walked_head_least; [done|].
  rewrite walked_entries. by apply (Minimum_loop_sound zero).
Qed.

(** X19. On every reachable tree, what Maximum returns with found=true is a
    stored pair, and no stored key is greater. *)
Theorem Maximum_found_is_greatest t k v :
  reachable zero t → Maximum zero t = (k, v, true) →
  Get zero t k = (v, true) ∧
  ∀ k', (Get zero t k').2 = true → k' = k ∨ key_lt k' k.
Proof.
  intros Hwf%reachable_wf Hm. apply walked_last_greatest; [done|].
  rewrite walked_entries. by apply (Maximum_loop_sound zero).
Qed.

(** X18. On a compressed reachable tree, Minimum returns the first pair of the
    walk, and found=false exactly when the tree holds no key. *)
Theorem Minimum_on_compressed t :
  reachable zero t → compressed t →
  Minimum zero t = first_pair zero (walked t) ∧
  ((Minimum zero t).2 = false ↔ Len t = 0%Z).
Proof.
  intros Hwf%reachable_wf Hc.
  assert (Minimum zero t = first_pair zero (walked t)) as Heq
    by (rewrite walked_entries; by apply Minimum_loop_compressed).
  split; [done|]. rewrite Heq, (Len_walked t Hwf). unfold first_pair.
  destruct (walked t) as [|[k v] kvs]; simpl; [done|]. split; [done|lia].
Qed.

(** X20. On a compressed reachable tree, Maximum returns the last pair of the
    walk, and found=false exactly when the tree holds no key. *)
Theorem Maximum_on_compressed t :
  reachable zero t → compressed t →
  Maximum zero t = last_pair zero (walked t) ∧
  ((Maximum zero t).2 = false ↔ Len t = 0%Z).
Proof.
  intros Hwf%reachable_wf Hc.
  assert (Maximum zero t = last_pair zero (walked t)) as Heq
    by (rewrite walked_entries; by apply Maximum_loop_compressed).
  split; [done|]. rewrite Heq, (Len_walked t Hwf). unfold last_pair.
  destruct (walked t) as [|kv kvs _] using rev_ind; simpl; [done|].
  rewrite last_snoc, length_app. destruct kv as [k v]. simpl. split; [done|lia].
Qed.

End CompressedTrees.

(** ** WalkPrefix and WalkPath *)

Section PrefixWalks.
Context {T : Type}.
Implicit Types (t : Tree T) (n cur parent child : node T) (e : edge_ (node T)).
Implicit Types (es : list (edge_ (node T))) (kv : key * T).
Implicit Types (l b : byte) (s p path pre k : key) (lf : leafNode T) (v : T).

Lemma WalkPrefix_loop_nil {S : Type} n (fn : key → T → S → bool * S) st :
  WalkPrefix_loop n [] fn st = (recursiveWalk n fn st).2.
Proof. by simp WalkPrefix_loop. Qed.

Lemma WalkPrefix_loop_cons {S : Type} n l s (fn : key → T → S → bool * S) st :
  WalkPrefix_loop n (l :: s) fn st =
    match getEdge n l with
    | None => st
    | Some child =>
        if HasPrefix (l :: s) (prefix child)
        then WalkPrefix_loop child (drop (length (prefix child)) (l :: s)) fn st
        else if HasPrefix (prefix child) (l :: s)
        then (recursiveWalk child fn st).2
        else st
    end.
Proof.
  simp WalkPrefix_loop. destruct (inspect (getEdge n l)) as [[child|] H];
    simpl; by rewrite H.
Qed.

Lemma WalkPath_loop_nil {S : Type} n (fn : key → T → S → bool * S) st :
  WalkPath_loop n [] fn st = (visit_leaf n fn st).2.
Proof. by simp WalkPath_loop. Qed.

Lemma WalkPath_loop_cons {S : Type} n l s (fn : key → T → S → bool * S) st :
  WalkPath_loop n (l :: s) fn st =
    match getEdge n l with
    | None => (visit_leaf n fn st).2
    | Some child =>
        if (visit_leaf n fn st).1 then (visit_leaf n fn st).2
        else if HasPrefix (l :: s) (prefix child)
        then WalkPath_loop child (drop (length (prefix child)) (l :: s))
               fn (visit_leaf n fn st).2
        else (visit_leaf n fn st).2
    end.
Proof.
  simp WalkPath_loop. destruct (inspect (getEdge n l)) as [[child|] Hq];
    simpl; by rewrite Hq.
Qed.

Lemma filter_none {A : Type} (P : A → Prop) `{!∀ x, Decision (P x)}
    (xs : list A) :
  (∀ x, x ∈ xs → ¬ P x) → filter P xs = [].
Proof.
  induction xs as [|x xs IH]; intros Hall; [done|].
  rewrite filter_cons_False by (apply Hall; left).
  apply IH. intros y Hy. apply Hall. by right.
Qed.

Lemma filter_all {A : Type} (P : A → Prop) `{!∀ x, Decision (P x)}
    (xs : list A) :
  (∀ x, x ∈ xs → P x) → filter P xs = xs.
Proof.
  induction xs as [|x xs IH]; intros Hall; [done|].
  rewrite filter_cons_True by (apply Hall; left).
  f_equal. apply IH. intros y Hy. apply Hall. by right.
Qed.

(** Every key below a node extends the path of the node. *)
Lemma entries_extend_path path n kv :
  wf_node path n → kv ∈ entries n → path `prefix_of` kv.1.
Proof.
  destruct kv as [k v]. intros Hwf Hin.
  apply (entries_find n path k v Hwf) in Hin as (s & -> & _).
  by apply prefix_app_r.
Qed.

Lemma entries_extend_edge path n e kv :
  wf_node path n → e ∈ edges n → kv ∈ entries (enode e) →
  ∃ r x, prefix (enode e) = label e :: r ∧ kv.1 = path ++ (label e :: r) ++ x.
Proof.
  intros Hwf He Hin. destruct (wf_edge _ _ _ Hwf He) as [Hh Hwe].
  apply (entries_extend_path _ _ _ Hwe) in Hin as [x Hx].
  destruct (prefix (enode e)) as [|l' r] eqn:Hp; [done|].
  injection Hh as ->. exists r, x. split; [done|].
  by rewrite Hx, <- (assoc_L (++)).
Qed.

(** The pairs below the edges other than the one labelled [l]. *)
Lemma filter_entries_getEdge (P : key * T → Prop) `{!∀ x, Decision (P x)}
    path n l child :
  wf_node path n → getEdge n l = Some child →
  (∀ e kv, e ∈ edges n → label e ≠ l → kv ∈ entries (enode e) → ¬ P kv) →
  filter P (entries_of (edges n)) = filter P (entries child).
Proof.
  intros Hwf Hg Hother. pose proof (wf_sorted _ _ Hwf) as Hs.
  pose proof (getEdge_split _ _ _ Hg) as Hsplit.
  set (es1 := take (searchLabel n l) (edges n)) in *.
  set (es2 := drop (S (searchLabel n l)) (edges n)) in *.
  assert (∀ e, e ∈ es1 ++ es2 → e ∈ edges n ∧ label e ≠ l) as Hrest.
  { intros e He. split.
    - rewrite Hsplit. apply elem_of_app in He as [He|He].
      + apply elem_of_app. by left.
      + apply elem_of_app. right. by right.
    - rewrite Hsplit in Hs. apply (sorted_middle _ _ _ _ Hs He). }
  rewrite Hsplit, entries_of_app, entries_of_cons, !filter_app. simpl.
  rewrite (filter_none P (entries_of es1)), (filter_none P (entries_of es2)).
  - by rewrite (right_id_L [] (++)).
  - intros kv (e & He & Hkv)%elem_of_entries_of.
    destruct (Hrest e) as [H1 H2]; [apply elem_of_app; by right|].
    by apply (Hother e kv).
  - intros kv (e & He & Hkv)%elem_of_entries_of.
    destruct (Hrest e) as [H1 H2]; [apply elem_of_app; by left|].
    by apply (Hother e kv).
Qed.

Lemma filter_entries_no_edge (P : key * T → Prop) `{!∀ x, Decision (P x)}
    path n l :
  wf_node path n → getEdge n l = None →
  (∀ e kv, e ∈ edges n → label e ≠ l → kv ∈ entries (enode e) → ¬ P kv) →
  filter P (entries_of (edges n)) = [].
Proof.
  intros Hwf Hg Hother. pose proof (wf_sorted _ _ Hwf) as Hs.
  apply filter_none. intros kv (e & He & Hkv)%elem_of_entries_of.
  apply (Hother e kv He); [|done].
  by apply (proj1 (getEdge_None n l Hs) Hg).
Qed.

(** [WalkPrefix] visits the pairs below the node whose keys begin with the
    text searched for, in walking order. *)
Lemma WalkPrefix_loop_visit {S : Type} (fn : key → T → S → bool * S) n :
  ∀ path search st,
  wf_node path n →
  WalkPrefix_loop n search fn st =
    (visit fn (filter (λ kv, (path ++ search) `prefix_of` kv.1) (entries n))
       st).2.
Proof.
  induction n as [n IH] using node_ind_size.
  intros path [|l s] st Hwf.
  - rewrite WalkPrefix_loop_nil, recursiveWalk_visit, (right_id_L [] (++)).
    rewrite filter_all; [done|]. intros kv. by apply entries_extend_path.
  - rewrite WalkPrefix_loop_cons, entries_unfold, filter_app.
    assert (filter (λ kv, (path ++ l :: s) `prefix_of` kv.1)
              (leaf_entry (leaf n)) = []) as ->.
    { apply filter_none. intros [k v] Hin.
      apply elem_of_leaf_entry in Hin.
      pose proof (wf_leaf _ _ _ Hwf Hin) as Hk. simpl in Hk. subst k. simpl.
      intros [x Hx]. rewrite <- (assoc_L (++)) in Hx.
      rewrite <- (right_id_L [] (++) path) in Hx at 1.
      by apply app_inv_head in Hx. }
    simpl.
    assert (∀ e kv, e ∈ edges n → label e ≠ l → kv ∈ entries (enode e) →
              ¬ (path ++ l :: s) `prefix_of` kv.1) as Hother.
    { intros e kv He Hne Hkv Hpre.
      destruct (entries_extend_edge _ _ _ _ Hwf He Hkv) as (r & x & _ & Hk).
      rewrite Hk in Hpre. apply prefix_app_inv in Hpre.
      simpl in Hpre. by apply prefix_cons_inv_1 in Hpre. }
    destruct (getEdge n l) as [child|] eqn:Hg.
    + rewrite (filter_entries_getEdge _ path n l child Hwf Hg Hother).
      destruct (wf_getEdge _ _ _ _ Hwf Hg) as [Hh Hwc].
      destruct (HasPrefix (l :: s) (prefix child)) eqn:Hp1.
      * apply HasPrefix_spec in Hp1 as [rest Hrest].
        rewrite Hrest, drop_app_length.
        rewrite (IH child (getEdge_size _ _ _ _ Hg) (path ++ prefix child)
                   rest st Hwc).
        by rewrite <- (assoc_L (++)).
      * destruct (HasPrefix (prefix child) (l :: s)) eqn:Hp2.
        -- apply HasPrefix_spec in Hp2 as [r Hr].
           rewrite recursiveWalk_visit, filter_all; [done|].
           intros kv Hkv. apply (entries_extend_path _ _ _ Hwc) in Hkv.
           etrans; [|exact Hkv]. apply prefix_app. rewrite Hr.
           by apply prefix_app_r.
        -- rewrite filter_none; [done|]. intros kv Hkv Hpre.
           apply (entries_extend_path _ _ _ Hwc) in Hkv.
           destruct (prefix_weak_total _ _ _ Hpre Hkv) as [H1|H1];
             apply prefix_app_inv in H1.
           ++ apply HasPrefix_false in Hp2. by apply Hp2.
           ++ apply HasPrefix_false in Hp1. by apply Hp1.
    + by rewrite (filter_entries_no_edge _ path n l Hwf Hg Hother).
Qed.

Lemma visit_leaf_entry {S : Type} (fn : key → T → S → bool * S) n st :
  visit fn (leaf_entry (leaf n)) st =
    ((visit_leaf n fn st).1, (visit_leaf n fn st).2).
Proof.
  unfold visit_leaf. destruct (leaf n) as [lf|]; simpl; [|done].
  by destruct (fn (lkey lf) (val lf) st) as [[] st'].
Qed.

(** [WalkPath] visits the pairs below the node whose keys are prefixes of
    the path searched for, in walking order. *)
Lemma WalkPath_loop_visit {S : Type} (fn : key → T → S → bool * S) n :
  ∀ path search st,
  wf_node path n →
  WalkPath_loop n search fn st =
    (visit fn (filter (λ kv, kv.1 `prefix_of` (path ++ search)) (entries n))
       st).2.
Proof.
  induction n as [n IH] using node_ind_size.
  intros path search st Hwf.
  rewrite entries_unfold, filter_app.
  assert (filter (λ kv, kv.1 `prefix_of` (path ++ search))
            (leaf_entry (leaf n)) = leaf_entry (leaf n)) as ->.
  { apply filter_all. intros [k v] Hin.
    apply elem_of_leaf_entry in Hin.
    pose proof (wf_leaf _ _ _ Hwf Hin) as Hk. simpl in Hk. subst k. simpl.
    by apply prefix_app_r. }
  rewrite visit_app, visit_leaf_entry.
  destruct search as [|l s].
  - rewrite WalkPath_loop_nil.
    rewrite (filter_none _ (entries_of (edges n))).
    { by destruct (visit_leaf n fn st) as [[] st']. }
    intros kv (e & He & Hkv)%elem_of_entries_of Hpre.
    destruct (entries_extend_edge _ _ _ _ Hwf He Hkv) as (r & x & _ & Hk).
    rewrite Hk, (right_id_L [] (++)) in Hpre.
    apply prefix_length in Hpre. rewrite length_app in Hpre.
    simpl in Hpre. lia.
  - rewrite WalkPath_loop_cons.
    assert (∀ e kv, e ∈ edges n → label e ≠ l → kv ∈ entries (enode e) →
              ¬ kv.1 `prefix_of` (path ++ l :: s)) as Hother.
    { intros e kv He Hne Hkv Hpre.
      destruct (entries_extend_edge _ _ _ _ Hwf He Hkv) as (r & x & _ & Hk).
      rewrite Hk in Hpre. apply prefix_app_inv in Hpre.
      simpl in Hpre. by apply prefix_cons_inv_1 in Hpre. }
    destruct (getEdge n l) as [child|] eqn:Hg.
    + rewrite (filter_entries_getEdge _ path n l child Hwf Hg Hother).
      destruct (wf_getEdge _ _ _ _ Hwf Hg) as [Hh Hwc].
      destruct (visit_leaf n fn st) as [[] st'] eqn:Hv; simpl; [done|].
      destruct (HasPrefix (l :: s) (prefix child)) eqn:Hp1.
      * apply HasPrefix_spec in Hp1 as [rest Hrest].
        rewrite Hrest, drop_app_length.
        rewrite (IH child (getEdge_size _ _ _ _ Hg) (path ++ prefix child)
                   rest st' Hwc).
        by rewrite <- (assoc_L (++)).
      * rewrite filter_none; [done|]. intros kv Hkv Hpre.
        apply (entries_extend_path _ _ _ Hwc) in Hkv.
        assert ((path ++ prefix child) `prefix_of` (path ++ l :: s)) as H1
          by (by etrans).
        apply prefix_app_inv in H1.
        apply HasPrefix_false in Hp1. by apply Hp1.
    + rewrite (filter_entries_no_edge _ path n l Hwf Hg Hother).
      by destruct (visit_leaf n fn st) as [[] st'].
Qed.

End PrefixWalks.

(** ** WalkPrefix, WalkPath and NewFromMap on trees *)

Section TreeWalks.
Context {T : Type} (zero : T).
Implicit Types (t : Tree T) (n cur parent child : node T) (e : edge_ (node T)).
Implicit Types (kvs : list (key * T)) (kv : key * T).
Implicit Types (l b : byte) (s p path pre k : key) (lf : leafNode T) (v : T).

Lemma StronglySorted_filter_keys (P : key * T → Prop)
    `{!∀ x, Decision (P x)} (R : relation key) kvs :
  StronglySorted R kvs.*1 → StronglySorted R (filter P kvs).*1.
Proof.
  induction kvs as [|kv kvs IH]; simpl; [done|].
  intros [Hall Hs]%StronglySorted_cons. specialize (IH Hs).
  rewrite filter_cons. destruct (decide (P kv)); [|done].
  simpl. constructor; [done|].
  apply Forall_forall. intros k (kv' & -> & Hin)%list_elem_of_fmap.
  apply list_elem_of_filter in Hin as [_ Hin].
  apply (proj1 (Forall_forall _ _) Hall). apply list_elem_of_fmap. by exists kv'.
Qed.

Lemma StronglySorted_impl_on {A : Type} (R R' : relation A) (Q : A → Prop)
    (xs : list A) :
  (∀ x y, Q x → Q y → R x y → R' x y) →
  Forall Q xs → StronglySorted R xs → StronglySorted R' xs.
Proof.
  intros Himp. induction xs as [|x xs IH]; [constructor|].
  intros [Hx Hxs]%Forall_cons [Hall Hs]%StronglySorted_cons.
  constructor; [by apply IH|].
  apply Forall_forall. intros y Hy. apply Himp; [done| |].
  - by apply (proj1 (Forall_forall _ _) Hxs).
  - by apply (proj1 (Forall_forall _ _) Hall).
Qed.

(** Of two prefixes of one text, the smaller in key order is the shorter. *)
Lemma key_lt_prefixes a c path :
  a `prefix_of` path → c `prefix_of` path → key_lt a c → length a < length c.
Proof.
  intros Ha Hc Hlt.
  destruct (prefix_weak_total _ _ _ Ha Hc) as [[x ->]|[x ->]].
  - destruct x as [|y x].
    + rewrite (right_id_L [] (++)) in Hlt. by apply key_lt_irrefl in Hlt.
    + rewrite length_app. simpl. lia.
  - rewrite <- (right_id_L [] (++) c) in Hlt at 2.
    apply key_lt_app in Hlt. by destruct x.
Qed.

Lemma WalkPrefix_walked {S : Type} t p (fn : key → T → S → bool * S) st :
  wf_tree t →
  WalkPrefix t p fn st =
    (visit fn (filter (λ kv, p `prefix_of` kv.1) (walked t)) st).2.
Proof.
  intros (Hwf & _ & _). unfold WalkPrefix.
  by rewrite (WalkPrefix_loop_visit fn (root t) [] p st Hwf), walked_entries.
Qed.

Lemma WalkPath_walked {S : Type} t path (fn : key → T → S → bool * S) st :
  wf_tree t →
  WalkPath t path fn st =
    (visit fn (filter (λ kv, kv.1 `prefix_of` path) (walked t)) st).2.
Proof.
  intros (Hwf & _ & _). unfold WalkPath.
  by rewrite (WalkPath_loop_visit fn (root t) [] path st Hwf), walked_entries.
Qed.

(** X25. On every reachable tree, WalkPrefix(p) with the recording visitor is
    called on exactly the stored pairs whose key begins with p, in strictly
    ascending key order; any other visitor is called on that sequence, up
    to the call where it asks to stop. *)
Theorem WalkPrefix_visits_keys_with_prefix t p :
  reachable zero t →
  (∀ k v, (k, v) ∈ WalkPrefix t p record [] ↔
     p `prefix_of` k ∧ Get zero t k = (v, true)) ∧
  StronglySorted key_lt (WalkPrefix t p record []).*1 ∧
  (∀ (S : Type) (fn : key → T → S → bool * S) (st : S),
     WalkPrefix t p fn st = (visit fn (WalkPrefix t p record []) st).2).
Proof.
  intros Hwf%reachable_wf.
  assert (WalkPrefix t p record [] =
          filter (λ kv, p `prefix_of` kv.1) (walked t)) as Hrec
    by (by rewrite WalkPrefix_walked, visit_record).
  rewrite Hrec. split; [|split].
  - intros k v. rewrite list_elem_of_filter. simpl.
    by rewrite (walked_stored t k v Hwf), (Get_found zero).
  - by apply StronglySorted_filter_keys, walked_sorted.
  - intros S fn st. by apply WalkPrefix_walked.
Qed.

(** X26. On every reachable tree, WalkPath(path) with the recording visitor is
    called on exactly the stored pairs whose key is a prefix of path, from
    the shortest key to the longest; any other visitor is called on that
    sequence, up to the call where it asks to stop. *)
Theorem WalkPath_visits_prefixes_of_path t path :
  reachable zero t →
  (∀ k v, (k, v) ∈ WalkPath t path record [] ↔
     k `prefix_of` path ∧ Get zero t k = (v, true)) ∧
  StronglySorted (λ k1 k2, length k1 < length k2)
    (WalkPath t path record []).*1 ∧
  (∀ (S : Type) (fn : key → T → S → bool * S) (st : S),
     WalkPath t path fn st = (visit fn (WalkPath t path record []) st).2).
Proof.
  intros Hwf%reachable_wf.
  assert (WalkPath t path record [] =
          filter (λ kv, kv.1 `prefix_of` path) (walked t)) as Hrec
    by (by rewrite WalkPath_walked, visit_record).
  rewrite Hrec. split; [|split].
  - intros k v. rewrite list_elem_of_filter. simpl.
    by rewrite (walked_stored t k v Hwf), (Get_found zero).
  - apply (StronglySorted_impl_on key_lt _ (λ k, k `prefix_of` path)).
    + intros a c. apply key_lt_prefixes.
    + apply Forall_forall. intros k (kv & -> & Hin)%list_elem_of_fmap.
      by apply list_elem_of_filter in Hin as [? _].
    + by apply StronglySorted_filter_keys, walked_sorted.
  - intros S fn st. by apply WalkPath_walked.
Qed.

(** *** NewFromMap *)

Lemma range_Insert_insert_all (order : list (key * T)) t :
  range_Insert zero order t = insert_all zero order t.
Proof.
  revert t. induction order as [|[k v] order IH]; intros t; simpl; [done|].
  destruct (Insert zero t k v) as [r|]; simpl; [apply IH|done].
Qed.

Lemma latest_NoDup (ops : list (key * T)) k :
  NoDup ops.*1 → latest ops k = list_to_map (M := gmap key T) ops !! k.
Proof.
  induction ops as [|[k0 v0] ops IH]; [done|].
  intros [Hnin Hnd]%NoDup_cons. rewrite latest_cons. simpl.
  rewrite (IH Hnd). destruct (decide (k0 = k)) as [->|Hne].
  - rewrite lookup_insert_eq.
    destruct (list_to_map ops !! k) as [v|] eqn:Hl; [|done].
    apply (elem_of_list_to_map_2 (M := gmap key)) in Hl.
    destruct Hnin. apply list_elem_of_fmap. by exists (k, v).
  - rewrite lookup_insert_ne by done. by destruct (list_to_map ops !! k).
Qed.

(** X27. NewFromMap, whatever the order in which [range] yields the pairs of the
    map, does not panic and returns a tree in which Get answers exactly as
    the map does, whose Len is the size of the map, and which ToMap turns
    back into the map. *)
Theorem NewFromMap_agrees_with_map (m : gmap key T) (order : list (key * T)) :
  order ≡ₚ map_to_list m →
  ∃ t, NewFromMap zero order = Some t ∧
    (∀ k, Get zero t k =
       match m !! k with Some v => (v, true) | None => (zero, false) end) ∧
    Len t = Z.of_nat (base.size m) ∧
    ToMap t = m.
Proof.
  intros Hperm. unfold NewFromMap. rewrite range_Insert_insert_all.
  destruct (insert_all_spec zero order New New_wf) as (t & Heq & Hwf & Hst).
  exists t. split; [done|].
  assert (NoDup order.*1) as Hnd.
  { rewrite Hperm. apply NoDup_fst_map_to_list. }
  assert (∀ k, stored t k = m !! k) as Hlook.
  { intros k. rewrite Hst, stored_New, (latest_NoDup order k Hnd).
    assert (list_to_map (M := gmap key T) order = m) as ->.
    { rewrite (list_to_map_proper _ _ Hnd Hperm). apply list_to_map_to_list. }
    by destruct (m !! k). }
  split; [|split].
  - intros k. rewrite (Get_stored zero), Hlook. done.
  - rewrite (Len_walked t Hwf). f_equal.
    rewrite <- (length_map_to_list m). apply Permutation_length.
    apply NoDup_Permutation.
    + by apply NoDup_pairs, walked_NoDup.
    + apply NoDup_map_to_list.
    + intros [k v]. rewrite (walked_stored t k v Hwf), Hlook.
      by rewrite elem_of_map_to_list.
  - apply map_eq. intros k. by rewrite (ToMap_stored t k Hwf).
Qed.

End TreeWalks.

(** ** The edge functions *)

Section EdgeFunctions.
Context {T : Type}.
Implicit Types (n c : node T) (e : edge_ (node T)) (l : byte).

Lemma getEdge_None_lookup n l :
  getEdge n l = None →
  match edges n !! searchLabel n l with
  | Some e => label e ≠ l
  | None => True
  end.
Proof.
  unfold getEdge. destruct (edges n !! searchLabel n l) as [e|]; [|done].
  by destruct (decide (label e = l)).
Qed.

Lemma delEdge_absent n l : getEdge n l = None → delEdge n l = n.
Proof.
  intros Hg%getEdge_None_lookup. unfold delEdge.
  destruct (edges n !! searchLabel n l) as [e|]; [|done].
  by rewrite decide_False.
Qed.

Lemma updateEdge_absent n l c : getEdge n l = None → updateEdge n l c = None.
Proof.
  intros Hg%getEdge_None_lookup. unfold updateEdge.
  destruct (edges n !! searchLabel n l) as [e|]; [|done].
  by rewrite decide_False.
Qed.

(** X1. On edges in label order, the binary search of getEdge finds the edge
    with the label whenever there is one. *)
Theorem getEdge_finds_edge n l :
  sorted (edges n) →
  (∀ c, getEdge n l = Some c ↔ mkEdge l c ∈ edges n) ∧
  (getEdge n l = None ↔ ∀ e, e ∈ edges n → label e ≠ l).
Proof.
  intros Hs. split.
  - intros c. by apply getEdge_Some.
  - by apply getEdge_None.
Qed.

(** X2. addEdge with a label that the node does not have yet keeps the edges in
    strictly ascending label order, adds that edge and no other, and
    leaves what getEdge finds under the other labels. *)
Theorem addEdge_inserts_in_order n e :
  sorted (edges n) → getEdge n (label e) = None →
  sorted (edges (addEdge n e)) ∧
  (∀ e', e' ∈ edges (addEdge n e) ↔ e' = e ∨ e' ∈ edges n) ∧
  (∀ l, getEdge (addEdge n e) l =
     if decide (l = label e) then Some (enode e) else getEdge n l) ∧
  length (edges (addEdge n e)) = S (length (edges n)).
Proof.
  intros Hs Hg. split; [by apply addEdge_sorted|]. split.
  - intros e'. apply addEdge_elem.
  - split; [intros l; by apply getEdge_addEdge|apply length_addEdge].
Qed.

(** X3. delEdge removes the edge with the label, if there is one, and nothing
    else. *)
Theorem delEdge_removes_edge n l :
  sorted (edges n) →
  sorted (edges (delEdge n l)) ∧
  (∀ e, e ∈ edges (delEdge n l) ↔ e ∈ edges n ∧ label e ≠ l) ∧
  (∀ l', getEdge (delEdge n l) l' =
     if decide (l' = l) then None else getEdge n l') ∧
  leaf (delEdge n l) = leaf n ∧ prefix (delEdge n l) = prefix n.
Proof.
  intros Hs. destruct (getEdge n l) as [c0|] eqn:Hg.
  - split; [by apply (delEdge_sorted _ _ c0)|]. split.
    { intros e. by apply (delEdge_elem _ _ c0). }
    split; [intros l'; by apply (getEdge_delEdge _ _ c0)|].
    split; [apply delEdge_leaf|apply delEdge_prefix].
  - rewrite (delEdge_absent _ _ Hg). split; [done|]. split.
    { intros e. split; [|by intros [? _]]. intros He. split; [done|].
      by apply (proj1 (getEdge_None n l Hs) Hg). }
    split; [|done]. intros l'. destruct (decide (l' = l)) as [->|]; done.
Qed.

(** X4. updateEdge replaces the child under a label that the node has, and
    panics exactly when the node has no edge with the label. *)
Theorem updateEdge_replaces_or_panics n l c :
  sorted (edges n) →
  match getEdge n l with
  | Some _ =>
      ∃ n', updateEdge n l c = Some n' ∧ sorted (edges n') ∧
        (∀ l', getEdge n' l' = if decide (l' = l) then Some c else getEdge n l') ∧
        leaf n' = leaf n ∧ prefix n' = prefix n ∧
        length (edges n') = length (edges n)
  | None => updateEdge n l c = None
  end.
Proof.
  intros Hs. destruct (getEdge n l) as [c0|] eqn:Hg.
  - exists (putChild n l c). split; [by apply (updateEdge_putChild _ _ c0)|].
    split; [by apply (putChild_sorted _ _ c0)|].
    split; [intros l'; by apply (getEdge_putChild _ _ c0)|].
    split; [done|]. split; [done|apply length_putChild].
  - by apply updateEdge_absent.
Qed.

End EdgeFunctions.

(** X5. longestPrefix returns the length of the longest common prefix: the two
    strings agree on that many bytes, and on no more. *)
Theorem longestPrefix_is_longest_common (a b : key) :
  longestPrefix a b ≤ length a ∧ longestPrefix a b ≤ length b ∧
  take (longestPrefix a b) a = take (longestPrefix a b) b ∧
  ∀ j, j ≤ length a → j ≤ length b → take j a = take j b →
    j ≤ longestPrefix a b.
Proof.
  split; [apply longestPrefix_le_l|]. split; [apply longestPrefix_le_r|].
  split; [apply longestPrefix_take|].
  revert b. induction a as [|x a IH]; intros [|y b] j; simpl; try lia.
  intros Ha Hb Ht. destruct j as [|j]; [lia|]. simpl in Ht.
  injection Ht as -> Ht. rewrite decide_True by done. simpl.
  apply le_n_S, IH; [lia|lia|done].
Qed.

(** ** The operations on reachable trees *)

Section ReachableTrees.
Context {T : Type} (zero : T).
Implicit Types (t : Tree T) (n : node T).
Implicit Types (l b : byte) (s p path pre k : key) (lf : leafNode T) (v : T).

Lemma LongestPrefix_stored t k v :
  wf_tree t → Get zero t k = (v, true) → LongestPrefix zero t k = (k, v, true).
Proof.
  intros Hwf Hget. pose proof Hwf as (Hwfn & _ & _).
  apply Get_found in Hget. unfold stored in Hget.
  destruct (find_leaf (root t) k) as [lf0|] eqn:Hf; [|done].
  injection Hget as <-.
  pose proof (find_leaf_key _ _ _ _ Hwfn Hf) as Hk0. simpl in Hk0.
  unfold LongestPrefix.
  destruct (LongestPrefix_loop_spec (root t) [] None k Hwfn)
    as [(s1 & lf & Hpre & Hfind & -> & Hmax)|[_ Hnone]].
  - assert (s1 = k) as ->.
    { assert (length k ≤ length s1) as Hlen by (apply Hmax; [done|by eexists]).
      destruct Hpre as [x Hx]. rewrite Hx, length_app in Hlen.
      destruct x; [by rewrite (right_id_L [] (++)) in Hx|simpl in Hlen; lia]. }
    rewrite Hf in Hfind. injection Hfind as <-. by rewrite Hk0.
  - by rewrite (Hnone k) in Hf.
Qed.

(** X7. The invariant of the trees a client can hold: the root has the empty
    prefix, edges are in strictly ascending label order everywhere, every
    label is the first byte of the child's prefix, the key of every leaf is
    the concatenation of the prefixes from the root to its node, and the
    size field is the number of leaves. *)
Theorem reachable_tree_invariant t :
  reachable zero t →
  wf_node [] (root t) ∧ prefix (root t) = [] ∧ size t = count (root t).
Proof. apply reachable_wf. Qed.

(** X8. Insert on a reachable tree does not panic; afterwards Get finds the
    value under the key, answers as before for every other key, and Len has
    grown by one exactly when the key was not there. *)
Theorem Insert_then_Get t k v :
  reachable zero t →
  ∃ t' old upd, Insert zero t k v = Some (t', old, upd) ∧
    Get zero t' k = (v, true) ∧
    (∀ k', k' ≠ k → Get zero t' k' = Get zero t k') ∧
    Len t' = (Len t + if upd then 0 else 1)%Z ∧
    (upd = (Get zero t k).2).
Proof.
  intros Hwf%reachable_wf.
  destruct (Insert_spec zero t k v Hwf)
    as (t' & old & upd & Heq & Hwf' & Hsz & Hst & Hres).
  exists t', old, upd. split; [done|]. split; [|split; [|split; [done|]]].
  - rewrite (Get_stored zero), Hst. by rewrite decide_True.
  - intros k' Hne. rewrite !(Get_stored zero), Hst. by rewrite decide_False.
  - rewrite (Get_stored zero).
    destruct (stored t k); by destruct Hres as [_ ->].
Qed.

(** X10. Delete on a reachable tree does not panic; afterwards Get does not find
    the key, answers as before for every other key, and Len has dropped by
    one exactly when the key was there. *)
Theorem Delete_leaves_other_keys t k :
  reachable zero t →
  ∃ t' old del, Delete zero t k = Some (t', old, del) ∧
    (Get zero t' k).2 = false ∧
    (∀ k', k' ≠ k → Get zero t' k' = Get zero t k') ∧
    Len t' = (Len t - if del then 1 else 0)%Z ∧
    (del = (Get zero t k).2).
Proof.
  intros Hwf%reachable_wf.
  destruct (Delete_spec zero t k Hwf) as (t' & old & del & Heq & Hwf' & Hres).
  exists t', old, del. split; [done|].
  unfold Len. rewrite (Get_stored zero t k).
  destruct (stored t k) as [v0|] eqn:Hs.
  - destruct Hres as (-> & -> & Hsz & Hst). split; [|split; [|done]].
    + apply Get_absent. rewrite Hst. by rewrite decide_True.
    + intros k' Hne. rewrite !(Get_stored zero), Hst. by rewrite decide_False.
  - destruct Hres as (-> & -> & ->). split; [|split; [done|split; [simpl; lia|done]]].
    by apply Get_absent.
Qed.

(** X11. Deleting a key that Insert has just added gives back the answers of
    Get and Len of the tree before. *)
Theorem Delete_undoes_Insert t k v :
  reachable zero t → (Get zero t k).2 = false →
  ∃ t1 t2, Insert zero t k v = Some (t1, zero, false) ∧
    Delete zero t1 k = Some (t2, v, true) ∧
    (∀ k', Get zero t2 k' = Get zero t k') ∧ Len t2 = Len t.
Proof.
  intros Hwf%reachable_wf Habs. apply Get_absent in Habs.
  destruct (Insert_spec zero t k v Hwf)
    as (t1 & old & upd & Heq1 & Hwf1 & Hsz1 & Hst1 & Hres1).
  rewrite Habs in Hres1. destruct Hres1 as [-> ->].
  destruct (Delete_spec zero t1 k Hwf1) as (t2 & old2 & del & Heq2 & Hwf2 & Hres2).
  rewrite Hst1, decide_True in Hres2 by done.
  destruct Hres2 as (-> & -> & Hsz2 & Hst2).
  exists t1, t2. split; [done|]. split; [done|]. split.
  - intros k'. rewrite !(Get_stored zero), Hst2, Hst1.
    destruct (decide (k' = k)) as [->|]; [by rewrite Habs|done].
  - unfold Len. lia.
Qed.

(** X13. DeletePrefix with the empty prefix empties the tree and returns the
    number of keys it held. *)
Theorem DeletePrefix_empty_prefix_clears t :
  reachable zero t →
  ∃ t', DeletePrefix t [] = Some (t', Len t) ∧ Len t' = 0%Z ∧
    ∀ k, Get zero t' k = (zero, false).
Proof.
  intros Hwf%reachable_wf.
  destruct (DeletePrefix_spec t [] Hwf) as (t' & cnt & Heq & Hwf' & Hsz & Hst).
  assert (∀ k, stored t' k = None) as Hnone.
  { intros k. rewrite Hst. rewrite decide_True; [done|]. apply prefix_nil. }
  assert (Len t' = 0%Z) as Hlen.
  { apply (Len_zero_iff zero t' Hwf'). intros k. by apply Get_absent. }
  exists t'. unfold Len in *.
  assert (cnt = size t) as -> by lia.
  split; [done|]. split; [done|].
  intros k. by rewrite (Get_stored zero), Hnone.
Qed.

(** X21. Walk calls its visitor once on each stored pair and on nothing else,
    and Len is the number of these calls. *)
Theorem Walk_visits_each_stored_pair_once t :
  reachable zero t →
  (∀ k v, (k, v) ∈ Walk t record [] ↔ Get zero t k = (v, true)) ∧
  NoDup (Walk t record []).*1 ∧
  Len t = Z.of_nat (length (Walk t record [])).
Proof.
  intros Hwf%reachable_wf. fold (walked t). split; [|split].
  - intros k v. by rewrite (walked_stored t k v Hwf), (Get_found zero).
  - by apply walked_NoDup.
  - by apply Len_walked.
Qed.

(** X23. ToMap holds exactly the pairs that Get finds, and as many pairs as Len
    counts. *)
Theorem ToMap_agrees_with_Get t :
  reachable zero t →
  (∀ k v, ToMap t !! k = Some v ↔ Get zero t k = (v, true)) ∧
  Z.of_nat (base.size (ToMap t)) = Len t.
Proof.
  intros Hwf%reachable_wf. split.
  - intros k v. by rewrite (ToMap_stored t k Hwf), (Get_found zero).
  - rewrite (Len_walked t Hwf). f_equal.
    rewrite <- length_map_to_list. apply Permutation_length.
    apply NoDup_Permutation.
    + apply NoDup_map_to_list.
    + by apply NoDup_pairs, walked_NoDup.
    + intros [k v]. rewrite elem_of_map_to_list, (ToMap_stored t k Hwf).
      by rewrite (walked_stored t k v Hwf).
Qed.

(** X24. LongestPrefix of a stored key is that key with its value. *)
Theorem LongestPrefix_of_stored_key t k v :
  reachable zero t → Get zero t k = (v, true) →
  LongestPrefix zero t k = (k, v, true).
Proof. intros Hwf%reachable_wf. by apply LongestPrefix_stored. Qed.

End ReachableTrees.

(** X22. Whatever the tree, a walk is the sequence of calls that the recording
    visitor sees, cut after the first call at which the visitor asks to
    stop. *)
Theorem Walk_stops_at_first_true {T S : Type} (t : Tree T)
    (fn : key → T → S → bool * S) (st : S) :
  Walk t fn st = (visit fn (Walk t record []) st).2 ∧
  ∀ kvs1 k v kvs2, Walk t record [] = kvs1 ++ (k, v) :: kvs2 →
    (visit fn kvs1 st).1 = false →
    (fn k v (visit fn kvs1 st).2).1 = true →
    Walk t fn st = (fn k v (visit fn kvs1 st).2).2.
Proof.
  assert (Walk t fn st = (visit fn (Walk t record []) st).2) as Heq.
  { unfold Walk. by rewrite !recursiveWalk_visit, visit_record. }
  split; [done|]. intros kvs1 k v kvs2 Hw Hgo Hstop.
  rewrite Heq, Hw, visit_app.
  destruct (visit fn kvs1 st) as [stop st1]. simpl in *. subst stop. simpl.
  by destruct (fn k v st1) as [[] st2].
Qed.

(** ** The checks of the benchmarks *)

Lemma Insert_paths_insert_all (paths : list key) (r : Tree key) :
  Insert_paths paths r = insert_all [] ((λ path, (path, path)) <$> paths) r.
Proof.
  revert r. induction paths as [|path paths IH]; intros r; simpl; [done|].
  destruct (Insert [] r path path) as [x|]; simpl; [apply IH|done].
Qed.

Lemma latest_paths (paths : list key) (k : key) :
  latest ((λ path, (path, path)) <$> paths) k =
    if decide (k ∈ paths) then Some k else None.
Proof.
  induction paths as [|path paths IH]; [done|].
  rewrite fmap_cons, latest_cons, IH.
  destruct (decide (k ∈ paths)) as [Hin|Hnin].
  - rewrite decide_True; [done|by right].
  - destruct (decide (path = k)) as [->|Hne].
    + rewrite decide_True; [done|by left].
    + rewrite decide_False; [done|].
      intros [->|?]%elem_of_cons; done.
Qed.

(** Inserting each of a list of strings under itself never panics and
    gives a tree in which Get and LongestPrefix of each string return the
    string itself. *)
Lemma Insert_paths_lookup (paths : list key) :
  ∃ r, Insert_paths paths New = Some r ∧
    ∀ path, path ∈ paths →
      Get [] r path = (path, true) ∧
      LongestPrefix [] r path = (path, path, true).
Proof.
  rewrite Insert_paths_insert_all.
  destruct (insert_all_spec [] ((λ path, (path, path)) <$> paths) New New_wf)
    as (r & Heq & Hwf & Hst).
  exists r. split; [done|]. intros path Hin.
  assert (Get [] r path = (path, true)) as Hget.
  { rewrite (Get_stored []), Hst, latest_paths. by rewrite decide_True. }
  split; [done|]. by apply LongestPrefix_stored.
Qed.

(** X28. The tree of the benchmarks is built without panic, and the checks of
    BenchmarkGet and BenchmarkLongestPrefix pass on it: no call of
    [b.Fatalf] is reached. *)
Theorem benchmark_checks_pass :
  ∃ r paths, createTree = Some (r, paths) ∧ length paths = 112 ∧
    BenchmarkGet_body r paths = true ∧
    BenchmarkLongestPrefix_body r paths = true.
Proof.
  unfold createTree.
  destruct (Insert_paths_lookup createTree_paths) as (r & -> & Hall).
  exists r, createTree_paths. split; [done|]. split; [done|]. split.
  - apply forallb_forall. intros path Hin%list_elem_of_In.
    destruct (Hall path Hin) as [-> _]. simpl. by apply bool_decide_eq_true.
  - apply forallb_forall. intros path Hin%list_elem_of_In.
    destruct (Hall path Hin) as [_ ->]. simpl. by apply bool_decide_eq_true.
Qed.

(** ** DeletePrefix on compressed trees *)

Section DeletePrefixCompressed.
Context {T : Type} (zero : T).
Implicit Types (t : Tree T) (n cur parent child : node T) (e : edge_ (node T)).
Implicit Types (l b : byte) (s p path pre k : key) (lf : leafNode T) (v : T).

Lemma entries_getEdge n l child kv :
  getEdge n l = Some child → kv ∈ entries child → kv ∈ entries n.
Proof.
  intros Hg%getEdge_elem Hin. rewrite entries_unfold.
  apply elem_of_app. right. apply elem_of_entries_of. by eexists.
Qed.

(** In a compressed tree, a subtree that [deletePrefix] cuts holds a key
    that begins with the prefix. *)
Lemma deletePrefix_Under_key n : ∀ (is_root : bool) path p n' cnt,
  wf_node path n → compressed_below n = true →
  deletePrefix is_root n p = Some (Under n' cnt) →
  ∃ kv, kv ∈ entries n ∧ (path ++ p) `prefix_of` kv.1.
Proof.
  induction n as [n IH] using node_ind_size.
  intros is_root path [|l p] n' cnt Hwf Hc.
  - by rewrite deletePrefix_nil.
  - rewrite deletePrefix_cons.
    destruct (getEdge n l) as [child|] eqn:Hg; [|done].
    destruct (wf_getEdge _ _ _ _ Hwf Hg) as [Hh Hwc].
    destruct (compressed_getEdge _ _ _ Hc Hg) as [Hc1 Hc2].
    destruct (negb (HasPrefix (prefix child) (l :: p))
              && negb (HasPrefix (l :: p) (prefix child))) eqn:Hcmp; [done|].
    cbv zeta.
    assert ((l :: p) `prefix_of` prefix child →
            ∃ kv, kv ∈ entries n ∧ (path ++ l :: p) `prefix_of` kv.1) as Hcut.
    { intros Hpre. pose proof (compressed_entries _ Hc1 Hc2) as Hne.
      destruct (entries child) as [|kv kvs] eqn:He; [done|].
      assert (kv ∈ entries child) as Hin by (rewrite He; left).
      exists kv. split; [by eapply entries_getEdge|].
      etrans; [|by apply (entries_extend_path _ _ _ Hwc)].
      by apply prefix_app. }
    destruct (decide (length (l :: p) < length (prefix child))) as [Hlt|Hge].
    + intros _. apply Hcut.
      apply andb_false_iff in Hcmp as [H1|H2].
      * by apply negb_false_iff, HasPrefix_spec in H1.
      * apply negb_false_iff, HasPrefix_spec in H2.
        apply prefix_length in H2. lia.
    + assert (prefix child `prefix_of` l :: p) as [rest Hrest].
      { apply andb_false_iff in Hcmp as [H1|H2].
        - apply negb_false_iff, HasPrefix_spec in H1.
          pose proof (prefix_length _ _ H1) as Hlen.
          assert (length (l :: p) = length (prefix child)) as Heq by lia.
          destruct H1 as [r Hr]. rewrite Hr, length_app in Heq.
          assert (r = []) as -> by (apply nil_length_inv; lia).
          rewrite (right_id_L [] (++)) in Hr. by rewrite Hr.
        - by apply negb_false_iff, HasPrefix_spec in H2. }
      replace (drop (length (prefix child)) (l :: p)) with rest
        by (by rewrite Hrest, drop_app_length).
      destruct (deletePrefix false child rest) as [[| |child' k]|] eqn:Hd;
        cbn [mbind option_bind]; [done| |..|done].
      * intros _. apply Hcut.
        destruct (deletePrefix_spec child false path rest Hwc) as (r & Hr1 & Hr2).
        rewrite Hd in Hr1. injection Hr1 as <-. subst rest.
        rewrite (right_id_L [] (++)) in Hrest. by rewrite Hrest.
      * intros _.
        destruct (IH child (getEdge_size _ _ _ _ Hg) false
                    (path ++ prefix child) rest child' k Hwc Hc2 Hd)
          as (kv & Hin & Hpre).
        exists kv. split; [by eapply entries_getEdge|].
        by rewrite Hrest, (assoc_L (++)).
Qed.

(** X14. On a compressed reachable tree, a DeletePrefix that matches no stored
    key returns 0 and the tree it was called on, unchanged in every node. *)
Theorem DeletePrefix_no_match_unchanged t p :
  reachable zero t → compressed t →
  (∀ k, p `prefix_of` k → (Get zero t k).2 = false) →
  DeletePrefix t p = Some (t, 0%Z).
Proof.
  intros Hwf%reachable_wf Hc Hnone. pose proof Hwf as (Hwfn & Hp & Hsz).
  assert (∀ kv, kv ∈ entries (root t) → ¬ p `prefix_of` kv.1) as Hno.
  { intros [k v] Hin Hpre. specialize (Hnone k Hpre).
    apply Get_absent in Hnone.
    assert ((k, v) ∈ walked t) as Hin' by (by rewrite walked_entries).
    apply (walked_stored t k v Hwf) in Hin'. congruence. }
  unfold DeletePrefix.
  assert (wf_node ([] ++ prefix (root t)) (root t)) as Hwf0 by (by rewrite Hp).
  destruct (deletePrefix_spec (root t) true [] p Hwf0) as (r & Heq & Hr).
  rewrite Heq. cbn [mbind option_bind]. destruct r as [| |n' cnt]; [done| |].
  - subst p. assert (entries (root t) = []) as Hnil.
    { destruct (entries (root t)) as [|kv kvs] eqn:He; [done|].
      destruct (Hno kv); [left|apply prefix_nil]. }
    rewrite subTreeSize_count. unfold count. rewrite Hnil. simpl.
    rewrite Z.sub_0_r.
    assert (leaf (root t) = None ∧ edges (root t) = []) as [Hl He].
    { rewrite entries_unfold in Hnil.
      apply app_eq_nil in Hnil as [Hl He]. split.
      - by destruct (leaf (root t)).
      - destruct (edges (root t)) as [|e es] eqn:Hes; [done|].
        assert (e ∈ edges (root t)) as Hin by (rewrite Hes; left).
        destruct (proj1 (compressed_below_spec _) Hc e Hin) as [H1 H2].
        rewrite entries_of_cons in He. apply app_eq_nil in He as [He _].
        by destruct (compressed_entries _ H1 H2). }
    destruct t as [[lf pr es] sz]. simpl in *. by subst.
  - destruct (deletePrefix_Under_key (root t) true [] p n' cnt Hwfn Hc Heq)
      as (kv & Hin & Hpre).
    by destruct (Hno kv Hin).
Qed.

End DeletePrefixCompressed.

(** ** The sort interface of edges *)

Section SortInterface.
Context {T : Type}.
Implicit Types (es : list (edge_ (node T))) (i j : nat).

(** X6. On edges in the order that addEdge keeps, Less(i, j) is i < j: the edge
    list of a node is what sort.Sort would make of it. *)
Theorem edges_Less_on_sorted es i j :
  sorted es → i < edges_Len es → j < edges_Len es →
  edges_Less es i j = Some (bool_decide (i < j)).
Proof.
  unfold edges_Len. intros Hs Hi Hj.
  destruct (lookup_lt_is_Some_2 es i Hi) as [ei Hei].
  destruct (lookup_lt_is_Some_2 es j Hj) as [ej Hej].
  unfold edges_Less. rewrite Hei, Hej. simpl. f_equal.
  destruct (decide (i < j)) as [Hlt|Hge].
  - rewrite bool_decide_eq_true_2 by done.
    apply byte_ltb_lt. by apply (sorted_lookup es i j).
  - rewrite bool_decide_eq_false_2 by done.
    apply not_true_iff_false. intros Hlt%byte_ltb_lt.
    destruct (decide (i = j)) as [->|Hne].
    + rewrite Hei in Hej. injection Hej as ->. by apply byte_lt_irrefl in Hlt.
    + assert (j < i) as Hji by lia.
      pose proof (sorted_lookup es j i ej ei Hs Hej Hei Hji) as Hlt'.
      apply (byte_lt_irrefl (label ei)). by eapply byte_lt_trans.
Qed.

(** Swap exchanges the two edges and keeps the others; it panics exactly
    when an index is out of range. *)
Theorem edges_Swap_exchanges es i j :
  match edges_Swap es i j with
  | Some es' =>
      es' ≡ₚ es ∧ es' !! i = es !! j ∧ es' !! j = es !! i ∧
      ∀ k, k ≠ i → k ≠ j → es' !! k = es !! k
  | None => edges_Len es ≤ i ∨ edges_Len es ≤ j
  end.
Proof.
  unfold edges_Swap, edges_Len.
  destruct (es !! i) as [ei|] eqn:Hei; simpl.
  - destruct (es !! j) as [ej|] eqn:Hej; simpl.
    + pose proof (lookup_lt_Some _ _ _ Hei) as Hi.
      pose proof (lookup_lt_Some _ _ _ Hej) as Hj.
      split; [by apply Permutation_insert_swap|]. split; [|split].
      * destruct (decide (i = j)) as [->|Hne].
        -- rewrite list_lookup_insert_eq by (by rewrite length_insert).
           congruence.
        -- rewrite list_lookup_insert_ne by done.
           by rewrite list_lookup_insert_eq.
      * by rewrite list_lookup_insert_eq by (by rewrite length_insert).
      * intros k Hki Hkj. by rewrite !list_lookup_insert_ne.
    + right. by apply lookup_ge_None.
  - left. by apply lookup_ge_None.
Qed.

End SortInterface.

(** ** Inserting a pair that is stored *)

Section InsertSame.
Context {T : Type} (zero : T).
Implicit Types (t : Tree T) (n cur : node T).
Implicit Types (l b : byte) (s p path pre k : key) (lf : leafNode T) (v : T).

Lemma set_leaf_id n lf : leaf n = Some lf → set_leaf n (Some lf) = n.
Proof. destruct n; simpl. by intros ->. Qed.

Lemma putChild_id n l cur : getEdge n l = Some cur → putChild n l cur = n.
Proof.
  intros Hg%getEdge_lookup. unfold putChild.
  rewrite list_insert_id by done. by destruct n.
Qed.

Lemma Insert_loop_same n : ∀ path (search : key) (sz : Z) lf,
  find_leaf n search = Some lf →
  Insert_loop zero path (val lf) sz n search = Some (n, sz, val lf, true).
Proof.
  induction n as [n IH] using node_ind_size.
  intros path [|l s] sz lf.
  - rewrite find_leaf_nil, Insert_loop_nil. intros Hl. rewrite Hl.
    by rewrite leaf_eta, (set_leaf_id n lf Hl).
  - rewrite find_leaf_cons, Insert_loop_cons.
    destruct (getEdge n l) as [cur|] eqn:Hg; [|done].
    cbn [mbind option_bind]. cbv zeta.
    intros (r & Hr & Hf)%find_at_Some.
    assert (longestPrefix (l :: s) (prefix cur) = length (prefix cur)) as Hfull
      by (apply longestPrefix_full; by exists r).
    rewrite Hfull, decide_True by done. rewrite Hr, drop_app_length.
    rewrite (IH cur (getEdge_size _ _ _ _ Hg) path r sz lf Hf).
    cbn [mbind option_bind]. by rewrite (putChild_id n l cur Hg).
Qed.

(** X9. Inserting a pair that the tree stores returns the value, was-update =
    true, and the tree it was called on, unchanged in every node. *)
Theorem Insert_stored_pair_unchanged t k v :
  reachable zero t → Get zero t k = (v, true) →
  Insert zero t k v = Some (t, v, true).
Proof.
  intros Hwf%reachable_wf Hget%Get_found. unfold stored in Hget.
  destruct (find_leaf (root t) k) as [lf|] eqn:Hf; [|done].
  injection Hget as <-. unfold Insert.
  rewrite (Insert_loop_same (root t) k k (size t) lf Hf). simpl.
  by destruct t.
Qed.

End InsertSame.

(** ** The store model against the functional model *)

Lemma Search_loop_step (f : nat → bool) (i j : nat) :
  Search_loop f i j =
    if decide (i < j)
    then if f ((i + j) / 2) then Search_loop f i ((i + j) / 2)
         else Search_loop f ((i + j) / 2 + 1) j
    else i.
Proof.
  simp Search_loop. destruct (decide (i < j)); simpl; [|done].
  destruct (f _); simpl; by simp Search_loop.
Qed.

Lemma Search_loop_ext (f g : nat → bool) (i j : nat) :
  (∀ k, f k = g k) → Search_loop f i j = Search_loop g i j.
Proof.
  intros Hfg. funelim (Search_loop f i j); clear Heqcall.
  - rewrite (Search_loop_step g). by rewrite decide_False.
  - rewrite (Search_loop_step g), decide_True by done.
    rewrite <- Hfg, Heq. by apply H.
  - rewrite (Search_loop_step g), decide_True by done.
    rewrite <- Hfg, Heq. by apply H.
Qed.

Section Refinement.
Context {T U : Type} (zero : T).
Implicit Types (m : gmap positive (Heap.hnode T)) (a : positive).
Implicit Types (hn : Heap.hnode T) (n c : node T) (st : Heap.state T U).
Implicit Types (l : byte) (s k : key).

(** What it means for the store to hold a node. *)
Lemma holds_inv m a n :
  holds m a n →
  ∃ hn, m !! a = Some hn ∧ Heap.hleaf hn = leaf n ∧
    Heap.hprefix hn = prefix n ∧
    Forall2 (λ he e, he.1 = label e ∧ holds m he.2 (enode e))
      (Heap.hedges hn) (edges n).
Proof.
  intros [fuel Hn]. destruct fuel as [|fuel]; [done|]. simpl in Hn.
  destruct (m !! a) as [hn|]; [|done]. simpl in Hn.
  destruct (mapM _ (Heap.hedges hn)) as [es|] eqn:Hes; [|done].
  injection Hn as <-. exists hn. split; [done|]. split; [done|].
  split; [done|]. simpl.
  apply mapM_Some in Hes.
  eapply Forall2_impl; [exact Hes|]. intros [l a'] e He. simpl in *.
  destruct (Heap.node_at fuel m a') as [c|] eqn:Hc; [|done].
  injection He as <-. split; [done|]. by exists fuel.
Qed.

Lemma searchLabel_holds hn n l :
  Forall2 (λ (he : byte * positive) (e : edge_ (node T)), he.1 = label e)
    (Heap.hedges hn) (edges n) →
  Heap.searchLabel (Heap.hedges hn) l = searchLabel n l.
Proof.
  intros Hall. unfold Heap.searchLabel, searchLabel, Search.
  rewrite (Forall2_length _ _ _ Hall). apply Search_loop_ext. intros i.
  destruct (Heap.hedges hn !! i) as [he|] eqn:Hhe.
  - destruct (Forall2_lookup_l _ _ _ _ _ Hall Hhe) as (e & -> & ->). done.
  - apply lookup_ge_None in Hhe. rewrite (Forall2_length _ _ _ Hall) in Hhe.
    apply lookup_ge_None in Hhe. by rewrite Hhe.
Qed.

Lemma getEdge_holds st a n l :
  holds (Heap.mem st) a n →
  ∃ r, Heap.getEdge a l st = Heap.Ok r st ∧
    match r, getEdge n l with
    | Some a', Some c => holds (Heap.mem st) a' c
    | None, None => True
    | _, _ => False
    end.
Proof.
  intros (hn & Hm & _ & _ & Hall)%holds_inv.
  unfold Heap.getEdge, Heap.bind, Heap.load, getEdge. rewrite Hm.
  assert (Forall2 (λ (he : byte * positive) (e : edge_ (node T)),
            he.1 = label e) (Heap.hedges hn) (edges n)) as Hlab
    by (eapply Forall2_impl; [exact Hall|]; by intros ?? [? _]).
  rewrite (searchLabel_holds hn n l Hlab).
  destruct (Heap.hedges hn !! searchLabel n l) as [he|] eqn:Hhe.
  - destruct (Forall2_lookup_l _ _ _ _ _ Hall Hhe) as (e & -> & Hl & Hc).
    rewrite Hl. destruct (decide (label e = l)); by eexists.
  - apply lookup_ge_None in Hhe. rewrite (Forall2_length _ _ _ Hall) in Hhe.
    apply lookup_ge_None in Hhe. rewrite Hhe. by eexists.
Qed.

Lemma Get_loop_holds n : ∀ fuel st a s,
  holds (Heap.mem st) a n → node_size n ≤ fuel →
  Heap.Get_loop zero fuel a s st = Heap.Ok (Get_loop zero n s) st.
Proof.
  induction n as [n IH] using node_ind_size.
  intros fuel st a s Hn Hfuel.
  destruct fuel as [|fuel]; [destruct n; simpl in Hfuel; lia|].
  rewrite (Get_loop_find zero). destruct s as [|l s]; simpl.
  - destruct (holds_inv _ _ _ Hn) as (hn & Hm & Hl & _).
    unfold Heap.bind, Heap.load. rewrite Hm, Hl, find_leaf_nil.
    by destruct (leaf n).
  - rewrite find_leaf_cons.
    destruct (getEdge_holds st a n l Hn) as (r & Hr & Hrel).
    unfold Heap.bind at 1. rewrite Hr.
    destruct r as [a'|], (getEdge n l) as [c|] eqn:Hg; try done. simpl.
    destruct (holds_inv _ _ _ Hrel) as (hc & Hm & _ & Hp & _).
    unfold Heap.bind, Heap.load. rewrite Hm, Hp. unfold find_at.
    destruct (HasPrefix (l :: s) (prefix c)); [|done].
    pose proof (getEdge_size _ _ _ _ Hg) as Hsz.
    rewrite (IH c Hsz fuel st a' _ Hrel) by lia.
    by rewrite (Get_loop_find zero).
Qed.

(** X29. A store that holds a tree answers Get as the functional model does,
    and is left as it was. *)
Theorem Heap_Get_refines (fuel0 fuel : nat) st (t : Tree T) k :
  Heap.tree_at fuel0 st = Some t → node_size (root t) ≤ fuel →
  Heap.Get zero fuel k st = Heap.Ok (Get zero t k) st.
Proof.
  unfold Heap.tree_at. intros Ht Hfuel.
  destruct (Heap.node_at fuel0 (Heap.mem st) (Heap.troot st)) as [n|] eqn:Hn;
    [|done].
  injection Ht as <-. simpl in *.
  unfold Heap.Get, Heap.bind, Heap.get_root, Get. simpl.
  apply Get_loop_holds; [by exists fuel0|done].
Qed.

Lemma set_user_user st : set_user st (Heap.user st) = st.
Proof. by destruct st. Qed.

Lemma node_size_unfold n :
  node_size n = S (list_sum (map (λ e, node_size (enode e)) (edges n))).
Proof. by destruct n. Qed.

(** The loop of the walker over a store that the visitor leaves alone: the
    number of edges never changes, the index advances by one in every
    iteration, and the edges are walked in order. *)
Lemma recursiveWalk_holds (f : key → T → U → bool * U) n : ∀ fuel st a,
  holds (Heap.mem st) a n → 2 * node_size n ≤ fuel →
  Heap.recursiveWalk fuel a (pure_visitor f) st =
    Heap.Ok (recursiveWalk n f (Heap.user st)).1
      (set_user st (recursiveWalk n f (Heap.user st)).2).
Proof.
  induction n as [n IH] using node_ind_size.
  intros fuel st a Hn Hfuel.
  destruct (holds_inv _ _ _ Hn) as (hn & Hm & Hl & _ & Hall).
  pose proof (Forall2_length _ _ _ Hall) as Hlen.
  rewrite node_size_unfold in Hfuel.
  (* the loop, entered at index [i] *)
  assert (Hloop : ∀ d i fuel' u,
    length (edges n) - i ≤ d → i ≤ length (edges n) →
    1 + 2 * list_sum (map (λ e, node_size (enode e)) (drop i (edges n)))
      ≤ fuel' →
    Heap.walk_loop fuel' a (pure_visitor f) i (length (Heap.hedges hn))
      (set_user st u) =
    Heap.Ok (visit f (entries_of (drop i (edges n))) u).1
      (set_user st (visit f (entries_of (drop i (edges n))) u).2)).
  { induction d as [|d IHd]; intros i fuel' u Hd Hi Hf;
      (destruct fuel' as [|fuel']; [lia|]); simpl.
    - rewrite decide_False by lia. rewrite drop_ge by lia. done.
    - destruct (decide (i < length (Heap.hedges hn))) as [Hlt|Hge]; cycle 1.
      { rewrite drop_ge by lia. done. }
      destruct (lookup_lt_is_Some_2 (Heap.hedges hn) i Hlt) as [he Hhe].
      destruct (Forall2_lookup_l _ _ _ _ _ Hall Hhe) as (e & He & _ & Hc).
      rewrite (drop_S _ _ _ He) in Hf |- *. simpl in Hf.
      rewrite entries_of_cons, visit_app.
      unfold Heap.bind at 1. unfold Heap.load at 1. simpl. rewrite Hm.
      unfold Heap.bind at 1. unfold Heap.index at 1. rewrite Hhe.
      unfold Heap.ret at 1. unfold Heap.bind at 1.
      assert (node_size (enode e) < node_size n) as Hsz
        by (by eapply child_size, list_elem_of_lookup_2).
      rewrite (IH (enode e) Hsz fuel' (set_user st u) he.2 Hc) by lia.
      simpl. rewrite recursiveWalk_visit.
      destruct (visit f (entries (enode e)) u) as [[] u1]; simpl; [done|].
      unfold Heap.bind at 1. unfold Heap.load at 1. simpl. rewrite Hm.
      rewrite decide_False by lia. rewrite decide_True by lia.
      change (set_user (set_user st u) u1) with (set_user st u1).
      pose proof (node_size_unfold (enode e)) as Hpos.
      rewrite Nat.add_1_r. apply IHd; lia. }
  destruct fuel as [|fuel]; [lia|]. simpl.
  rewrite recursiveWalk_visit, entries_unfold, visit_app.
  unfold Heap.bind at 1. unfold Heap.load at 1. rewrite Hm, Hl.
  destruct (leaf n) as [lf|] eqn:Hleaf.
  - unfold Heap.bind at 1. unfold pure_visitor at 1. simpl.
    destruct (f (lkey lf) (val lf) (Heap.user st)) as [[] u1]; simpl; [done|].
    unfold Heap.bind at 1. unfold Heap.load at 1. simpl. rewrite Hm.
    rewrite (Hloop (length (edges n)) 0 fuel u1);
      [done|lia|lia|rewrite drop_0; lia].
  - unfold Heap.bind at 1. unfold Heap.ret at 1.
    unfold Heap.bind at 1. unfold Heap.load at 1. rewrite Hm. simpl.
    rewrite <- (set_user_user st) at 1.
    rewrite (Hloop (length (edges n)) 0 fuel (Heap.user st));
      [done|lia|lia|rewrite drop_0; lia].
Qed.

(** X30. A walk over a store that holds a tree, with a visitor that leaves the
    store alone, is the walk of the functional model: the store is as
    before and the state of the visitor is the one [Walk] returns. *)
Theorem Heap_Walk_refines (f : key → T → U → bool * U) (fuel0 fuel : nat)
    st (t : Tree T) :
  Heap.tree_at fuel0 st = Some t → 2 * node_size (root t) ≤ fuel →
  Heap.Walk fuel (pure_visitor f) st =
    Heap.Ok tt (set_user st (Walk t f (Heap.user st))).
Proof.
  unfold Heap.tree_at. intros Ht Hfuel.
  destruct (Heap.node_at fuel0 (Heap.mem st) (Heap.troot st)) as [n|] eqn:Hn;
    [|done].
  injection Ht as <-. simpl in *.
  unfold Heap.Walk, Heap.bind, Heap.get_root, Walk. simpl.
  rewrite (recursiveWalk_holds f n fuel st (Heap.troot st)); [done| |done].
  by exists fuel0.
Qed.

End Refinement.

(** ** Instances of the theorems on the example trees *)

Lemma example_tree_reachable : reachable 0%Z example_tree.
Proof.
  apply (run_reachable 0%Z example_ops New); [constructor|].
  vm_compute. reflexivity.
Qed.

Lemma example_tree_compressed : compressed example_tree.
Proof. vm_compute. reflexivity. Qed.

Lemma example_root_sorted : sorted (edges (root example_tree)).
Proof. apply (wf_sorted []), (reachable_wf 0%Z), example_tree_reachable. Qed.

Lemma getEdge_finds_edge_witness :
  sorted (edges (root example_tree)) ∧
  (∀ c, getEdge (root example_tree) "a"%byte = Some c ↔
     mkEdge "a"%byte c ∈ edges (root example_tree)) ∧
  (getEdge (root example_tree) "a"%byte = None ↔
     ∀ e, e ∈ edges (root example_tree) → label e ≠ "a"%byte).
Proof.
  split; [exact example_root_sorted|].
  exact (getEdge_finds_edge (root example_tree) "a"%byte example_root_sorted).
Defined.

Lemma addEdge_inserts_in_order_witness :
  let n := root example_tree in
  let e := mkEdge "c"%byte (mkNode (T:=Z) None ["c"%byte] []) in
  sorted (edges n) ∧ getEdge n (label e) = None ∧
  sorted (edges (addEdge n e)) ∧
  (∀ e', e' ∈ edges (addEdge n e) ↔ e' = e ∨ e' ∈ edges n) ∧
  (∀ l, getEdge (addEdge n e) l =
     if decide (l = label e) then Some (enode e) else getEdge n l) ∧
  length (edges (addEdge n e)) = S (length (edges n)).
Proof.
  intros n e.
  assert (getEdge n (label e) = None) as Hg by (vm_compute; reflexivity).
  split; [exact example_root_sorted|]. split; [exact Hg|].
  exact (addEdge_inserts_in_order n e example_root_sorted Hg).
Defined.

Lemma delEdge_removes_edge_witness :
  let n := root example_tree in
  sorted (edges n) ∧
  sorted (edges (delEdge n "a"%byte)) ∧
  (∀ e, e ∈ edges (delEdge n "a"%byte) ↔ e ∈ edges n ∧ label e ≠ "a"%byte) ∧
  (∀ l', getEdge (delEdge n "a"%byte) l' =
     if decide (l' = "a"%byte) then None else getEdge n l') ∧
  leaf (delEdge n "a"%byte) = leaf n ∧ prefix (delEdge n "a"%byte) = prefix n.
Proof.
  intros n. split; [exact example_root_sorted|].
  exact (delEdge_removes_edge n "a"%byte example_root_sorted).
Defined.

Lemma updateEdge_replaces_or_panics_witness :
  let n := root example_tree in
  let c := mkNode (T:=Z) None ["a"%byte] [] in
  sorted (edges n) ∧
  match getEdge n "a"%byte with
  | Some _ =>
      ∃ n', updateEdge n "a"%byte c = Some n' ∧ sorted (edges n') ∧
        (∀ l', getEdge n' l' =
           if decide (l' = "a"%byte) then Some c else getEdge n l') ∧
        leaf n' = leaf n ∧ prefix n' = prefix n ∧
        length (edges n') = length (edges n)
  | None => updateEdge n "a"%byte c = None
  end.
Proof.
  intros n c. split; [exact example_root_sorted|].
  exact (updateEdge_replaces_or_panics n "a"%byte c example_root_sorted).
Defined.

Lemma edges_Less_on_sorted_witness :
  let es := edges (root example_tree) in
  sorted es ∧ 0 < edges_Len es ∧ 1 < edges_Len es ∧
  edges_Less es 0 1 = Some (bool_decide (0 < 1)).
Proof.
  intros es.
  assert (0 < edges_Len es) as H0 by (vm_compute; lia).
  assert (1 < edges_Len es) as H1 by (vm_compute; lia).
  split; [exact example_root_sorted|]. split; [exact H0|]. split; [exact H1|].
  exact (edges_Less_on_sorted es 0 1 example_root_sorted H0 H1).
Defined.

Lemma reachable_tree_invariant_witness :
  reachable 0%Z example_tree ∧
  wf_node [] (root example_tree) ∧ prefix (root example_tree) = [] ∧
  size example_tree = count (root example_tree).
Proof.
  split; [exact example_tree_reachable|].
  exact (reachable_tree_invariant 0%Z example_tree example_tree_reachable).
Defined.

Lemma Insert_then_Get_witness :
  reachable 0%Z example_tree ∧
  ∃ t' old upd, Insert 0%Z example_tree kac 5%Z = Some (t', old, upd) ∧
    Get 0%Z t' kac = (5%Z, true) ∧
    (∀ k', k' ≠ kac → Get 0%Z t' k' = Get 0%Z example_tree k') ∧
    Len t' = (Len example_tree + if upd then 0 else 1)%Z ∧
    (upd = (Get 0%Z example_tree kac).2).
Proof.
  split; [exact example_tree_reachable|].
  exact (Insert_then_Get 0%Z example_tree kac 5%Z example_tree_reachable).
Defined.

Lemma Delete_leaves_other_keys_witness :
  reachable 0%Z example_tree ∧
  ∃ t' old del, Delete 0%Z example_tree kab = Some (t', old, del) ∧
    (Get 0%Z t' kab).2 = false ∧
    (∀ k', k' ≠ kab → Get 0%Z t' k' = Get 0%Z example_tree k') ∧
    Len t' = (Len example_tree - if del then 1 else 0)%Z ∧
    (del = (Get 0%Z example_tree kab).2).
Proof.
  split; [exact example_tree_reachable|].
  exact (Delete_leaves_other_keys 0%Z example_tree kab example_tree_reachable).
Defined.

Lemma Delete_undoes_Insert_witness :
  reachable 0%Z example_tree ∧ (Get 0%Z example_tree kac).2 = false ∧
  ∃ t1 t2, Insert 0%Z example_tree kac 5%Z = Some (t1, 0%Z, false) ∧
    Delete 0%Z t1 kac = Some (t2, 5%Z, true) ∧
    (∀ k', Get 0%Z t2 k' = Get 0%Z example_tree k') ∧
    Len t2 = Len example_tree.
Proof.
  assert ((Get 0%Z example_tree kac).2 = false) as Hg
    by (vm_compute; reflexivity).
  split; [exact example_tree_reachable|]. split; [exact Hg|].
  exact (Delete_undoes_Insert 0%Z example_tree kac 5%Z
           example_tree_reachable Hg).
Defined.

Lemma DeletePrefix_empty_prefix_clears_witness :
  reachable 0%Z example_tree ∧
  ∃ t', DeletePrefix example_tree [] = Some (t', Len example_tree) ∧
    Len t' = 0%Z ∧ ∀ k, Get 0%Z t' k = (0%Z, false).
Proof.
  split; [exact example_tree_reachable|].
  exact (DeletePrefix_empty_prefix_clears 0%Z example_tree
           example_tree_reachable).
Defined.

Lemma DeletePrefix_removes_witness :
  reachable 0%Z example_tree ∧
  ∃ t' cnt,
    DeletePrefix example_tree kab = Some (t', cnt) ∧
    (∀ k, Get 0%Z t' k =
       if decide (kab `prefix_of` k) then (0%Z, false)
       else Get 0%Z example_tree k) ∧
    cnt = Z.of_nat (length (filter (λ kv, kab `prefix_of` kv.1)
                              (walked example_tree))) ∧
    Len t' = (Len example_tree - cnt)%Z.
Proof.
  split; [exact example_tree_reachable|].
  exact (DeletePrefix_removes 0%Z example_tree kab example_tree_reachable).
Defined.

Lemma Walk_visits_each_stored_pair_once_witness :
  reachable 0%Z example_tree ∧
  (∀ k v, (k, v) ∈ Walk example_tree record [] ↔
     Get 0%Z example_tree k = (v, true)) ∧
  NoDup (Walk example_tree record []).*1 ∧
  Len example_tree = Z.of_nat (length (Walk example_tree record [])).
Proof.
  split; [exact example_tree_reachable|].
  exact (Walk_visits_each_stored_pair_once 0%Z example_tree
           example_tree_reachable).
Defined.

Lemma ToMap_agrees_with_Get_witness :
  reachable 0%Z example_tree ∧
  (∀ k v, ToMap example_tree !! k = Some v ↔
     Get 0%Z example_tree k = (v, true)) ∧
  Z.of_nat (base.size (ToMap example_tree)) = Len example_tree.
Proof.
  split; [exact example_tree_reachable|].
  exact (ToMap_agrees_with_Get 0%Z example_tree example_tree_reachable).
Defined.

Lemma LongestPrefix_of_stored_key_witness :
  reachable 0%Z example_tree ∧ Get 0%Z example_tree kab = (2%Z, true) ∧
  LongestPrefix 0%Z example_tree kab = (kab, 2%Z, true).
Proof.
  assert (Get 0%Z example_tree kab = (2%Z, true)) as Hg
    by (vm_compute; reflexivity).
  split; [exact example_tree_reachable|]. split; [exact Hg|].
  exact (LongestPrefix_of_stored_key 0%Z example_tree kab 2%Z
           example_tree_reachable Hg).
Defined.

Lemma Insert_stored_pair_unchanged_witness :
  reachable 0%Z example_tree ∧ Get 0%Z example_tree kab = (2%Z, true) ∧
  Insert 0%Z example_tree kab 2%Z = Some (example_tree, 2%Z, true).
Proof.
  assert (Get 0%Z example_tree kab = (2%Z, true)) as Hg
    by (vm_compute; reflexivity).
  split; [exact example_tree_reachable|]. split; [exact Hg|].
  exact (Insert_stored_pair_unchanged 0%Z example_tree kab 2%Z
           example_tree_reachable Hg).
Defined.

Lemma Insert_keeps_compression_witness :
  reachable 0%Z example_tree ∧ compressed example_tree ∧
  ∃ t' old upd, Insert 0%Z example_tree kac 5%Z = Some (t', old, upd) ∧
    compressed t'.
Proof.
  split; [exact example_tree_reachable|].
  split; [exact example_tree_compressed|].
  exact (Insert_keeps_compression 0%Z example_tree kac 5%Z
           example_tree_reachable example_tree_compressed).
Defined.

Lemma Delete_keeps_compression_witness :
  reachable 0%Z example_tree ∧ compressed example_tree ∧
  ∃ t' old del, Delete 0%Z example_tree kab = Some (t', old, del) ∧
    compressed t'.
Proof.
  split; [exact example_tree_reachable|].
  split; [exact example_tree_compressed|].
  exact (Delete_keeps_compression 0%Z example_tree kab
           example_tree_reachable example_tree_compressed).
Defined.

Lemma Minimum_found_is_least_witness :
  reachable 0%Z example_tree ∧
  Minimum 0%Z example_tree = (ka, 1%Z, true) ∧
  Get 0%Z example_tree ka = (1%Z, true) ∧
  ∀ k', (Get 0%Z example_tree k').2 = true → k' = ka ∨ key_lt ka k'.
Proof.
  assert (Minimum 0%Z example_tree = (ka, 1%Z, true)) as Hm
    by (vm_compute; reflexivity).
  split; [exact example_tree_reachable|]. split; [exact Hm|].
  exact (Minimum_found_is_least 0%Z example_tree ka 1%Z
           example_tree_reachable Hm).
Defined.

Lemma Maximum_found_is_greatest_witness :
  reachable 0%Z example_tree ∧
  Maximum 0%Z example_tree = (kb, 4%Z, true) ∧
  Get 0%Z example_tree kb = (4%Z, true) ∧
  ∀ k', (Get 0%Z example_tree k').2 = true → k' = kb ∨ key_lt k' kb.
Proof.
  assert (Maximum 0%Z example_tree = (kb, 4%Z, true)) as Hm
    by (vm_compute; reflexivity).
  split; [exact example_tree_reachable|]. split; [exact Hm|].
  exact (Maximum_found_is_greatest 0%Z example_tree kb 4%Z
           example_tree_reachable Hm).
Defined.

Lemma Minimum_on_compressed_witness :
  reachable 0%Z example_tree ∧ compressed example_tree ∧
  Minimum 0%Z example_tree = first_pair 0%Z (walked example_tree) ∧
  ((Minimum 0%Z example_tree).2 = false ↔ Len example_tree = 0%Z).
Proof.
  split; [exact example_tree_reachable|].
  split; [exact example_tree_compressed|].
  exact (Minimum_on_compressed 0%Z example_tree
           example_tree_reachable example_tree_compressed).
Defined.

Lemma Maximum_on_compressed_witness :
  reachable 0%Z example_tree ∧ compressed example_tree ∧
  Maximum 0%Z example_tree = last_pair 0%Z (walked example_tree) ∧
  ((Maximum 0%Z example_tree).2 = false ↔ Len example_tree = 0%Z).
Proof.
  split; [exact example_tree_reachable|].
  split; [exact example_tree_compressed|].
  exact (Maximum_on_compressed 0%Z example_tree
           example_tree_reachable example_tree_compressed).
Defined.

Lemma WalkPrefix_visits_keys_with_prefix_witness :
  reachable 0%Z example_tree ∧
  (∀ k v, (k, v) ∈ WalkPrefix example_tree kab record [] ↔
     kab `prefix_of` k ∧ Get 0%Z example_tree k = (v, true)) ∧
  StronglySorted key_lt (WalkPrefix example_tree kab record []).*1 ∧
  (∀ (S : Type) (fn : key → Z → S → bool * S) (st : S),
     WalkPrefix example_tree kab fn st =
       (visit fn (WalkPrefix example_tree kab record []) st).2).
Proof.
  split; [exact example_tree_reachable|].
  exact (WalkPrefix_visits_keys_with_prefix 0%Z example_tree kab
           example_tree_reachable).
Defined.

Lemma WalkPath_visits_prefixes_of_path_witness :
  reachable 0%Z example_tree ∧
  (∀ k v, (k, v) ∈ WalkPath example_tree kabd record [] ↔
     k `prefix_of` kabd ∧ Get 0%Z example_tree k = (v, true)) ∧
  StronglySorted (λ k1 k2, length k1 < length k2)
    (WalkPath example_tree kabd record []).*1 ∧
  (∀ (S : Type) (fn : key → Z → S → bool * S) (st : S),
     WalkPath example_tree kabd fn st =
       (visit fn (WalkPath example_tree kabd record []) st).2).
Proof.
  split; [exact example_tree_reachable|].
  exact (WalkPath_visits_prefixes_of_path 0%Z example_tree kabd
           example_tree_reachable).
Defined.

Lemma NewFromMap_agrees_with_map_witness :
  map_to_list example_map ≡ₚ map_to_list example_map ∧
  ∃ t, NewFromMap 0%Z (map_to_list example_map) = Some t ∧
    (∀ k, Get 0%Z t k =
       match example_map !! k with
       | Some v => (v, true)
       | None => (0%Z, false)
       end) ∧
    Len t = Z.of_nat (base.size example_map) ∧
    ToMap t = example_map.
Proof.
  split; [reflexivity|].
  exact (NewFromMap_agrees_with_map 0%Z example_map (map_to_list example_map)
           (reflexivity _)).
Defined.

Lemma DeletePrefix_no_match_unchanged_witness :
  reachable 0%Z example_tree ∧ compressed example_tree ∧
  (∀ k, kac `prefix_of` k → (Get 0%Z example_tree k).2 = false) ∧
  DeletePrefix example_tree kac = Some (example_tree, 0%Z).
Proof.
  assert (∀ k, kac `prefix_of` k → (Get 0%Z example_tree k).2 = false) as Hno.
  { intros k [x ->]. apply (Get_absent 0%Z). unfold stored.
    change (kac ++ x) with ("a"%byte :: "c"%byte :: x).
    rewrite find_leaf_cons.
    assert (getEdge (root example_tree) "a"%byte = Some fork_child_a) as ->
      by (vm_compute; reflexivity).
    cbn [mbind option_bind].
    assert (prefix fork_child_a = ["a"%byte]) as Hp
      by (vm_compute; reflexivity).
    replace ("a"%byte :: "c"%byte :: x)
      with (prefix fork_child_a ++ "c"%byte :: x) by (by rewrite Hp).
    rewrite find_at_app, find_leaf_cons.
    assert (getEdge fork_child_a "c"%byte = None) as ->
      by (vm_compute; reflexivity).
    done. }
  split; [exact example_tree_reachable|].
  split; [exact example_tree_compressed|]. split; [exact Hno|].
  exact (DeletePrefix_no_match_unchanged 0%Z example_tree kac
           example_tree_reachable example_tree_compressed Hno).
Defined.

Lemma Heap_Get_refines_witness :
  Heap.tree_at 10 example_store = Some example_tree ∧
  node_size (root example_tree) ≤ 100 ∧
  Heap.Get 0%Z 100 kab example_store =
    Heap.Ok (Get 0%Z example_tree kab) example_store.
Proof.
  assert (Heap.tree_at 10 example_store = Some example_tree) as Ht
    by (vm_compute; reflexivity).
  assert (node_size (root example_tree) ≤ 100) as Hf by (vm_compute; lia).
  split; [exact Ht|]. split; [exact Hf|].
  exact (Heap_Get_refines 0%Z 10 100 example_store example_tree kab Ht Hf).
Defined.

Lemma Heap_Walk_refines_witness :
  Heap.tree_at 10 example_store = Some example_tree ∧
  2 * node_size (root example_tree) ≤ 100 ∧
  Heap.Walk 100 (pure_visitor note_key) example_store =
    Heap.Ok tt (set_user example_store
                  (Walk example_tree note_key (Heap.user example_store))).
Proof.
  assert (Heap.tree_at 10 example_store = Some example_tree) as Ht
    by (vm_compute; reflexivity).
  assert (2 * node_size (root example_tree) ≤ 100) as Hf by (vm_compute; lia).
  split; [exact Ht|]. split; [exact Hf|].
  exact (Heap_Walk_refines note_key 10 100 example_store example_tree Ht Hf).
Defined.
